(** * pollenmobile_sync: a shallow embedding of [main.go]

    The program scrapes the Pollen Mobile explorer API into Postgres.  This
    development embeds its helpers ([isValidHex], [hexToLatLng]), the
    retrying fetcher, the reverse-geocoding cache, the three sync routines
    and [main], and states the properties of the specification over them.

    Go library calls the program relies on ([strings.Split],
    [strconv.ParseInt], [encoding/json] decoding into [interface{}], the
    [ON CONFLICT] clause GORM sends to Postgres) are modelled from their
    documented behaviour, next to the program function that uses them. *)

From Stdlib Require Import ZArith Lia ZifyNat Floats Ascii.
From stdpp Require Import gmap strings list.

Open Scope string_scope.
Open Scope list_scope.
Open Scope Z_scope.

(** ** Go strings

    A Go string is a sequence of bytes; [len] counts bytes.  Rocq's [string]
    (a list of 8-bit [ascii]) is the same data. *)

Definition byteval (c : ascii) : Z := Z.of_N (Ascii.N_of_ascii c).

Definition len (s : string) : Z := Z.of_nat (String.length s).

(** [strings.Split(s, sep)] for a one-byte separator (the program only splits
    on [","]): all the substrings between separators, in order; a string
    without separator gives the one-element list [[s]], so
    [Split] of the empty string is the list holding the empty string. *)
Fixpoint strings_Split (s : string) (sep : ascii) : list string :=
  match s with
  | EmptyString => [EmptyString]
  | String c s' =>
      if Ascii.eqb c sep then EmptyString :: strings_Split s' sep
      else match strings_Split s' sep with
           | [] => [String c EmptyString]
           | tok :: toks => String c tok :: toks
           end
  end.

(** [strings.Join] with a one-byte separator, the inverse of [strings_Split]. *)
Fixpoint strings_Join (toks : list string) (sep : ascii) : string :=
  match toks with
  | [] => EmptyString
  | [tok] => tok
  | tok :: toks' => tok +:+ String sep (strings_Join toks' sep)
  end.

(** ** strconv.ParseInt

    Go's [strconv] (atoi.go).  [ParseUint] walks the bytes with a [uint64]
    accumulator; [ParseInt] strips one leading sign, calls [ParseUint] and
    checks the signed range.  Both return a value together with the error:
    0 on a syntax error, the nearest bound on a range error. *)

Inductive NumError := ErrSyntax | ErrRange | ErrBase | ErrBitSize.

Definition maxUint64 : Z := 2 ^ 64 - 1.
Definition wrap64 (n : Z) : Z := n mod 2 ^ 64.

(** [lower(c)] is [c | ('x' - 'X')]. *)
Definition lower (c : Z) : Z := Z.lor c 32.

(** The digit value of a byte: ['0'..'9'], then letters of either case. *)
Definition digitval (c : Z) : option Z :=
  if (48 <=? c) && (c <=? 57) then Some (c - 48)
  else if (97 <=? lower c) && (lower c <=? 122) then Some (lower c - 97 + 10)
  else None.

(** The loop of [ParseUint] over the bytes of [s], [n] the accumulator. *)
Fixpoint parseUint_loop (base cutoff maxVal n : Z) (s : string)
  : Z * option NumError :=
  match s with
  | EmptyString => (n, None)
  | String c s' =>
      match digitval (byteval c) with
      | None => (0, Some ErrSyntax)
      | Some d =>
          if d >=? base mod 256 then (0, Some ErrSyntax)
          else if n >=? cutoff then (maxVal, Some ErrRange)
          else
            let n' := wrap64 (n * base) in
            let n1 := wrap64 (n' + d) in
            if (n1 <? n') || (n1 >? maxVal) then (maxVal, Some ErrRange)
            else parseUint_loop base cutoff maxVal n1 s'
      end
  end.

(** [strconv.ParseUint(s, base, bitSize)] for an explicit base 2..36 and a
    bit size 1..64.  (Base 0, which infers the base from a prefix and allows
    underscores, is outside this model: the program passes 16.) *)
Definition strconv_ParseUint (s : string) (base bitSize : Z)
  : Z * option NumError :=
  if String.eqb s EmptyString then (0, Some ErrSyntax)
  else if negb ((2 <=? base) && (base <=? 36)) then (0, Some ErrBase)
  else if negb ((1 <=? bitSize) && (bitSize <=? 64)) then (0, Some ErrBitSize)
  else
    let cutoff := maxUint64 / base + 1 in
    let maxVal := 2 ^ bitSize - 1 in
    parseUint_loop base cutoff maxVal 0 s.

(** [strconv.ParseInt(s, base, bitSize)]. *)
Definition strconv_ParseInt (s : string) (base bitSize : Z)
  : Z * option NumError :=
  match s with
  | EmptyString => (0, Some ErrSyntax)
  | String c0 rest =>
      let neg := Ascii.eqb c0 "-"%char in
      let s1 := if Ascii.eqb c0 "+"%char || neg then rest else s in
      let '(un, err) := strconv_ParseUint s1 base bitSize in
      match err with
      | Some ErrRange | None =>
          let cutoff := 2 ^ (bitSize - 1) in
          if negb neg && (un >=? cutoff) then (cutoff - 1, Some ErrRange)
          else if neg && (un >? cutoff) then (- cutoff, Some ErrRange)
          else (if neg then - un else un, None)
      | Some e => (0, Some e)
      end
  end.

(** ** isValidHex (main.go, Helpers) *)

(** The [for _, hex := range hexes] loop, with its two early returns. *)
Fixpoint isValidHex_loop (hexes : list string) : bool :=
  match hexes with
  | [] => true
  | hex :: hexes' =>
      if negb (len hex =? 15) then false
      else match snd (strconv_ParseInt hex 16 64) with
           | Some _ => false
           | None => isValidHex_loop hexes'
           end
  end.

Definition isValidHex (s : string) : bool :=
  let hexes := strings_Split s ","%char in
  isValidHex_loop hexes.

(** ** hexToLatLng (main.go, OSM section)

    [value, _ := strconv.ParseInt(hex, 16, 64)] keeps the value and drops the
    error; [h3.Cell(value)] is a conversion of the same 64-bit integer. *)

Definition hexToCell (hex : string) : Z :=
  let '(value, _) := strconv_ParseInt hex 16 64 in
  value.

(** ** Data model

    Go [int] is [Z], [float64] a binary64 [float], [*string] an
    [option string], [[]string] and [pq.StringArray] a [list string],
    [map[string]string] a [gmap string string], [time.Time] an instant in
    nanoseconds. *)

Definition float64 := float.
Definition Time := Z.

(** The zero [time.Time] (January 1, year 1, UTC), in Unix nanoseconds. *)
Definition Time_zero : Time := -62135596800000000000.

(** *** Postgres DB Schema *)

Module Hex.
Record t := mk {
    ID : string;
    FlowerCount : Z;
    Covered : Z;
    Lat : float64;
    Lng : float64;
    Address : string;
    Suburb : string;
    City : string;
    State : string;
    Town : string;
    County : string;
    Attach : Z;
    Flowers : list string;
    FlowersContained : list string;
    BountyReward : float64;
    LootBoxReward : Z;
    DailyReward : Z;
    Bounty : string;
    BountyTime : string;
    UpdatedAt : Time
  }.
End Hex.

Module Flower.
Record t := mk {
    ID : string;
    BountyRewards : Z;
    DisplayName : string;
    UpdateTime : string;
    DailyBeesSeen : list string;
    FirstSeen : option string;
    HBeesSeen : list string;
    WalletAddress : string;
    CoveredHexes : list string;
    LastSeen : option string;
    DailyAttaches : Z;
    H3Hex : string;
    Lat : float64;
    Lng : float64;
    Address : string;
    Suburb : string;
    City : string;
    State : string;
    Town : string;
    County : string;
    Active : Z;
    FlowerRewards : float64;
    DailyCoveredHexes : list string;
    NFTAddress : string;
    Nickname : string;
    FlowerAttaches : Z;
    DailyHBeesSeen : list string;
    DailyRewards : float64;
    ImageURL : string;
    BeesSeen : string;
    UpdatedAt : Time
  }.
End Flower.

Module Reward.
Record t := mk {
    ID : string;
    PCN : float64;
    PIC : float64;
    RSERatio : float64;
    Client : string;
    Coverage : list string;
    DailyPIC : float64;
    Date : string;
    Device : string;
    DeviceType : string;
    Reward : string;
    Transaction : string;
    TransactionStatus : string;
    Wallet : string;
    UpdatedAt : Time
  }.
End Reward.

Definition tableNameHex := "pollen_hexes".
Definition tableNameFlower := "pollen_flowers".
Definition tableNameReward := "pollen_rewards".

Definition indexes : list string :=
  ["CREATE INDEX IF NOT EXISTS idx_pollen_rewards_device ON pollen_rewards (device, date DESC)"].

(** [models]: the three schema structs handed to [AutoMigrate], by table. *)
Definition models : list string := [tableNameHex; tableNameReward; tableNameFlower].

(** *** Pollen API responses *)

Module HexListItem.
Record t := mk {
    ID : string;
    Covered : Z;
    FlowerCount : Z
  }.
End HexListItem.

Module HexItem.
Record hex_t := mkHex {
    SignalStrength : Z;
    Attach : Z;
    LastCovered : string;
    LastPollenDrop : string;
    Device : list string;
    Time_ : string;
    H3HexTop : string;
    Flowers : list string;
    FlowersContained : list string;
    BountyReward : float64;
    H3Hex : string;
    Ping : float64;
    LootBoxReward : Z;
    DailyReward : Z;
    Bounty : string;
    BountyTime : string
  }.
Record t := mk { Hex : hex_t }.
End HexItem.

Module FlowerListItem.
Record t := mk {
    BountyRewards : Z;
    DisplayName : string;
    UpdateTime : string;
    DailyBeesSeen : list string;
    FirstSeen : option string;
    HBeesSeen : list string;
    WalletAddress : string;
    CoveredHexes : list string;
    LastSeen : option string;
    DailyAttaches : Z;
    H3Hex : string;
    Active : Z;
    FlowerRewards : float64;
    DailyCoveredHexes : list string;
    NFTAddress : string;
    ID : string;
    Nickname : string;
    FlowerAttaches : Z;
    DailyHBeesSeen : list string;
    DailyRewards : float64;
    ImageURL : string;
    BeesSeen : gmap string string
  }.
End FlowerListItem.

(** A JSON value, as [encoding/json] reads it. *)
#[warnings="-register-all"]
Inductive JSON :=
| JNull
| JBool (b : bool)
| JNumber (x : float64)
| JString (s : string)
| JArray (elems : list JSON)
| JObject (members : list (string * JSON)).

(** The dynamic values of a Go [interface{}] that matter here: what
    [encoding/json] stores when it decodes into an [interface{}] ([nil],
    [bool], [float64], [string], [[]interface{}], [map[string]interface{}]),
    and a [[]string], the type the program's type switch looks for. *)
#[warnings="-register-all"]
Inductive GoAny :=
| AnyNil
| AnyBool (b : bool)
| AnyFloat64 (x : float64)
| AnyString (s : string)
| AnySlice (elems : list GoAny)            (* []interface{} *)
| AnyMap (members : list (string * GoAny)) (* map[string]interface{} *)
| AnyStringSlice (l : list string).        (* []string *)

(** Decoding a JSON value into an [interface{}] field: every JSON value is
    accepted, and an array always becomes a [[]interface{}]. *)
Fixpoint json_decode_interface (j : JSON) : GoAny :=
  match j with
  | JNull => AnyNil
  | JBool b => AnyBool b
  | JNumber x => AnyFloat64 x
  | JString s => AnyString s
  | JArray elems => AnySlice (map json_decode_interface elems)
  | JObject members =>
      AnyMap (map (fun kv => (fst kv, json_decode_interface (snd kv))) members)
  end.

Module DeviceRewardItem.
Record t := mk {
    PCN : float64;
    PIC : float64;
    RSERatio : float64;
    Client : string;
    (* This should usually be []string, but some records mangle the API
       response with "[]". So we'll have to fix that manually. *)
    Coverage : GoAny;
    DailyPIC : float64;
    Date : string;
    Device : string;
    DeviceType : string;
    Reward : string;
    RewardID : string;
    Transaction : string;
    TransactionStatus : string;
    Wallet : string
  }.
End DeviceRewardItem.

(** [DeviceRewards] is a [map[string][]DeviceRewardItem]; a Go [range] over
    a map visits it in an unspecified order, so the decoded map is kept as
    the list of its entries in the order the loop visits them. *)
Definition DeviceRewards := list (string * list DeviceRewardItem.t).

(** *** OSM (Nominatim) API *)

Module OSMPAPIResponse.
Record address_t := mkAddress {
    Suburb : string;
    City : string;
    State : string;
    Town : string;
    County : string
  }.
Record t := mk {
    DisplayName : string;
    Address : address_t
  }.
End OSMPAPIResponse.

Module ReverseGeocode.
Record t := mk {
    Lat : float64;
    Lng : float64;
    Address : string;
    Suburb : string;
    City : string;
    State : string;
    Town : string;
    County : string
  }.
End ReverseGeocode.

(** ** Errors, effects and the program state *)

(** Go [error] values, by where they come from. *)
Inductive error :=
| TransportError (msg : string)   (* net/http: NewRequest, Client.Do *)
| DecodeError (msg : string)      (* encoding/json *)
| DBError (msg : string)          (* gorm / Postgres *)
| Errorf (msg : string).          (* fmt.Errorf *)

Inductive Arg := ArgInt (n : Z) | ArgErr (e : error).

(** SQL statements sent to the store. *)
Inductive Stmt :=
| SqlOpen                                        (* gorm.Open *)
| SqlMigrate (table : string)                    (* db.AutoMigrate *)
| SqlExec (sql : string)                         (* db.Exec *)
| SqlSelect (table : string) (columns : string)  (* db.Table(..).Select(..).Find *)
| SqlUpsert (table : string) (ids : list string) (* INSERT .. ON CONFLICT *).

(** What the program does to the outside world, in order. *)
Inductive Event :=
| EvPrintf (format : string) (args : list Arg)   (* fmt.Printf *)
| EvTake (limiter : string)                      (* ratelimit Take() *)
| EvPollenGet (url : string)                     (* GET on the Pollen API *)
| EvSleep (d : Z)                                (* time.Sleep *)
| EvOsmGet (hex : string) (lat lng : float64)    (* GET osmAPI(lat, lng), asked for cell hex *)
| EvSQL (s : Stmt).

(** The time an effect takes: a sleep lasts its duration (nanoseconds), any
    other effect one tick. *)
Definition duration (ev : Event) : Z :=
  match ev with
  | EvSleep d => d
  | _ => 1
  end.

(** [clause.OnConflict], with the assignments the program uses (a column
    set to an instant). *)
Record Assignment := mkAssignment { Column : string; Value : Time }.
Record OnConflict := mkOnConflict {
  Columns : list string;
  UpdateAll : bool;
  DoUpdates : list Assignment
}.

(** The package-level variables that change ([osmCache]) or are computed at
    initialisation ([upsertClause]), the three tables, the clock and the
    trace of effects so far (each with the instant it started). *)
Record State := mkState {
  osmCache : gmap string ReverseGeocode.t;
  upsertClause : OnConflict;
  pollen_hexes : gmap string Hex.t;
  pollen_flowers : gmap string Flower.t;
  pollen_rewards : gmap string Reward.t;
  clock : Time;
  trace : list (Time * Event)
}.

Definition set_osmCache (c : gmap string ReverseGeocode.t) (st : State) : State :=
  mkState c (upsertClause st) (pollen_hexes st) (pollen_flowers st)
          (pollen_rewards st) (clock st) (trace st).
Definition set_pollen_hexes (m : gmap string Hex.t) (st : State) : State :=
  mkState (osmCache st) (upsertClause st) m (pollen_flowers st)
          (pollen_rewards st) (clock st) (trace st).
Definition set_pollen_flowers (m : gmap string Flower.t) (st : State) : State :=
  mkState (osmCache st) (upsertClause st) (pollen_hexes st) m
          (pollen_rewards st) (clock st) (trace st).
Definition set_pollen_rewards (m : gmap string Reward.t) (st : State) : State :=
  mkState (osmCache st) (upsertClause st) (pollen_hexes st) (pollen_flowers st)
          m (clock st) (trace st).

(** The initialiser of the package-level [upsertClause]: its [time.Now()]
    is evaluated when the variable is initialised. *)
Definition upsertClause_init (now : Time) : OnConflict :=
  {| Columns := ["id"];
     UpdateAll := true;
     DoUpdates := [ {| Column := "updated_at"; Value := now |} ] |}.

(** The state when [main] starts: package variables initialised at instant
    [t0], the store as it was left. *)
Definition initState (t0 : Time) (hexes : gmap string Hex.t)
    (flowers : gmap string Flower.t) (rewards : gmap string Reward.t) : State :=
  {| osmCache := ∅;
     upsertClause := upsertClause_init t0;
     pollen_hexes := hexes;
     pollen_flowers := flowers;
     pollen_rewards := rewards;
     clock := t0;
     trace := [] |}.

(** The outside world: what each upstream answers to a request made at a
    given instant, whether the store fails a statement, and the two library
    functions the program calls on its data. *)
Record Env := mkEnv {
  h3_CellToLatLng : Z -> float64 * float64;
  api_HexList : string -> Time -> error + list HexListItem.t;
  api_HexItem : string -> Time -> error + HexItem.t;
  api_FlowerList : string -> Time -> error + list FlowerListItem.t;
  api_DeviceRewards : string -> Time -> error + DeviceRewards;
  api_OSM : float64 -> float64 -> Time -> error + OSMPAPIResponse.t;
  json_Marshal : gmap string string -> string * option error;
  db_error : Time -> option error
}.

(** A response shape [T] of [pollenAPICall[T]]: its zero value and the
    upstream that answers with it (transport and decoding included). *)
Class Shape (T : Type) := {
  zero : T;
  respond : Env -> string -> Time -> error + T
}.

#[export] Instance Shape_HexList : Shape (list HexListItem.t) :=
  {| zero := []; respond := api_HexList |}.
#[export] Instance Shape_HexItem : Shape HexItem.t :=
  {| zero := HexItem.mk (HexItem.mkHex 0 0 EmptyString EmptyString [] EmptyString EmptyString [] [] 0%float EmptyString 0%float 0 0 EmptyString EmptyString);
     respond := api_HexItem |}.
#[export] Instance Shape_FlowerList : Shape (list FlowerListItem.t) :=
  {| zero := []; respond := api_FlowerList |}.
#[export] Instance Shape_DeviceRewards : Shape DeviceRewards :=
  {| zero := []; respond := api_DeviceRewards |}.

(** *** The monad: state, and a returned error (or panic) that stops the rest *)

Inductive Res (A : Type) :=
| Ok (a : A)
| Err (e : error).
Arguments Ok {A} a.
Arguments Err {A} e.

Definition M (A : Type) : Type := State -> Res A * State.

Definition ret {A} (a : A) : M A := fun st => (Ok a, st).
Definition throw {A} (e : error) : M A := fun st => (Err e, st).
Definition bind {A B} (m : M A) (k : A -> M B) : M B :=
  fun st =>
    match m st with
    | (Ok a, st') => k a st'
    | (Err e, st') => (Err e, st')
    end.
Definition gets {A} (f : State -> A) : M A := fun st => (Ok (f st), st).
Definition modify (f : State -> State) : M unit := fun st => (Ok tt, f st).

Declare Scope go_scope.
Delimit Scope go_scope with go.
Notation "'let*' p ':=' m 'in' k" := (bind m (fun p => k))
  (at level 10, p pattern, m at level 100, k at level 200) : go_scope.
Open Scope go_scope.

(** An effect: recorded with the instant it starts, then time passes. *)
Definition record (ev : Event) (st : State) : State :=
  mkState (osmCache st) (upsertClause st) (pollen_hexes st) (pollen_flowers st)
          (pollen_rewards st) (clock st + duration ev) (trace st ++ [(clock st, ev)]).

Definition emit (ev : Event) : M unit := modify (record ev).

(** [for i, x := range xs { body }], an error returned by the body ending
    the loop. *)
Fixpoint forRange {A} (body : Z -> A -> M unit) (i : Z) (xs : list A) : M unit :=
  match xs with
  | [] => ret tt
  | x :: xs' => let* _ := body i x in forRange body (i + 1) xs'
  end.

(** The same loop when each iteration fills slot [i] of a result slice. *)
Fixpoint forRangeFill {A B} (body : Z -> A -> M B) (i : Z) (xs : list A) : M (list B) :=
  match xs with
  | [] => ret []
  | x :: xs' =>
      let* y := body i x in
      let* ys := forRangeFill body (i + 1) xs' in
      ret (y :: ys)
  end.

(** [if err != nil { return err }] *)
Definition check (err : option error) : M unit :=
  match err with
  | Some e => throw e
  | None => ret tt
  end.

(** ** The store

    A table maps the primary key to the row.  [TableName] is the method of
    the schema structs; the other members say where the key and the
    [UpdatedAt] column of a row are, and which table of the state holds it. *)
Class Model (R : Type) := {
  TableName : string;
  primaryKey : R -> string;
  getUpdatedAt : R -> Time;
  setUpdatedAt : Time -> R -> R;
  table : State -> gmap string R;
  set_table : gmap string R -> State -> State
}.

#[export] Instance Model_Hex : Model Hex.t := {|
  TableName := tableNameHex;
  primaryKey := Hex.ID;
  getUpdatedAt := Hex.UpdatedAt;
  setUpdatedAt t h :=
    Hex.mk (Hex.ID h) (Hex.FlowerCount h) (Hex.Covered h) (Hex.Lat h) (Hex.Lng h)
      (Hex.Address h) (Hex.Suburb h) (Hex.City h) (Hex.State h) (Hex.Town h)
      (Hex.County h) (Hex.Attach h) (Hex.Flowers h) (Hex.FlowersContained h)
      (Hex.BountyReward h) (Hex.LootBoxReward h) (Hex.DailyReward h)
      (Hex.Bounty h) (Hex.BountyTime h) t;
  table := pollen_hexes;
  set_table := set_pollen_hexes
|}.

#[export] Instance Model_Flower : Model Flower.t := {|
  TableName := tableNameFlower;
  primaryKey := Flower.ID;
  getUpdatedAt := Flower.UpdatedAt;
  setUpdatedAt t f :=
    Flower.mk (Flower.ID f) (Flower.BountyRewards f) (Flower.DisplayName f)
      (Flower.UpdateTime f) (Flower.DailyBeesSeen f) (Flower.FirstSeen f)
      (Flower.HBeesSeen f) (Flower.WalletAddress f) (Flower.CoveredHexes f)
      (Flower.LastSeen f) (Flower.DailyAttaches f) (Flower.H3Hex f)
      (Flower.Lat f) (Flower.Lng f) (Flower.Address f) (Flower.Suburb f)
      (Flower.City f) (Flower.State f) (Flower.Town f) (Flower.County f)
      (Flower.Active f) (Flower.FlowerRewards f) (Flower.DailyCoveredHexes f)
      (Flower.NFTAddress f) (Flower.Nickname f) (Flower.FlowerAttaches f)
      (Flower.DailyHBeesSeen f) (Flower.DailyRewards f) (Flower.ImageURL f)
      (Flower.BeesSeen f) t;
  table := pollen_flowers;
  set_table := set_pollen_flowers
|}.

#[export] Instance Model_Reward : Model Reward.t := {|
  TableName := tableNameReward;
  primaryKey := Reward.ID;
  getUpdatedAt := Reward.UpdatedAt;
  setUpdatedAt t r :=
    Reward.mk (Reward.ID r) (Reward.PCN r) (Reward.PIC r) (Reward.RSERatio r)
      (Reward.Client r) (Reward.Coverage r) (Reward.DailyPIC r) (Reward.Date r)
      (Reward.Device r) (Reward.DeviceType r) (Reward.Reward r)
      (Reward.Transaction r) (Reward.TransactionStatus r) (Reward.Wallet r) t;
  table := pollen_rewards;
  set_table := set_pollen_rewards
|}.

(** One assignment of [DO UPDATE SET]: the program only assigns
    [updated_at]. *)
Definition applyAssignment {R} `{Model R} (r : R) (a : Assignment) : R :=
  if String.eqb (Column a) "updated_at" then setUpdatedAt (Value a) r else r.

(** [INSERT .. ON CONFLICT (id) DO UPDATE SET ..] for one row, at instant
    [now].  A new key is inserted, a zero [UpdatedAt] taking the column's
    default [current_timestamp].  On a conflict, [UpdateAll] overwrites the
    columns without a default with the new row's (so not [updated_at]), and
    the assignments of [DoUpdates] are applied. *)
Definition upsertRow {R} `{Model R} (oc : OnConflict) (now : Time)
    (tbl : gmap string R) (r : R) : gmap string R :=
  match tbl !! primaryKey r with
  | None =>
      <[primaryKey r :=
          if Z.eqb (getUpdatedAt r) Time_zero then setUpdatedAt now r else r]> tbl
  | Some old =>
      let base := if UpdateAll oc then setUpdatedAt (getUpdatedAt old) r else old in
      <[primaryKey r := foldl applyAssignment base (DoUpdates oc)]> tbl
  end.

(** [take size] slices of a list, as [CreateInBatches] cuts them. *)
Fixpoint batches {A} (fuel size : nat) (l : list A) : list (list A) :=
  match fuel, l with
  | S fuel', _ :: _ => take size l :: batches fuel' size (drop size l)
  | _, _ => []
  end.

Section Program.

Context (E : Env).

(** One statement sent to the store; the store may fail it. *)
Definition dbStatement (s : Stmt) : M unit :=
  let* now := gets clock in
  let* _ := emit (EvSQL s) in
  match db_error E now with
  | Some e => throw e
  | None => ret tt
  end.

(** [db.Clauses(oc).Create(&r)] *)
Definition Create {R} `{Model R} (oc : OnConflict) (r : R) : M unit :=
  let* now := gets clock in
  let* _ := dbStatement (SqlUpsert TableName [primaryKey r]) in
  modify (fun st => set_table (upsertRow oc now (table st) r) st).

(** A transaction: a failure inside restores the table. *)
Definition transaction {R} `{Model R} (m : M unit) : M unit :=
  fun st =>
    match m st with
    | (Err e, st') => (Err e, set_table (table (R:=R) st) st')
    | r => r
    end.

(** [db.Clauses(oc).CreateInBatches(&rows, batchSize)]: one statement per
    batch, in a transaction when there is more than one batch; no statement
    for an empty slice. *)
Definition CreateInBatches {R} `{Model R} (oc : OnConflict) (rows : list R)
    (batchSize : nat) : M unit :=
  let run :=
    forRange (fun _ batch =>
      let* now := gets clock in
      let* _ := dbStatement (SqlUpsert TableName (primaryKey <$> batch)) in
      modify (fun st => set_table (foldl (upsertRow oc now) (table st) batch) st))
      0 (batches (length rows) batchSize rows) in
  if (length rows <=? batchSize)%nat then run else transaction (R:=R) run.

(** ** Pollen API *)

Definition pollenAPIHexes := "https://api.pollenmobile.io/explorer/hexes?partial=true&h3_hex_top=".
Definition pollenAPIHex := "https://api.pollenmobile.io/explorer/hex?h3_hex=".
Definition pollenAPIFlowers := "https://api.pollenmobile.io/explorer/flowers".
Definition pollenAPIRewards := "https://api.pollenmobile.io/explorer/device-rewards-all?device=".
Definition pollenRetries : nat := 3.
Definition pollenRetryWaitTime : Z := 60000000000 * 3.

(** [pollenAPICall[T](url)]: take a slot of the rate limiter, send the GET,
    decode the body into a [T].  Returns the pair [(t, err)]; the answer of
    the upstream stands for the whole attempt (building the request, the
    transport, the decoding), and a failed attempt returns the zero [T]. *)
Definition pollenAPICall {T} `{Shape T} (url : string) : M (T * option error) :=
  let* _ := emit (EvTake "pollen") in
  let* now := gets clock in
  let* _ := emit (EvPollenGet url) in
  match respond E url now with
  | inl err => ret (zero, Some err)
  | inr t => ret (t, None)
  end.

(** The loop of [pollenAPICallWithRetries], [n] iterations left.  The body's
    [t, err := pollenAPICall[T](url)] declares variables of its own, local to
    the iteration; [t_ret] and [err_ret] are the function's named results,
    which the loop never assigns and the final [return t, err] returns. *)
Fixpoint pollenAPICallWithRetries_loop {T} `{Shape T} (url : string) (n : nat)
    (t_ret : T) (err_ret : option error) : M (T * option error) :=
  match n with
  | O => ret (t_ret, err_ret)
  | S n' =>
      let* (t, err) := pollenAPICall url in
      match err with
      | None => ret (t, err)
      | Some _ =>
          let* _ := emit (EvSleep pollenRetryWaitTime) in
          pollenAPICallWithRetries_loop url n' t_ret err_ret
      end
  end.

Definition pollenAPICallWithRetries {T} `{Shape T} (url : string)
  : M (T * option error) :=
  pollenAPICallWithRetries_loop url pollenRetries zero None.

Definition getAllHexes (area : string) : M (list HexListItem.t * option error) :=
  pollenAPICallWithRetries (pollenAPIHexes +:+ area).

Definition getHexDetails (hex : string) : M (HexItem.t * option error) :=
  pollenAPICallWithRetries (pollenAPIHex +:+ hex).

Definition getAllFlowers : M (list FlowerListItem.t * option error) :=
  pollenAPICallWithRetries pollenAPIFlowers.

Definition getRewards (deviceName : string)
  : M (list DeviceRewardItem.t * option error) :=
  let* (rewardsByDate, err) :=
    pollenAPICallWithRetries (T:=DeviceRewards) (pollenAPIRewards +:+ deviceName) in
  let rewards := foldl (fun rewards dailyRewards => (rewards ++ snd dailyRewards)%list)
                       [] rewardsByDate in
  ret (rewards, err).

(** ** OSM (Nominatim) reverse geocoding *)

Definition hexToLatLng (hex : string) : float64 * float64 :=
  let '(value, _) := strconv_ParseInt hex 16 64 in
  let latLng := h3_CellToLatLng E value in
  (fst latLng, snd latLng).

(** The rows a warm-up query returns: the cell column and the place columns. *)
Definition geocodesOfHexes (st : State) : list (string * ReverseGeocode.t) :=
  (fun kv : string * Hex.t => let h := snd kv in
     (Hex.ID h,
      ReverseGeocode.mk (Hex.Lat h) (Hex.Lng h) (Hex.Address h) (Hex.Suburb h)
        (Hex.City h) (Hex.State h) (Hex.Town h) (Hex.County h)))
  <$> map_to_list (pollen_hexes st).

Definition geocodesOfFlowers (st : State) : list (string * ReverseGeocode.t) :=
  (fun kv : string * Flower.t => let f := snd kv in
     (Flower.H3Hex f,
      ReverseGeocode.mk (Flower.Lat f) (Flower.Lng f) (Flower.Address f)
        (Flower.Suburb f) (Flower.City f) (Flower.State f) (Flower.Town f)
        (Flower.County f)))
  <$> map_to_list (pollen_flowers st).

Definition initGeocodeCache : M unit :=
  let tables :=
    [ (tableNameHex, "id", geocodesOfHexes);
      (tableNameFlower, "h3_hex", geocodesOfFlowers) ] in
  forRange (fun _ table =>
    let '(name, column, rows) := table in
    let* _ := dbStatement (SqlSelect name
      (column +:+ " AS Hex, lat AS Lat, lng AS Lng, address AS address, suburb AS Suburb, city AS City, state AS State, town AS Town, county AS County")) in
    let* records := gets rows in
    forRange (fun _ record =>
      modify (fun st => set_osmCache (<[fst record := snd record]> (osmCache st)) st))
      0 records)
    0 tables.

Definition reverseGeocode (hex : string) : M ReverseGeocode.t :=
  let* cache := gets osmCache in
  match cache !! hex with
  | Some record => ret record
  | None =>
      let* _ := emit (EvTake "osm") in
      let '(lat, lng) := hexToLatLng hex in
      let* now := gets clock in
      let* _ := emit (EvOsmGet hex lat lng) in
      match api_OSM E lat lng now with
      | inl err => throw err
      | inr place =>
          let g := ReverseGeocode.mk lat lng
                     (OSMPAPIResponse.DisplayName place)
                     (OSMPAPIResponse.Suburb (OSMPAPIResponse.Address place))
                     (OSMPAPIResponse.City (OSMPAPIResponse.Address place))
                     (OSMPAPIResponse.State (OSMPAPIResponse.Address place))
                     (OSMPAPIResponse.Town (OSMPAPIResponse.Address place))
                     (OSMPAPIResponse.County (OSMPAPIResponse.Address place)) in
          let* _ := modify (fun st => set_osmCache (<[hex := g]> (osmCache st)) st) in
          ret g
      end
  end.

(** ** The sync routines *)

(** The body of [for _, r := range rewardItems] in [syncRewards]: the type
    switch on [r.Coverage] has the single case [[]string]. *)
Definition rewardOfItem (r : DeviceRewardItem.t) : Reward.t :=
  let coverage :=
    match DeviceRewardItem.Coverage r with
    | AnyStringSlice v => v
    | _ => []
    end in
  {| Reward.ID := DeviceRewardItem.RewardID r;
     Reward.PCN := DeviceRewardItem.PCN r;
     Reward.PIC := DeviceRewardItem.PIC r;
     Reward.RSERatio := DeviceRewardItem.RSERatio r;
     Reward.Client := DeviceRewardItem.Client r;
     Reward.Coverage := coverage;
     Reward.DailyPIC := DeviceRewardItem.DailyPIC r;
     Reward.Date := DeviceRewardItem.Date r;
     Reward.Device := DeviceRewardItem.Device r;
     Reward.DeviceType := DeviceRewardItem.DeviceType r;
     Reward.Reward := DeviceRewardItem.Reward r;
     Reward.Transaction := DeviceRewardItem.Transaction r;
     Reward.TransactionStatus := DeviceRewardItem.TransactionStatus r;
     Reward.Wallet := DeviceRewardItem.Wallet r;
     Reward.UpdatedAt := Time_zero |}.

Definition syncRewards : M unit :=
  let* _ := dbStatement (SqlSelect tableNameFlower "id") in
  let* flowerNames := gets (fun st => fst <$> map_to_list (pollen_flowers st)) in
  let* _ := emit (EvPrintf "Found %v reward candidates\n" [ArgInt (Z.of_nat (length flowerNames))]) in
  forRange (fun i flowerName =>
    let* _ :=
      if i mod 100 =? 0
      then emit (EvPrintf "Reward progress: %d/%d\n"
                   [ArgInt i; ArgInt (Z.of_nat (length flowerNames))])
      else ret tt in
    let* (rewardItems, err) := getRewards flowerName in
    let* _ := check err in
    let rewards := rewardOfItem <$> rewardItems in
    let* oc := gets upsertClause in
    CreateInBatches oc rewards 200)
    0 flowerNames.

Definition flowerOfItem (f : FlowerListItem.t) (geo : ReverseGeocode.t)
    (beesSeen : string) : Flower.t :=
  {| Flower.ID := FlowerListItem.ID f;
     Flower.BountyRewards := FlowerListItem.BountyRewards f;
     Flower.DisplayName := FlowerListItem.DisplayName f;
     Flower.UpdateTime := FlowerListItem.UpdateTime f;
     Flower.DailyBeesSeen := FlowerListItem.DailyBeesSeen f;
     Flower.FirstSeen := FlowerListItem.FirstSeen f;
     Flower.HBeesSeen := FlowerListItem.HBeesSeen f;
     Flower.WalletAddress := FlowerListItem.WalletAddress f;
     Flower.CoveredHexes := FlowerListItem.CoveredHexes f;
     Flower.LastSeen := FlowerListItem.LastSeen f;
     Flower.DailyAttaches := FlowerListItem.DailyAttaches f;
     Flower.H3Hex := FlowerListItem.H3Hex f;
     Flower.Lat := ReverseGeocode.Lat geo;
     Flower.Lng := ReverseGeocode.Lng geo;
     Flower.Address := ReverseGeocode.Address geo;
     Flower.Suburb := ReverseGeocode.Suburb geo;
     Flower.City := ReverseGeocode.City geo;
     Flower.State := ReverseGeocode.State geo;
     Flower.Town := ReverseGeocode.Town geo;
     Flower.County := ReverseGeocode.County geo;
     Flower.Active := FlowerListItem.Active f;
     Flower.FlowerRewards := FlowerListItem.FlowerRewards f;
     Flower.DailyCoveredHexes := FlowerListItem.DailyCoveredHexes f;
     Flower.NFTAddress := FlowerListItem.NFTAddress f;
     Flower.Nickname := FlowerListItem.Nickname f;
     Flower.FlowerAttaches := FlowerListItem.FlowerAttaches f;
     Flower.DailyHBeesSeen := FlowerListItem.DailyHBeesSeen f;
     Flower.DailyRewards := FlowerListItem.DailyRewards f;
     Flower.ImageURL := FlowerListItem.ImageURL f;
     Flower.BeesSeen := beesSeen;
     Flower.UpdatedAt := Time_zero |}.

Definition syncFlowers : M unit :=
  let* (flowerItems, err) := getAllFlowers in
  let* _ := check err in
  let* _ := emit (EvPrintf "Found %v flowers\n" [ArgInt (Z.of_nat (length flowerItems))]) in
  let* flowers :=
    forRangeFill (fun i f =>
      let '(beesSeen, err) := json_Marshal E (FlowerListItem.BeesSeen f) in
      let* _ := check err in
      let* geo := reverseGeocode (FlowerListItem.H3Hex f) in
      ret (flowerOfItem f geo beesSeen))
      0 flowerItems in
  let* oc := gets upsertClause in
  CreateInBatches oc flowers 200.

Definition hexOfItem (hex : HexListItem.t) (geo : ReverseGeocode.t)
    (details : HexItem.t) : Hex.t :=
  {| Hex.ID := HexListItem.ID hex;
     Hex.FlowerCount := HexListItem.FlowerCount hex;
     Hex.Covered := HexListItem.Covered hex;
     Hex.Lat := ReverseGeocode.Lat geo;
     Hex.Lng := ReverseGeocode.Lng geo;
     Hex.Address := ReverseGeocode.Address geo;
     Hex.Suburb := ReverseGeocode.Suburb geo;
     Hex.City := ReverseGeocode.City geo;
     Hex.State := ReverseGeocode.State geo;
     Hex.Town := ReverseGeocode.Town geo;
     Hex.County := ReverseGeocode.County geo;
     Hex.Attach := HexItem.Attach (HexItem.Hex details);
     Hex.Flowers := HexItem.Flowers (HexItem.Hex details);
     Hex.FlowersContained := HexItem.FlowersContained (HexItem.Hex details);
     Hex.BountyReward := HexItem.BountyReward (HexItem.Hex details);
     Hex.LootBoxReward := HexItem.LootBoxReward (HexItem.Hex details);
     Hex.DailyReward := HexItem.DailyReward (HexItem.Hex details);
     Hex.Bounty := HexItem.Bounty (HexItem.Hex details);
     Hex.BountyTime := HexItem.BountyTime (HexItem.Hex details);
     Hex.UpdatedAt := Time_zero |}.

Definition syncHexes (hexLocations : string) : M unit :=
  let* (hexes, err) := getAllHexes hexLocations in
  let* _ := check err in
  let* _ := emit (EvPrintf "Found %v hexes\n" [ArgInt (Z.of_nat (length hexes))]) in
  forRange (fun i hex =>
    let* _ :=
      if i mod 100 =? 0
      then emit (EvPrintf "Hex progress: %v / %v\n"
                   [ArgInt i; ArgInt (Z.of_nat (length hexes))])
      else ret tt in
    let* (details, err) := getHexDetails (HexListItem.ID hex) in
    let* _ := check err in
    let* geo := reverseGeocode (HexListItem.ID hex) in
    let* oc := gets upsertClause in
    Create oc (hexOfItem hex geo details))
    0 hexes.

(** ** main *)

(** [handleErr(err)] applied to the error a call returns: print it and
    panic.  In [main] the error of the result is the panic value. *)
Definition handleErr (m : M unit) : M unit :=
  fun st =>
    match m st with
    | (Err err, st') =>
        (let* _ := emit (EvPrintf "Error: %v\n" [ArgErr err]) in
         throw err) st'
    | (Ok _, st') => (Ok tt, st')
    end.

Definition invalidArgument : error :=
  Errorf "invalid argument passed, should be a comma-separated list of H3 hexes".

(** [main], [args] being [os.Args[1:]]. *)
Definition main (args : list string) : M unit :=
  let* _ := handleErr (dbStatement SqlOpen) in
  let* _ := forRange (fun _ model => handleErr (dbStatement (SqlMigrate model))) 0 models in
  let* _ := forRange (fun _ idx => handleErr (dbStatement (SqlExec idx))) 0 indexes in
  let* _ := handleErr initGeocodeCache in
  let* _ := handleErr syncFlowers in
  let* _ := handleErr syncRewards in
  forRange (fun _ hexGroup =>
    if String.eqb hexGroup EmptyString || negb (isValidHex hexGroup)
    then throw invalidArgument
    else handleErr (syncHexes hexGroup))
    0 args.

End Program.

(** * Properties *)

(** ** Input validation *)

Lemma strings_Split_nonempty (s : string) (sep : ascii) :
  strings_Split s sep <> [].
Proof.
  destruct s as [|c s]; simpl; [discriminate|].
  destruct (Ascii.eqb c sep); [discriminate|].
  destruct (strings_Split s sep); discriminate.
Qed.

(** Joining the tokens with the separator gives the string back. *)
Lemma strings_Join_Split (s : string) (sep : ascii) :
  strings_Join (strings_Split s sep) sep = s.
Proof.
  induction s as [|c s IH]; simpl; [reflexivity|].
  destruct (Ascii.eqb_spec c sep) as [->|Hne].
  - pose proof (strings_Split_nonempty s sep) as Hn.
    destruct (strings_Split s sep) as [|tok toks]; [congruence|].
    change (strings_Join (EmptyString :: tok :: toks) sep)
      with (String sep (strings_Join (tok :: toks) sep)).
    now rewrite IH.
  - pose proof (strings_Split_nonempty s sep) as Hn.
    destruct (strings_Split s sep) as [|tok toks]; [congruence|].
    destruct toks as [|tok' toks]; simpl in *; rewrite <- IH; reflexivity.
Qed.

Fixpoint contains (c : ascii) (s : string) : bool :=
  match s with
  | EmptyString => false
  | String c' s' => Ascii.eqb c' c || contains c s'
  end.

(** No token contains the separator. *)
Lemma strings_Split_tokens (s : string) (sep : ascii) :
  Forall (fun tok => contains sep tok = false) (strings_Split s sep).
Proof.
  induction s as [|c s IH]; simpl.
  - repeat constructor.
  - destruct (Ascii.eqb_spec c sep) as [->|Hne].
    + constructor; [reflexivity | exact IH].
    + destruct (strings_Split s sep) as [|tok toks].
      * repeat constructor. simpl.
        destruct (Ascii.eqb_spec c sep); [contradiction | reflexivity].
      * inversion IH; subst. constructor; [|assumption].
        simpl. destruct (Ascii.eqb_spec c sep); [contradiction | assumption].
Qed.

(** A string without separator is its own single token. *)
Lemma strings_Split_single (s : string) (sep : ascii) :
  contains sep s = false -> strings_Split s sep = [s].
Proof.
  induction s as [|c s IH]; simpl; [reflexivity|].
  intros H. apply orb_false_iff in H as [Hc Hs].
  rewrite Hc, (IH Hs). reflexivity.
Qed.

(** The specification's words: every comma-separated token is exactly 15
    characters and parses as a base-16 integer. *)
Definition validToken (tok : string) : Prop :=
  String.length tok = 15%nat /\ exists v, strconv_ParseInt tok 16 64 = (v, None).

Definition isValidHex_spec (s : string) : Prop :=
  Forall validToken (strings_Split s ","%char).

Lemma isValidHex_loop_spec (hexes : list string) :
  isValidHex_loop hexes = true <-> Forall validToken hexes.
Proof.
  induction hexes as [|hex hexes IH]; simpl.
  - split; [constructor | reflexivity].
  - unfold len. destruct (Z.eqb_spec (Z.of_nat (String.length hex)) 15) as [Hl|Hl]; simpl.
    + destruct (strconv_ParseInt hex 16 64) as [v [e|]] eqn:Hp; simpl.
      * split; [discriminate|]. intros H. inversion H as [|? ? [_ [v' Hv']] _]; subst.
        congruence.
      * rewrite IH. split.
        -- intros H. constructor; [|assumption]. split; [lia | eauto].
        -- intros H. now inversion H.
    + split; [discriminate|]. intros H. inversion H as [|? ? [Hlen _] _]; subst. lia.
Qed.

(** C5: [isValidHex] on the specification's examples, and in general: it
    returns true exactly when every comma-separated token has 15 characters
    and parses as a base-16 integer. *)
Theorem isValidHex_correct :
  isValidHex "852a1393fffffff,852a104bfffffff" = true /\
  isValidHex "852a1393fffffff," = false /\
  isValidHex "nothex" = false /\
  isValidHex EmptyString = false /\
  (forall s, isValidHex s = true <-> isValidHex_spec s).
Proof.
  split; [vm_compute; reflexivity|].
  split; [vm_compute; reflexivity|].
  split; [vm_compute; reflexivity|].
  split; [vm_compute; reflexivity|].
  intros s. unfold isValidHex, isValidHex_spec. apply isValidHex_loop_spec.
Qed.

(** *** What [strconv.ParseInt(_, 16, 64)] returns *)

Lemma strconv_ParseUint_16_64 (s : string) :
  strconv_ParseUint s 16 64 =
  if String.eqb s EmptyString then (0, Some ErrSyntax)
  else parseUint_loop 16 (2 ^ 60) (2 ^ 64 - 1) 0 s.
Proof. reflexivity. Qed.

(** The loop fails only with a syntax error (value 0) or a range error
    (value [maxVal]). *)
Lemma parseUint_loop_result (base cutoff maxVal : Z) (s : string) :
  forall n v err,
    parseUint_loop base cutoff maxVal n s = (v, err) ->
    err = None \/ (err = Some ErrSyntax /\ v = 0) \/
    (err = Some ErrRange /\ v = maxVal).
Proof.
  induction s as [|c s IH]; intros n v err; simpl.
  - intros [= <- <-]. now left.
  - destruct (digitval (byteval c)) as [d|]; [|intros [= <- <-]; auto].
    destruct (d >=? base mod 256); [intros [= <- <-]; auto|].
    destruct (n >=? cutoff); [intros [= <- <-]; auto|].
    destruct (_ || _); [intros [= <- <-]; auto|].
    apply IH.
Qed.

(** [ParseInt(s, 16, 64)] either succeeds, or reports a syntax error with
    value 0, or a range error with the nearest bound of [int64]. *)
Lemma strconv_ParseInt_16_64_result (s : string) (v : Z) (err : option NumError) :
  strconv_ParseInt s 16 64 = (v, err) ->
  err = None \/ (err = Some ErrSyntax /\ v = 0) \/
  (err = Some ErrRange /\ (v = 2 ^ 63 - 1 \/ v = - 2 ^ 63)).
Proof.
  unfold strconv_ParseInt. destruct s as [|c0 rest]; [intros [= <- <-]; auto|].
  match goal with
  | |- context [strconv_ParseUint ?x 16 64] => generalize x; intros s1
  end.
  rewrite strconv_ParseUint_16_64.
  destruct (String.eqb s1 EmptyString).
  - intros [= <- <-]. auto.
  - destruct (parseUint_loop 16 (2 ^ 60) (2 ^ 64 - 1) 0 s1) as [un e] eqn:Hl.
    apply parseUint_loop_result in Hl.
    change (2 ^ (64 - 1)) with (2 ^ 63).
    destruct Hl as [-> | [[-> ->] | [-> ->]]].
    + destruct (negb _ && _); [intros [= <- <-]; auto|].
      destruct (_ && _); intros [= <- <-]; auto.
    + intros [= <- <-]. auto.
    + destruct (c0 =? "-")%char; simpl; intros [= <- <-]; auto.
Qed.

(** *** Tokens of hexadecimal digits *)

Definition isHexDigit (c : ascii) : bool :=
  let b := byteval c in
  ((48 <=? b) && (b <=? 57)) || ((97 <=? b) && (b <=? 102)) ||
  ((65 <=? b) && (b <=? 70)).

Fixpoint hexDigits (s : string) : bool :=
  match s with
  | EmptyString => true
  | String c s' => isHexDigit c && hexDigits s'
  end.

(** A token without its leading sign, as [strconv.ParseInt] strips it. *)
Definition stripSign (tok : string) : string :=
  match tok with
  | EmptyString => EmptyString
  | String c0 rest =>
      if Ascii.eqb c0 "+" || Ascii.eqb c0 "-" then rest else tok
  end.

Lemma digitval_hexDigit (c : ascii) :
  match digitval (byteval c) with
  | Some d => d <? 16
  | None => false
  end = isHexDigit c.
Proof. destruct c as [[] [] [] [] [] [] [] []]; vm_compute; reflexivity. Qed.

Lemma isHexDigit_digitval (c : ascii) :
  isHexDigit c = true ->
  (exists d, digitval (byteval c) = Some d /\ 0 <= d < 16) /\
  Ascii.eqb c "," = false.
Proof.
  destruct c as [[] [] [] [] [] [] [] []]; vm_compute; intros H;
    try discriminate H; (split; [eexists; split; [reflexivity | split; congruence] | reflexivity]).
Qed.

Lemma hexDigits_no_comma (s : string) :
  hexDigits s = true -> contains "," s = false.
Proof.
  induction s as [|c s IH]; simpl; [reflexivity|].
  intros H. apply andb_true_iff in H as [Hc Hs].
  apply isHexDigit_digitval in Hc as [_ ->]. now apply IH.
Qed.

(** Hexadecimal digits that fit in 64 bits are parsed without error. *)
Lemma parseUint_loop_hexDigits (s : string) :
  forall n,
    hexDigits s = true -> 0 <= n ->
    (n + 1) * 16 ^ Z.of_nat (String.length s) <= 2 ^ 64 ->
    exists v, parseUint_loop 16 (2 ^ 60) (2 ^ 64 - 1) n s = (v, None) /\
              0 <= v < (n + 1) * 16 ^ Z.of_nat (String.length s).
Proof.
  induction s as [|c s IH]; intros n Hd Hn Hb.
  - exists n. simpl in *. repeat split; lia.
  - simpl in Hd. apply andb_true_iff in Hd as [Hc Hs].
    apply isHexDigit_digitval in Hc as [[d [Hd [Hd0 Hd16]]] _].
    cbn [String.length] in Hb |- *. rewrite Nat2Z.inj_succ, Z.pow_succ_r in * by lia.
    set (P := 16 ^ Z.of_nat (String.length s)) in *.
    assert (HP : 1 <= P) by (subst P; apply (Z.pow_le_mono_r 16 0); lia).
    assert (Hn16 : (n + 1) * 16 <= 2 ^ 64) by nia.
    cbn [parseUint_loop]. rewrite Hd.
    change (16 mod 256) with 16.
    replace (d >=? 16) with false by (symmetry; rewrite Z.geb_leb; apply Z.leb_gt; lia).
    replace (n >=? 2 ^ 60) with false
      by (symmetry; rewrite Z.geb_leb; apply Z.leb_gt; change (2 ^ 64) with (2 ^ 60 * 16) in Hn16; lia).
    unfold wrap64. rewrite (Z.mod_small (n * 16)) by lia.
    rewrite (Z.mod_small (n * 16 + d)) by lia.
    replace (n * 16 + d <? n * 16) with false by (symmetry; apply Z.ltb_ge; lia).
    replace (n * 16 + d >? 2 ^ 64 - 1) with false
      by (symmetry; rewrite Z.gtb_ltb; apply Z.ltb_ge; lia).
    cbn [orb].
    destruct (IH (n * 16 + d)) as [v [Hv Hr]]; [assumption | lia | nia |].
    exists v. repeat split; [exact Hv | lia | nia].
Qed.

(** A sign followed by 14 hexadecimal digits parses. *)
Lemma strconv_ParseInt_signed (sign : ascii) (body : string) :
  sign = "+"%char \/ sign = "-"%char ->
  String.length body = 14%nat -> hexDigits body = true ->
  snd (strconv_ParseInt (String sign body) 16 64) = None.
Proof.
  intros Hsign Hlen Hd.
  destruct (parseUint_loop_hexDigits body 0 Hd) as [v [Hv Hr]]; [lia | |].
  { rewrite Hlen. vm_compute. discriminate. }
  rewrite Hlen in Hr. change ((0 + 1) * 16 ^ Z.of_nat 14) with (2 ^ 56) in Hr.
  assert (Hne : String.eqb body EmptyString = false) by (destruct body; [discriminate | reflexivity]).
  unfold strconv_ParseInt. rewrite strconv_ParseUint_16_64.
  change (2 ^ (64 - 1)) with (2 ^ 63).
  assert (H63 : 2 ^ 56 < 2 ^ 63) by (vm_compute; reflexivity).
  destruct Hsign as [-> | ->]; cbn [Ascii.eqb Bool.eqb orb negb andb];
    rewrite Hne, Hv.
  - replace (v >=? 2 ^ 63) with false by (symmetry; rewrite Z.geb_leb; apply Z.leb_gt; lia).
    reflexivity.
  - replace (v >? 2 ^ 63) with false by (symmetry; rewrite Z.gtb_ltb; apply Z.ltb_ge; lia).
    reflexivity.
Qed.

(** C10: a 15-character token made of a sign ([+] or [-]) and 14
    hexadecimal digits is not a string of hexadecimal digits, yet
    [isValidHex] accepts it. *)
Theorem isValidHex_accepts_sign (body : string) :
  String.length body = 14%nat -> hexDigits body = true ->
  String.length (String "+" body) = 15%nat /\
  hexDigits (String "+" body) = false /\
  isValidHex (String "+" body) = true /\
  String.length (String "-" body) = 15%nat /\
  hexDigits (String "-" body) = false /\
  isValidHex (String "-" body) = true.
Proof.
  intros Hlen Hd.
  assert (Hv : forall sign, sign = "+"%char \/ sign = "-"%char ->
                 isValidHex (String sign body) = true).
  { intros sign Hs. unfold isValidHex.
    rewrite strings_Split_single.
    - cbn [isValidHex_loop]. unfold len. cbn [String.length]. rewrite Hlen.
      cbn [Z.of_nat Pos.of_succ_nat Pos.succ Z.eqb Pos.eqb negb].
      now rewrite (strconv_ParseInt_signed sign body Hs Hlen Hd).
    - cbn [contains]. rewrite (hexDigits_no_comma body Hd).
      destruct Hs as [-> | ->]; reflexivity. }
  cbn [String.length]. rewrite Hlen.
  repeat split; try reflexivity; apply Hv; auto.
Qed.

Lemma isValidHex_accepts_sign_witness :
  isValidHex "+2a1393ffffffff" = true /\ isValidHex "-2a1393ffffffff" = true.
Proof.
  pose proof (isValidHex_accepts_sign "2a1393ffffffff" eq_refl eq_refl) as H.
  split; [exact (proj1 (proj2 (proj2 H))) | exact (proj2 (proj2 (proj2 (proj2 (proj2 H)))))].
Defined.

(** ** Sample worlds

    Concrete upstreams and stores, on which the program is run below. *)

Definition samplePlace : OSMPAPIResponse.t :=
  OSMPAPIResponse.mk "Brooklyn, Kings County, New York, United States"
    (OSMPAPIResponse.mkAddress "Brooklyn" "New York" "New York" EmptyString "Kings County").

Definition sampleFlowerItem (id hex : string) : FlowerListItem.t :=
  {| FlowerListItem.BountyRewards := 0;
     FlowerListItem.DisplayName := "flower";
     FlowerListItem.UpdateTime := "2022-09-10T00:00:00Z";
     FlowerListItem.DailyBeesSeen := [];
     FlowerListItem.FirstSeen := None;
     FlowerListItem.HBeesSeen := [];
     FlowerListItem.WalletAddress := "wallet";
     FlowerListItem.CoveredHexes := [hex];
     FlowerListItem.LastSeen := None;
     FlowerListItem.DailyAttaches := 0;
     FlowerListItem.H3Hex := hex;
     FlowerListItem.Active := 1;
     FlowerListItem.FlowerRewards := 0%float;
     FlowerListItem.DailyCoveredHexes := [];
     FlowerListItem.NFTAddress := "nft";
     FlowerListItem.ID := id;
     FlowerListItem.Nickname := "nick";
     FlowerListItem.FlowerAttaches := 0;
     FlowerListItem.DailyHBeesSeen := [];
     FlowerListItem.DailyRewards := 0%float;
     FlowerListItem.ImageURL := EmptyString;
     FlowerListItem.BeesSeen := ∅ |}.

Definition sampleRewardItem (id : string) (coverage : GoAny) : DeviceRewardItem.t :=
  {| DeviceRewardItem.PCN := 1%float;
     DeviceRewardItem.PIC := 0%float;
     DeviceRewardItem.RSERatio := 0%float;
     DeviceRewardItem.Client := "client";
     DeviceRewardItem.Coverage := coverage;
     DeviceRewardItem.DailyPIC := 0%float;
     DeviceRewardItem.Date := "2022-09-10";
     DeviceRewardItem.Device := "flower-1";
     DeviceRewardItem.DeviceType := "flower";
     DeviceRewardItem.Reward := "daily";
     DeviceRewardItem.RewardID := id;
     DeviceRewardItem.Transaction := EmptyString;
     DeviceRewardItem.TransactionStatus := EmptyString;
     DeviceRewardItem.Wallet := "wallet" |}.

Definition connectionRefused : error := TransportError "connection refused".

(** Every upstream answers; the store never fails. *)
Definition envUp (flowers : list FlowerListItem.t) (rewards : DeviceRewards)
    (hexes : list HexListItem.t) : Env :=
  {| h3_CellToLatLng := fun cell => if cell =? 0 then (0%float, 0%float)
                                    else (40.5%float, (-74)%float);
     api_HexList := fun _ _ => inr hexes;
     api_HexItem := fun _ _ => inr zero;
     api_FlowerList := fun _ _ => inr flowers;
     api_DeviceRewards := fun _ _ => inr rewards;
     api_OSM := fun _ _ _ => inr samplePlace;
     json_Marshal := fun _ => ("{}", None);
     db_error := fun _ => None |}.

(** The Pollen API is down: every request fails in transport. *)
Definition envDown : Env :=
  {| h3_CellToLatLng := h3_CellToLatLng (envUp [] [] []);
     api_HexList := fun _ _ => inl connectionRefused;
     api_HexItem := fun _ _ => inl connectionRefused;
     api_FlowerList := fun _ _ => inl connectionRefused;
     api_DeviceRewards := fun _ _ => inl connectionRefused;
     api_OSM := fun _ _ _ => inr samplePlace;
     json_Marshal := fun _ => ("{}", None);
     db_error := fun _ => None |}.

(** A first run, on an empty store, the program starting at instant 1000. *)
Definition emptyStore : State := initState 1000 ∅ ∅ ∅.

(** ** The retrying fetcher *)

(** The number of requests sent to [url], and of sleeps, in a trace. *)
Definition attempts (url : string) (tr : list (Time * Event)) : nat :=
  length (List.filter (fun te => match snd te with
                                 | EvPollenGet u => String.eqb u url
                                 | _ => false
                                 end) tr).

Definition sleeps (tr : list (Time * Event)) : nat :=
  length (List.filter (fun te => match snd te with
                                 | EvSleep _ => true
                                 | _ => false
                                 end) tr).

(** The state after one failed iteration of the retry loop. *)
Definition failedAttempt (url : string) (st : State) : State :=
  mkState (osmCache st) (upsertClause st) (pollen_hexes st) (pollen_flowers st)
    (pollen_rewards st) (clock st + 2 + pollenRetryWaitTime)
    (trace st ++ [ (clock st, EvTake "pollen");
                   (clock st + 1, EvPollenGet url);
                   (clock st + 2, EvSleep pollenRetryWaitTime) ]).

Fixpoint failedAttempts (url : string) (n : nat) (st : State) : State :=
  match n with
  | O => st
  | S n' => failedAttempts url n' (failedAttempt url st)
  end.

Section Fetcher.

Context (E : Env) {T : Type} `{Shape T}.

(** When every request to [url] fails, the loop runs all its iterations,
    sleeps after each of them, and returns the named results as they were. *)
Lemma pollenAPICallWithRetries_loop_all_fail (url : string) (n : nat)
    (t_ret : T) (err_ret : option error) :
  (forall t, exists e, respond E url t = inl e) ->
  forall st,
    pollenAPICallWithRetries_loop E url n t_ret err_ret st
    = (Ok (t_ret, err_ret), failedAttempts url n st).
Proof.
  intros Hfail. induction n as [|n IH]; intros st; [reflexivity|].
  cbn [pollenAPICallWithRetries_loop failedAttempts].
  unfold bind at 1. unfold pollenAPICall.
  unfold bind, emit, modify, gets, record; cbn [clock trace].
  destruct (Hfail (clock st + duration (EvTake "pollen"))) as [e ->].
  unfold ret. cbn [duration]. rewrite IH. f_equal. f_equal.
  unfold failedAttempt; cbn. f_equal; [lia|].
  rewrite <- !app_assoc. cbn.
  now replace (clock st + 1 + 1) with (clock st + 2) by lia.
Qed.

End Fetcher.

(** What an exhausted retry loop adds to the trace, starting at instant [c]:
    three requests, each followed by a sleep of [pollenRetryWaitTime]. *)
Definition exhaustedTrace (url : string) (c : Time) : list (Time * Event) :=
  let W := pollenRetryWaitTime in
  [ (c, EvTake "pollen"); (c + 1, EvPollenGet url); (c + 2, EvSleep W);
    (c + 2 + W, EvTake "pollen"); (c + 3 + W, EvPollenGet url);
    (c + 4 + W, EvSleep W);
    (c + 4 + 2 * W, EvTake "pollen"); (c + 5 + 2 * W, EvPollenGet url);
    (c + 6 + 2 * W, EvSleep W) ].

Lemma failedAttempts_3 (url : string) (st : State) :
  trace (failedAttempts url 3 st) = trace st ++ exhaustedTrace url (clock st) /\
  clock (failedAttempts url 3 st) = clock st + 6 + 3 * pollenRetryWaitTime /\
  osmCache (failedAttempts url 3 st) = osmCache st.
Proof.
  cbn [failedAttempts failedAttempt trace clock osmCache].
  split; [|split; [lia | reflexivity]].
  rewrite <- !app_assoc. cbn [app]. unfold exhaustedTrace. f_equal.
  repeat (apply (f_equal2 cons); [apply (f_equal2 pair); [lia | reflexivity] |]).
  reflexivity.
Qed.

(** With every request failing, the fetcher returns the zero value and a
    nil error. *)
Lemma pollenAPICallWithRetries_all_fail (E : Env) {T} `{Shape T} (url : string) :
  (forall t, exists e, respond E url t = inl e) ->
  forall st,
    pollenAPICallWithRetries E url st
    = (Ok (zero, None), failedAttempts url pollenRetries st).
Proof.
  intros Hfail st. unfold pollenAPICallWithRetries.
  now apply pollenAPICallWithRetries_loop_all_fail.
Qed.

(** C1 (the code departs from it): the Pollen API refuses every request, yet
    after its three attempts [pollenAPICallWithRetries] returns the zero
    value with a nil error, and [syncFlowers] and [main] end without error. *)
Theorem retries_exhausted_error_lost :
  (forall t, api_FlowerList envDown pollenAPIFlowers t = inl connectionRefused) /\
  attempts pollenAPIFlowers
    (trace (snd (pollenAPICallWithRetries (T := list FlowerListItem.t)
                   envDown pollenAPIFlowers emptyStore))) = 3%nat /\
  fst (pollenAPICallWithRetries (T := list FlowerListItem.t)
         envDown pollenAPIFlowers emptyStore) = Ok ([], None) /\
  fst (syncFlowers envDown emptyStore) = Ok tt /\
  fst (main envDown [] emptyStore) = Ok tt.
Proof.
  split; [reflexivity|]. repeat split; vm_compute; reflexivity.
Qed.

(** C4 as stated fails: with every request failing there are three
    attempts and three sleeps, the last one after the last attempt. *)
Lemma retries_sleeps_counterexample :
  attempts pollenAPIFlowers
    (trace (snd (pollenAPICallWithRetries (T := list FlowerListItem.t)
                   envDown pollenAPIFlowers emptyStore))) = 3%nat /\
  sleeps
    (trace (snd (pollenAPICallWithRetries (T := list FlowerListItem.t)
                   envDown pollenAPIFlowers emptyStore))) = 3%nat /\
  sleeps
    (trace (snd (pollenAPICallWithRetries (T := list FlowerListItem.t)
                   envDown pollenAPIFlowers emptyStore)))
  <> (attempts pollenAPIFlowers
        (trace (snd (pollenAPICallWithRetries (T := list FlowerListItem.t)
                       envDown pollenAPIFlowers emptyStore))) - 1)%nat /\
  snd <$> last
    (trace (snd (pollenAPICallWithRetries (T := list FlowerListItem.t)
                   envDown pollenAPIFlowers emptyStore)))
  = Some (EvSleep pollenRetryWaitTime).
Proof.
  repeat split; try (vm_compute; reflexivity).
  vm_compute. discriminate.
Qed.

(** C4, amended: when every request to the URL fails,
    [pollenAPICallWithRetries] makes exactly three attempts and sleeps
    [pollenRetryWaitTime] after each of them, the last included: three
    sleeps, consecutive attempts being one sleep apart. *)
Theorem retries_sleep_after_each_attempt (E : Env) {T} `{Shape T}
    (url : string) (st : State) :
  (forall t, exists e, respond E url t = inl e) ->
  trace (snd (pollenAPICallWithRetries (T := T) E url st))
  = trace st ++ exhaustedTrace url (clock st) /\
  attempts url (exhaustedTrace url (clock st)) = 3%nat /\
  sleeps (exhaustedTrace url (clock st)) = 3%nat /\
  clock (snd (pollenAPICallWithRetries (T := T) E url st))
  = clock st + 6 + 3 * pollenRetryWaitTime.
Proof.
  intros Hfail. rewrite (pollenAPICallWithRetries_all_fail E url Hfail st).
  cbn [snd]. unfold pollenRetries.
  destruct (failedAttempts_3 url st) as [Htr [Hck _]].
  repeat split; try assumption.
  unfold attempts, exhaustedTrace. cbn [List.filter snd].
  rewrite String.eqb_refl. reflexivity.
Qed.

Lemma retries_sleep_after_each_attempt_witness :
  trace (snd (pollenAPICallWithRetries (T := list FlowerListItem.t)
                envDown pollenAPIFlowers emptyStore))
  = trace emptyStore ++ exhaustedTrace pollenAPIFlowers (clock emptyStore) /\
  attempts pollenAPIFlowers (exhaustedTrace pollenAPIFlowers (clock emptyStore)) = 3%nat /\
  sleeps (exhaustedTrace pollenAPIFlowers (clock emptyStore)) = 3%nat /\
  clock (snd (pollenAPICallWithRetries (T := list FlowerListItem.t)
                envDown pollenAPIFlowers emptyStore))
  = clock emptyStore + 6 + 3 * pollenRetryWaitTime.
Proof.
  apply (retries_sleep_after_each_attempt envDown pollenAPIFlowers emptyStore).
  intros t. exists connectionRefused. reflexivity.
Defined.

(** ** hexToLatLng and malformed cell IDs *)

(** C9 as stated fails: sixteen digits that overflow [int64] do not parse,
    and [hexToLatLng] converts the cell [2^63 - 1], not the cell 0. *)
Lemma hexToLatLng_range_counterexample :
  strconv_ParseInt "8000000000000000" 16 64 = (2 ^ 63 - 1, Some ErrRange) /\
  hexToLatLng (envUp [] [] []) "8000000000000000"
  = h3_CellToLatLng (envUp [] [] []) (2 ^ 63 - 1) /\
  hexToLatLng (envUp [] [] []) "8000000000000000"
  <> h3_CellToLatLng (envUp [] [] []) 0.
Proof.
  split; [vm_compute; reflexivity|].
  split; [vm_compute; reflexivity|].
  intros Heq.
  apply (f_equal (fun p : float64 * float64 => PrimFloat.eqb (fst p) 0)) in Heq.
  vm_compute in Heq. discriminate Heq.
Qed.

Lemma hexToLatLng_eq (E : Env) (hex : string) :
  hexToLatLng E hex = h3_CellToLatLng E (fst (strconv_ParseInt hex 16 64)).
Proof.
  unfold hexToLatLng. destruct (strconv_ParseInt hex 16 64) as [value err].
  cbn [fst]. now destruct (h3_CellToLatLng E value).
Qed.

(** [reverseGeocode] returns an error only on a cache miss, and then the
    error of the geocoding upstream. *)
Lemma reverseGeocode_error (E : Env) (hex : string) (st st' : State) (e : error) :
  reverseGeocode E hex st = (Err e, st') ->
  osmCache st !! hex = None /\
  api_OSM E (fst (hexToLatLng E hex)) (snd (hexToLatLng E hex)) (clock st + 1) = inl e.
Proof.
  unfold reverseGeocode, bind, gets. cbn [osmCache].
  destruct (osmCache st !! hex) as [g|]; [discriminate|].
  destruct (hexToLatLng E hex) as [lat lng].
  unfold emit, modify, record, bind, gets, set_osmCache, ret, throw; cbn.
  destruct (api_OSM E lat lng (clock st + 1)) as [err|place]; [|discriminate].
  intros [= -> _]. split; reflexivity.
Qed.

(** When the geocoding upstream answers, [reverseGeocode] succeeds. *)
Lemma reverseGeocode_answer (E : Env) (hex : string) (st : State)
    (place : OSMPAPIResponse.t) :
  api_OSM E (fst (hexToLatLng E hex)) (snd (hexToLatLng E hex)) (clock st + 1)
  = inr place ->
  exists g, fst (reverseGeocode E hex st) = Ok g.
Proof.
  unfold reverseGeocode, bind, gets. cbn [osmCache].
  destruct (osmCache st !! hex) as [g|]; [intros _; now exists g|].
  destruct (hexToLatLng E hex) as [lat lng].
  unfold emit, modify, record, bind, gets, set_osmCache, ret, throw; cbn.
  intros ->. eexists. reflexivity.
Qed.

(** *** The cell of a string, read off its bytes

    What [strconv.ParseInt(s, 16, 64)] returns as value, said on the bytes
    of [s]: one optional sign, then a body of which the leading hexadecimal
    digits are read. *)

(** The value of a hexadecimal digit. *)
Definition hexDigitValue (c : ascii) : Z :=
  let b := byteval c in
  if b <=? 57 then b - 48 else if b <=? 70 then b - 55 else b - 87.

(** The leading hexadecimal digits of a string. *)
Fixpoint hexPrefix (s : string) : string :=
  match s with
  | EmptyString => EmptyString
  | String c s' => if isHexDigit c then String c (hexPrefix s') else EmptyString
  end.

(** The number [n] followed by the digits [ds], in base 16. *)
Fixpoint hexValue (n : Z) (ds : string) : Z :=
  match ds with
  | EmptyString => n
  | String c ds' => hexValue (n * 16 + hexDigitValue c) ds'
  end.

(** The string starts with a minus sign. *)
Definition isNegative (s : string) : bool :=
  match s with
  | String c0 _ => Ascii.eqb c0 "-"
  | EmptyString => false
  end.

(** With [v] the value of the leading hexadecimal digits of the body: the
    bound of [int64] when [v] does not fit in 64 bits, whatever follows the
    digits; else 0 when the body is empty or holds a byte that is not a
    hexadecimal digit; else the bound when the signed value is out of the
    range of [int64]; else the signed value. *)
Definition cellOfString (s : string) : Z :=
  let body := stripSign s in
  let v := hexValue 0 (hexPrefix body) in
  if 2 ^ 64 <=? v then (if isNegative s then - 2 ^ 63 else 2 ^ 63 - 1)
  else if String.eqb body EmptyString || negb (hexDigits body) then 0
  else if isNegative s then (if 2 ^ 63 <? v then - 2 ^ 63 else - v)
  else (if 2 ^ 63 <=? v then 2 ^ 63 - 1 else v).

Lemma isHexDigit_value (c : ascii) :
  isHexDigit c = true ->
  digitval (byteval c) = Some (hexDigitValue c) /\ 0 <= hexDigitValue c < 16.
Proof.
  destruct c as [[] [] [] [] [] [] [] []]; vm_compute; intros H;
    try discriminate H; (split; [reflexivity | split; congruence]).
Qed.

Lemma hexDigits_hexPrefix (s : string) : hexDigits (hexPrefix s) = true.
Proof.
  induction s as [|c s IH]; cbn [hexPrefix]; [reflexivity|].
  destruct (isHexDigit c) eqn:Hc; [|reflexivity].
  cbn [hexDigits]. now rewrite Hc.
Qed.

Lemma hexValue_le (ds : string) :
  forall n, hexDigits ds = true -> 0 <= n -> n <= hexValue n ds.
Proof.
  induction ds as [|c ds IH]; intros n Hd Hn; cbn [hexValue]; [lia|].
  cbn [hexDigits] in Hd. apply andb_true_iff in Hd as [Hc Hds].
  destruct (isHexDigit_value c Hc) as [_ Hv].
  specialize (IH (n * 16 + hexDigitValue c) Hds). lia.
Qed.

Lemma parseUint_loop_16 (s : string) :
  forall n, 0 <= n < 2 ^ 64 ->
    parseUint_loop 16 (2 ^ 60) (2 ^ 64 - 1) n s
    = if 2 ^ 64 <=? hexValue n (hexPrefix s) then (2 ^ 64 - 1, Some ErrRange)
      else if hexDigits s then (hexValue n (hexPrefix s), None)
      else (0, Some ErrSyntax).
Proof.
  induction s as [|c s IH]; intros n Hn.
  - cbn [parseUint_loop hexPrefix hexValue hexDigits].
    replace (2 ^ 64 <=? n) with false by (symmetry; apply Z.leb_gt; lia).
    reflexivity.
  - cbn [parseUint_loop hexPrefix hexDigits].
    destruct (isHexDigit c) eqn:Hc.
    + destruct (isHexDigit_value c Hc) as [Hd Hv]. rewrite Hd.
      change (16 mod 256) with 16.
      replace (hexDigitValue c >=? 16) with false
        by (symmetry; rewrite Z.geb_leb; apply Z.leb_gt; lia).
      cbn [hexValue andb]. rewrite Z.geb_leb.
      assert (H64 : 2 ^ 64 = 2 ^ 60 * 16) by reflexivity.
      destruct (Z.leb_spec (2 ^ 60) n) as [Hge|Hlt].
      * pose proof (hexValue_le (hexPrefix s) (n * 16 + hexDigitValue c)
                      (hexDigits_hexPrefix s)) as Hle.
        replace (2 ^ 64 <=? hexValue (n * 16 + hexDigitValue c) (hexPrefix s))
          with true by (symmetry; apply Z.leb_le; lia).
        reflexivity.
      * unfold wrap64.
        rewrite (Z.mod_small (n * 16)) by lia.
        rewrite (Z.mod_small (n * 16 + hexDigitValue c)) by lia.
        replace (n * 16 + hexDigitValue c <? n * 16) with false
          by (symmetry; apply Z.ltb_ge; lia).
        replace (n * 16 + hexDigitValue c >? 2 ^ 64 - 1) with false
          by (symmetry; rewrite Z.gtb_ltb; apply Z.ltb_ge; lia).
        cbn [orb]. apply IH. lia.
    + pose proof (digitval_hexDigit c) as Hdv. rewrite Hc in Hdv.
      cbn [hexValue andb].
      replace (2 ^ 64 <=? n) with false by (symmetry; apply Z.leb_gt; lia).
      destruct (digitval (byteval c)) as [d|]; [|reflexivity].
      change (16 mod 256) with 16. rewrite Z.geb_leb.
      apply Z.ltb_ge in Hdv.
      replace (16 <=? d) with true by (symmetry; apply Z.leb_le; lia).
      reflexivity.
Qed.

(** [ParseInt(s, 16, 64)] returns the cell read off the bytes of [s]. *)
Lemma strconv_ParseInt_cellOfString (s : string) :
  fst (strconv_ParseInt s 16 64) = cellOfString s.
Proof.
  destruct s as [|c0 rest]; [reflexivity|].
  unfold strconv_ParseInt, cellOfString, stripSign, isNegative.
  rewrite strconv_ParseUint_16_64. change (2 ^ (64 - 1)) with (2 ^ 63).
  remember (Ascii.eqb c0 "-") as neg eqn:Hneg.
  remember (if Ascii.eqb c0 "+" || neg then rest else String c0 rest) as s1 eqn:Hs1.
  clear Hneg Hs1.
  destruct (String.eqb s1 EmptyString) eqn:He.
  - apply String.eqb_eq in He. subst s1. reflexivity.
  - rewrite (parseUint_loop_16 s1 0) by (split; [lia | reflexivity]).
    cbn [orb].
    destruct (Z.leb_spec (2 ^ 64) (hexValue 0 (hexPrefix s1))) as [Hov|Hfit].
    + destruct neg; reflexivity.
    + destruct (hexDigits s1); cbn [negb]; [|reflexivity].
      destruct neg; cbn [negb andb].
      * rewrite Z.gtb_ltb. now destruct (2 ^ 63 <? _).
      * rewrite Z.geb_leb. now destruct (2 ^ 63 <=? _).
Qed.

(** C9, amended: [hexToLatLng] is total; it drops the parse error and
    converts the value [strconv.ParseInt] returned with it, which is read
    off the bytes of the string as [cellOfString] says: with [v] the value
    of the leading hexadecimal digits that follow the optional sign, the
    bound [2^63 - 1] (or [-2^63] after a minus sign) when [v] does not fit
    in 64 bits, whatever follows the digits; else 0 when no byte follows
    the sign or some byte is not a hexadecimal digit; else the bound when
    the signed value is out of range; else the signed value.  So a string
    holding a byte that is not a hexadecimal digit gives cell 0 only when
    that byte is not a leading sign and is met before the digits overflow.
    [reverseGeocode] therefore never fails because of the cell ID: it fails
    only when the geocoding upstream does, and succeeds whenever the
    upstream answers. *)
Theorem hexToLatLng_total (E : Env) (hex : string) :
  hexToLatLng E hex = h3_CellToLatLng E (cellOfString hex) /\
  (fst (strconv_ParseInt EmptyString 16 64) = 0 /\
   fst (strconv_ParseInt "nothex" 16 64) = 0 /\
   fst (strconv_ParseInt "8000000000000000g" 16 64) = 0 /\
   fst (strconv_ParseInt "+5" 16 64) = 5 /\
   fst (strconv_ParseInt "8000000000000000" 16 64) = 2 ^ 63 - 1 /\
   fst (strconv_ParseInt "fffffffffffffffffg" 16 64) = 2 ^ 63 - 1 /\
   fst (strconv_ParseInt "-fffffffffffffffffg" 16 64) = - 2 ^ 63) /\
  (snd (strconv_ParseInt hex 16 64) <> None ->
   (snd (strconv_ParseInt hex 16 64) = Some ErrSyntax /\
    fst (strconv_ParseInt hex 16 64) = 0) \/
   (snd (strconv_ParseInt hex 16 64) = Some ErrRange /\
    (fst (strconv_ParseInt hex 16 64) = 2 ^ 63 - 1 \/
     fst (strconv_ParseInt hex 16 64) = - 2 ^ 63))) /\
  (forall st st' e,
     reverseGeocode E hex st = (Err e, st') ->
     osmCache st !! hex = None /\
     api_OSM E (fst (hexToLatLng E hex)) (snd (hexToLatLng E hex)) (clock st + 1)
     = inl e) /\
  (forall st place,
     api_OSM E (fst (hexToLatLng E hex)) (snd (hexToLatLng E hex)) (clock st + 1)
     = inr place ->
     exists g, fst (reverseGeocode E hex st) = Ok g).
Proof.
  split; [rewrite hexToLatLng_eq, strconv_ParseInt_cellOfString; reflexivity|].
  split.
  { split; [vm_compute; reflexivity|]. split; [vm_compute; reflexivity|].
    split; [vm_compute; reflexivity|]. split; [vm_compute; reflexivity|].
    split; [vm_compute; reflexivity|]. split; vm_compute; reflexivity. }
  split.
  { pose proof (strconv_ParseInt_16_64_result hex) as Hres.
    destruct (strconv_ParseInt hex 16 64) as [v err] eqn:Hp.
    specialize (Hres v err eq_refl). cbn [fst snd].
    intros Hne. destruct Hres as [Hn | [Hs | Hr]]; [contradiction | now left | now right]. }
  split.
  - intros st st' e. apply reverseGeocode_error.
  - intros st place. apply reverseGeocode_answer.
Qed.

(** An empty cell ID, the upstream answering: the lookup is made for cell 0
    and succeeds. *)
Lemma hexToLatLng_total_witness :
  hexToLatLng (envUp [] [] []) EmptyString = h3_CellToLatLng (envUp [] [] []) 0 /\
  exists g, fst (reverseGeocode (envUp [] [] []) EmptyString emptyStore) = Ok g.
Proof.
  destruct (hexToLatLng_total (envUp [] [] []) EmptyString) as [H0 [_ [_ [_ Hok]]]].
  split; [exact H0 | apply (Hok emptyStore samplePlace); reflexivity].
Defined.

(** ** Coverage of a reward item *)

(** The type switch keeps a [[]string] and replaces anything else by the
    empty list. *)
Lemma rewardOfItem_string_slice (r : DeviceRewardItem.t) (v : list string) :
  DeviceRewardItem.Coverage r = AnyStringSlice v ->
  Reward.Coverage (rewardOfItem r) = v.
Proof. unfold rewardOfItem; cbn. now intros ->. Qed.

(** No JSON value decodes to a [[]string]: the coverage of a decoded item is
    always stored empty. *)
Lemma rewardOfItem_decoded (r : DeviceRewardItem.t) (j : JSON) :
  DeviceRewardItem.Coverage r = json_decode_interface j ->
  Reward.Coverage (rewardOfItem r) = [].
Proof. unfold rewardOfItem; cbn. intros ->. now destruct j. Qed.

(** A reward whose [coverage] is a JSON array of two cell IDs. *)
Definition coverageJSON : JSON :=
  JArray [JString "8c2a1072b59a1ff"; JString "8c2a1072b59a3ff"].

Definition rewardWorld : Env :=
  envUp []
    [("2022-09-10", [sampleRewardItem "reward-1" (json_decode_interface coverageJSON)])]
    [].

Definition sampleGeocode : ReverseGeocode.t :=
  ReverseGeocode.mk 40.5%float (-74)%float
    "Brooklyn, Kings County, New York, United States"
    "Brooklyn" "New York" "New York" EmptyString "Kings County".

(** A store that already holds the flower [flower-1]. *)
Definition storeWithFlower : State :=
  initState 1000 ∅
    {[ "flower-1" := setUpdatedAt 900
         (flowerOfItem (sampleFlowerItem "flower-1" "8c2a1072b59a1ff")
                       sampleGeocode "{}") ]}
    ∅.

(** C3 (the code departs from it): a reward item whose [coverage] is a JSON
    list of two strings is decoded without error, but the field holds a
    [[]interface{}], the type switch of [syncRewards] does not match it, and
    the stored Coverage is empty instead of the list. *)
Theorem coverage_list_stored_empty :
  json_decode_interface coverageJSON
  = AnySlice [AnyString "8c2a1072b59a1ff"; AnyString "8c2a1072b59a3ff"] /\
  fst (syncRewards rewardWorld storeWithFlower) = Ok tt /\
  Reward.Coverage <$>
    (pollen_rewards (snd (syncRewards rewardWorld storeWithFlower)) !! "reward-1")
  = Some [] /\
  json_decode_interface (JString "[]") = AnyString "[]".
Proof.
  split; [reflexivity|].
  split; [vm_compute; reflexivity|].
  split; [vm_compute; reflexivity | reflexivity].
Qed.

(** ** The timestamp of an upsert *)

(** On a conflict the row takes the new columns and the instant held by the
    clause, whatever the instant of the upsert. *)
Lemma upsertRow_conflict {R} `{Model R} (t0 now : Time) (tbl : gmap string R)
    (r old : R) :
  (forall t t' x, setUpdatedAt t (setUpdatedAt t' x) = setUpdatedAt t x) ->
  tbl !! primaryKey r = Some old ->
  upsertRow (upsertClause_init t0) now tbl r
  = <[primaryKey r := setUpdatedAt t0 r]> tbl.
Proof.
  intros Hset Hold. unfold upsertRow. rewrite Hold.
  cbn. unfold applyAssignment. cbn. now rewrite Hset.
Qed.

(** The instants at which rows of [table] were upserted, in a trace. *)
Definition upsertTimes (table : string) (tr : list (Time * Event)) : list Time :=
  fst <$> List.filter (fun te => match snd te with
                                 | EvSQL (SqlUpsert tb _) => String.eqb tb table
                                 | _ => false
                                 end) tr.

(** The Pollen API lists one hex in the area. *)
Definition hexWorld : Env := envUp [] [] [HexListItem.mk "8c2a1072b59a1ff" 1 1].

(** C7 (the code departs from it): the program starts at instant 1000 and
    is given the same hex group twice.  The first pass inserts the hex at
    instant 1020 with that timestamp; the second pass upserts it at instant
    1027, and the stored timestamp becomes 1000, the instant at which
    [upsertClause] was initialised: not the instant of the upsert, and
    earlier than the timestamp it replaces.  The other columns are the same. *)
Theorem upsert_timestamp_is_program_start :
  clock emptyStore = 1000 /\
  fst (main hexWorld ["852a1393fffffff"; "852a1393fffffff"] emptyStore) = Ok tt /\
  Hex.UpdatedAt <$>
    (pollen_hexes (snd (main hexWorld ["852a1393fffffff"] emptyStore))
       !! "8c2a1072b59a1ff") = Some 1020 /\
  upsertTimes tableNameHex
    (trace (snd (main hexWorld ["852a1393fffffff"; "852a1393fffffff"] emptyStore)))
  = [1020; 1027] /\
  Hex.UpdatedAt <$>
    (pollen_hexes (snd (main hexWorld ["852a1393fffffff"; "852a1393fffffff"] emptyStore))
       !! "8c2a1072b59a1ff") = Some 1000 /\
  pollen_hexes (snd (main hexWorld ["852a1393fffffff"; "852a1393fffffff"] emptyStore))
    !! "8c2a1072b59a1ff"
  = setUpdatedAt 1000 <$>
      (pollen_hexes (snd (main hexWorld ["852a1393fffffff"] emptyStore))
         !! "8c2a1072b59a1ff").
Proof.
  split; [reflexivity|].
  split; [vm_compute; reflexivity|].
  split; [vm_compute; reflexivity|].
  split; [vm_compute; reflexivity|].
  split; [vm_compute; reflexivity|].
  vm_compute; reflexivity.
Qed.

(** ** Validation of the hex groups in [main] *)

(** The body of [main]'s loop over the arguments. *)
Definition hexGroupBody (E : Env) (hexGroup : string) : M unit :=
  if String.eqb hexGroup EmptyString || negb (isValidHex hexGroup)
  then throw invalidArgument
  else handleErr (syncHexes E hexGroup).

Lemma hexGroupBody_invalid (E : Env) (bad : string) (st : State) :
  bad = EmptyString \/ isValidHex bad = false ->
  hexGroupBody E bad st = (Err invalidArgument, st).
Proof.
  intros [-> | Hbad]; unfold hexGroupBody; [reflexivity|].
  rewrite Hbad. now rewrite orb_true_r.
Qed.

(** The loop stops at a malformed group: it has done the groups before it,
    and does nothing for that group nor for the ones after it. *)
Lemma hexGroups_stop_at_invalid (E : Env) (pre : list string) (bad : string)
    (post : list string) :
  bad = EmptyString \/ isValidHex bad = false ->
  forall i st,
    forRange (fun _ => hexGroupBody E) i (pre ++ bad :: post) st
    = match forRange (fun _ => hexGroupBody E) i pre st with
      | (Ok _, st') => (Err invalidArgument, st')
      | (Err e, st') => (Err e, st')
      end.
Proof.
  intros Hbad. induction pre as [|g pre IH]; intros i st.
  - cbn [app forRange]. unfold bind, ret.
    now rewrite (hexGroupBody_invalid E bad st Hbad).
  - cbn [app forRange]. unfold bind.
    destruct (hexGroupBody E g st) as [[[]|e] st1]; [apply IH | reflexivity].
Qed.

(** What follows a run that is cut short by the validation error. *)
Definition thenInvalid (r : Res unit * State) : Res unit * State :=
  match r with
  | (Ok _, st') => (Err invalidArgument, st')
  | (Err e, st') => (Err e, st')
  end.

Lemma bind_thenInvalid {A} (m : M A) (k k' : A -> M unit) (st : State) :
  (forall a st', k a st' = thenInvalid (k' a st')) ->
  bind m k st = thenInvalid (bind m k' st).
Proof.
  intros Hk. unfold bind. destruct (m st) as [[a|e] st']; [apply Hk | reflexivity].
Qed.

(** The world of a first run with one flower and one reward upstream. *)
Definition flowerWorld : Env :=
  envUp [sampleFlowerItem "flower-1" "8c2a1072b59a1ff"]
        [("2022-09-10", [sampleRewardItem "reward-1" (AnyString "[]")])]
        [HexListItem.mk "8c2a1072b59a1ff" 1 1].

(** The fetches from the Pollen API and the upserts of a trace. *)
Definition syncWork (tr : list (Time * Event)) : list (Time * Event) :=
  List.filter (fun te => match snd te with
                         | EvPollenGet _ | EvSQL (SqlUpsert _ _) => true
                         | _ => false
                         end) tr.

(** C2 as stated fails: with the single argument [nothex], the flowers and
    the rewards are fetched and upserted before the argument is looked at;
    and with a valid group before a malformed one, the hexes of the valid
    group are fetched and upserted as well. *)
Lemma invalid_group_counterexample :
  isValidHex "nothex" = false /\
  fst (main flowerWorld ["nothex"] emptyStore) = Err invalidArgument /\
  syncWork (trace (snd (main flowerWorld ["nothex"] emptyStore)))
  = [ (1008, EvPollenGet pollenAPIFlowers);
      (1012, EvSQL (SqlUpsert tableNameFlower ["flower-1"]));
      (1017, EvPollenGet (pollenAPIRewards +:+ "flower-1"));
      (1018, EvSQL (SqlUpsert tableNameReward ["reward-1"])) ] /\
  fst (main flowerWorld ["852a1393fffffff"; "nothex"] emptyStore)
  = Err invalidArgument /\
  upsertTimes tableNameHex
    (trace (snd (main flowerWorld ["852a1393fffffff"; "nothex"] emptyStore)))
  = [1025].
Proof.
  split; [vm_compute; reflexivity|].
  split; [vm_compute; reflexivity|].
  split; [vm_compute; reflexivity|].
  split; [vm_compute; reflexivity|].
  vm_compute; reflexivity.
Qed.

(** C2, amended: a run with a malformed hex group among its arguments does
    what the run given only the arguments before that group does (store
    set-up, cache warm-up, flower sync, reward sync, the syncs of those
    groups) and then, unless it has already aborted, panics with the
    validation error: no hex fetch or upsert is made for the malformed group
    or for any group after it. *)
Theorem invalid_group_aborts_on_arrival (E : Env) (pre : list string)
    (bad : string) (post : list string) (st : State) :
  bad = EmptyString \/ isValidHex bad = false ->
  main E (pre ++ bad :: post) st
  = match main E pre st with
    | (Ok _, st') => (Err invalidArgument, st')
    | (Err e, st') => (Err e, st')
    end.
Proof.
  intros Hbad. change (main E (pre ++ bad :: post) st = thenInvalid (main E pre st)).
  unfold main. repeat (apply bind_thenInvalid; intros _ ?).
  apply (hexGroups_stop_at_invalid E pre bad post Hbad).
Qed.

Lemma invalid_group_aborts_on_arrival_witness :
  main flowerWorld (["852a1393fffffff"] ++ "nothex" :: ["852a104bfffffff"]) emptyStore
  = match main flowerWorld ["852a1393fffffff"] emptyStore with
    | (Ok _, st') => (Err invalidArgument, st')
    | (Err e, st') => (Err e, st')
    end.
Proof.
  apply (invalid_group_aborts_on_arrival flowerWorld ["852a1393fffffff"] "nothex"
           ["852a104bfffffff"] emptyStore).
  right. vm_compute. reflexivity.
Defined.

(** ** Invariants of a run

    [holds m]: started in a state satisfying [Inv], the computation [m] ends
    in a state satisfying [Inv] when it returns normally, and [Fin] when it
    returns an error (after which nothing more of the run is executed, but
    for the message [handleErr] prints). *)

Definition isPrintf (ev : Event) : bool :=
  match ev with EvPrintf _ _ => true | _ => false end.

Definition isOsmGet (ev : Event) : bool :=
  match ev with EvOsmGet _ _ _ => true | _ => false end.

(** The state with other tables. *)
Definition withTables (h : gmap string Hex.t) (f : gmap string Flower.t)
    (r : gmap string Reward.t) (st : State) : State :=
  mkState (osmCache st) (upsertClause st) h f r (clock st) (trace st).

(** The state with one more entry in the cache. *)
Definition cached (hex : string) (g : ReverseGeocode.t) (st : State) : State :=
  set_osmCache (<[hex := g]> (osmCache st)) st.

Section Invariant.

Context (E : Env).
Variables (Inv Fin : State -> Prop).

Definition holds {A} (m : M A) : Prop :=
  forall st, Inv st ->
    match m st with
    | (Ok _, st') => Inv st'
    | (Err _, st') => Fin st'
    end.

Hypothesis Inv_Fin : forall st, Inv st -> Fin st.

Lemma holds_ret {A} (a : A) : holds (ret a).
Proof. intros st H. exact H. Qed.

Lemma holds_throw {A} (e : error) : holds (@throw A e).
Proof. intros st H. now apply Inv_Fin. Qed.

Lemma holds_gets {A} (f : State -> A) : holds (gets f).
Proof. intros st H. exact H. Qed.

Lemma holds_modify (f : State -> State) :
  (forall st, Inv st -> Inv (f st)) -> holds (modify f).
Proof. intros Hf st H. now apply Hf. Qed.

Lemma holds_bind {A B} (m : M A) (k : A -> M B) :
  holds m -> (forall a, holds (k a)) -> holds (bind m k).
Proof.
  intros Hm Hk st H. unfold bind. specialize (Hm st H).
  destruct (m st) as [[a|e] st']; [now apply Hk | exact Hm].
Qed.

Lemma holds_check (err : option error) : holds (check err).
Proof. destruct err; [apply holds_throw | apply holds_ret]. Qed.

Lemma holds_forRange {A} (body : Z -> A -> M unit) (xs : list A) :
  (forall i x, holds (body i x)) -> forall i, holds (forRange body i xs).
Proof.
  intros Hb. induction xs as [|x xs IH]; intros i; cbn [forRange].
  - apply holds_ret.
  - apply holds_bind; [apply Hb | intros _; apply IH].
Qed.

Lemma holds_forRangeFill {A B} (body : Z -> A -> M B) (xs : list A) :
  (forall i x, holds (body i x)) -> forall i, holds (forRangeFill body i xs).
Proof.
  intros Hb. induction xs as [|x xs IH]; intros i; cbn [forRangeFill].
  - apply holds_ret.
  - apply holds_bind; [apply Hb | intros y].
    apply holds_bind; [apply IH | intros ys; apply holds_ret].
Qed.

(** Steps of a proof that a computation keeps the invariant. *)
Ltac holds_bind tac := apply holds_bind; [tac|].
Ltac holds_done :=
  first [ apply holds_ret | apply holds_throw | apply holds_gets | apply holds_check ].

(** *** Effects that are neither a print nor a geocoding request, and the store *)

Hypothesis Inv_quiet : forall ev st,
  isPrintf ev = false -> isOsmGet ev = false -> Inv st -> Inv (record ev st).
Hypothesis Inv_tables : forall h f r st, Inv st -> Inv (withTables h f r st).
Hypothesis Fin_tables : forall h f r st, Fin st -> Fin (withTables h f r st).

Lemma holds_emit_quiet (ev : Event) :
  isPrintf ev = false -> isOsmGet ev = false -> holds (emit ev).
Proof. intros Hp Ho. apply holds_modify. intros st. now apply Inv_quiet. Qed.

Lemma holds_dbStatement (s : Stmt) : holds (dbStatement E s).
Proof.
  unfold dbStatement. holds_bind holds_done. intros now.
  holds_bind ltac:(now apply holds_emit_quiet). intros _.
  destruct (db_error E now); holds_done.
Qed.

(** The three tables of the model are tables of the state. *)
Definition tableOfState (R : Type) `{Model R} : Prop :=
  forall (tbl : gmap string R) (st : State),
    exists h f r, set_table tbl st = withTables h f r st.

Lemma tableOfState_Hex : tableOfState Hex.t.
Proof. intros tbl st. now exists tbl, (pollen_flowers st), (pollen_rewards st). Qed.

Lemma tableOfState_Flower : tableOfState Flower.t.
Proof. intros tbl st. now exists (pollen_hexes st), tbl, (pollen_rewards st). Qed.

Lemma tableOfState_Reward : tableOfState Reward.t.
Proof. intros tbl st. now exists (pollen_hexes st), (pollen_flowers st), tbl. Qed.

Lemma holds_set_table {R} `{Model R} (f : State -> gmap string R) :
  tableOfState R -> holds (modify (fun st => set_table (f st) st)).
Proof.
  intros HT. apply holds_modify. intros st HI.
  destruct (HT (f st) st) as [h [fl [r ->]]]. now apply Inv_tables.
Qed.

Lemma holds_Create {R} `{Model R} (oc : OnConflict) (r : R) :
  tableOfState R -> holds (Create E oc r).
Proof.
  intros HT. unfold Create. holds_bind holds_done. intros now.
  holds_bind ltac:(apply holds_dbStatement). intros _.
  now apply (holds_set_table (fun st => upsertRow oc now (table st) r)).
Qed.

Lemma holds_transaction {R} `{Model R} (m : M unit) :
  tableOfState R -> holds m -> holds (transaction (R := R) m).
Proof.
  intros HT Hm st HI. unfold transaction. specialize (Hm st HI).
  destruct (m st) as [[[]|e] st']; [exact Hm|].
  destruct (HT (table st) st') as [h [fl [r ->]]]. now apply Fin_tables.
Qed.

Lemma holds_CreateInBatches {R} `{Model R} (oc : OnConflict) (rows : list R)
    (batchSize : nat) :
  tableOfState R -> holds (CreateInBatches E oc rows batchSize).
Proof.
  intros HT. unfold CreateInBatches.
  assert (Hrun : holds
    (forRange (fun _ batch =>
       let* now := gets clock in
       let* _ := dbStatement E (SqlUpsert TableName (primaryKey <$> batch)) in
       modify (fun st => set_table (foldl (upsertRow oc now) (table st) batch) st))
       0 (batches (length rows) batchSize rows))).
  { apply holds_forRange. intros i batch.
    holds_bind holds_done. intros now.
    holds_bind ltac:(apply holds_dbStatement). intros _.
    now apply (holds_set_table (fun st => foldl (upsertRow oc now) (table st) batch)). }
  destruct (length rows <=? batchSize)%nat; [exact Hrun|].
  now apply holds_transaction.
Qed.

(** *** The Pollen API *)

Lemma holds_pollenAPICall {T} `{Shape T} (url : string) :
  holds (pollenAPICall E (T := T) url).
Proof.
  unfold pollenAPICall.
  holds_bind ltac:(now apply holds_emit_quiet). intros _.
  holds_bind holds_done. intros now.
  holds_bind ltac:(now apply holds_emit_quiet). intros _.
  destruct (respond E url now); holds_done.
Qed.

Lemma holds_pollenAPICallWithRetries {T} `{Shape T} (url : string) :
  holds (pollenAPICallWithRetries E (T := T) url).
Proof.
  unfold pollenAPICallWithRetries. generalize pollenRetries as n.
  induction n as [|n IH]; cbn [pollenAPICallWithRetries_loop].
  - apply holds_ret.
  - holds_bind ltac:(apply holds_pollenAPICall). intros [t [e|]]; [|apply holds_ret].
    holds_bind ltac:(now apply holds_emit_quiet). intros _. exact IH.
Qed.

Lemma holds_getRewards (deviceName : string) : holds (getRewards E deviceName).
Proof.
  unfold getRewards. holds_bind ltac:(apply holds_pollenAPICallWithRetries).
  intros [rewardsByDate err]. apply holds_ret.
Qed.

(** *** The geocoding request of a cache miss *)

Hypothesis Fin_geocode : forall st hex lat lng,
  Inv st -> osmCache st !! hex = None ->
  Fin (record (EvOsmGet hex lat lng) (record (EvTake "osm") st)).
Hypothesis Inv_geocode : forall st hex lat lng g,
  Inv st -> osmCache st !! hex = None ->
  Inv (cached hex g (record (EvOsmGet hex lat lng) (record (EvTake "osm") st))).

Lemma holds_reverseGeocode (hex : string) : holds (reverseGeocode E hex).
Proof.
  intros st HI. unfold reverseGeocode, bind, gets.
  destruct (osmCache st !! hex) as [g|] eqn:Hc; [exact HI|].
  destruct (hexToLatLng E hex) as [lat lng].
  unfold emit, modify, ret, throw. cbn [fst snd].
  destruct (api_OSM E lat lng _) as [err|place].
  - now apply Fin_geocode.
  - now apply Inv_geocode.
Qed.

(** The loop of [syncFlowers], and its batch upsert: they print nothing. *)
Lemma holds_syncFlowers_loop (flowerItems : list FlowerListItem.t) :
  holds (forRangeFill (fun (i : Z) f =>
      let '(beesSeen, err) := json_Marshal E (FlowerListItem.BeesSeen f) in
      let* _ := check err in
      let* geo := reverseGeocode E (FlowerListItem.H3Hex f) in
      ret (flowerOfItem f geo beesSeen))
      0 flowerItems).
Proof.
  apply holds_forRangeFill. intros i f.
  destruct (json_Marshal E (FlowerListItem.BeesSeen f)) as [beesSeen err].
  holds_bind holds_done. intros _.
  holds_bind ltac:(apply holds_reverseGeocode). intros geo. apply holds_ret.
Qed.

(** *** Prints *)

Hypothesis Inv_print : forall ev st, isPrintf ev = true -> Inv st -> Inv (record ev st).
Hypothesis Fin_print : forall ev st, isPrintf ev = true -> Fin st -> Fin (record ev st).

Lemma holds_emit_print (ev : Event) : isPrintf ev = true -> holds (emit ev).
Proof. intros Hp. apply holds_modify. intros st. now apply Inv_print. Qed.

Lemma holds_syncFlowers : holds (syncFlowers E).
Proof.
  unfold syncFlowers, getAllFlowers.
  holds_bind ltac:(apply holds_pollenAPICallWithRetries). intros [flowerItems err].
  holds_bind holds_done. intros _.
  holds_bind ltac:(now apply holds_emit_print). intros _.
  holds_bind ltac:(apply holds_syncFlowers_loop). intros flowers.
  holds_bind holds_done. intros oc.
  apply holds_CreateInBatches, tableOfState_Flower.
Qed.

Lemma holds_syncRewards : holds (syncRewards E).
Proof.
  unfold syncRewards.
  holds_bind ltac:(apply holds_dbStatement). intros _.
  holds_bind holds_done. intros flowerNames.
  holds_bind ltac:(now apply holds_emit_print). intros _.
  apply holds_forRange. intros i flowerName.
  apply holds_bind.
  { destruct (i mod 100 =? 0); [now apply holds_emit_print | apply holds_ret]. }
  intros _.
  holds_bind ltac:(apply holds_getRewards). intros [rewardItems err].
  holds_bind holds_done. intros _.
  holds_bind holds_done. intros oc.
  apply holds_CreateInBatches, tableOfState_Reward.
Qed.

Lemma holds_syncHexes (hexLocations : string) : holds (syncHexes E hexLocations).
Proof.
  unfold syncHexes, getAllHexes.
  holds_bind ltac:(apply holds_pollenAPICallWithRetries). intros [hexes err].
  holds_bind holds_done. intros _.
  holds_bind ltac:(now apply holds_emit_print). intros _.
  apply holds_forRange. intros i hex.
  apply holds_bind.
  { destruct (i mod 100 =? 0); [now apply holds_emit_print | apply holds_ret]. }
  intros _.
  holds_bind ltac:(apply holds_pollenAPICallWithRetries). intros [details err'].
  holds_bind holds_done. intros _.
  holds_bind ltac:(apply holds_reverseGeocode). intros geo.
  holds_bind holds_done. intros oc.
  apply holds_Create, tableOfState_Hex.
Qed.

Lemma holds_handleErr (m : M unit) : holds m -> holds (handleErr m).
Proof.
  intros Hm st HI. unfold handleErr. specialize (Hm st HI).
  destruct (m st) as [[[]|e] st']; [exact Hm|].
  unfold bind, emit, modify, throw. now apply Fin_print.
Qed.

(** *** The warm-up of the cache *)

Hypothesis Inv_cached : forall hex g st, Inv st -> Inv (cached hex g st).

Lemma holds_initGeocodeCache : holds (initGeocodeCache E).
Proof.
  unfold initGeocodeCache. apply holds_forRange. intros i [[name column] rows].
  holds_bind ltac:(apply holds_dbStatement). intros _.
  holds_bind holds_done. intros records.
  apply holds_forRange. intros j rec.
  apply holds_modify. intros st. apply Inv_cached.
Qed.

Lemma holds_main (args : list string) : holds (main E args).
Proof.
  unfold main.
  holds_bind ltac:(apply holds_handleErr, holds_dbStatement). intros _.
  apply holds_bind.
  { apply holds_forRange. intros i model. apply holds_handleErr, holds_dbStatement. }
  intros _. apply holds_bind.
  { apply holds_forRange. intros i idx. apply holds_handleErr, holds_dbStatement. }
  intros _.
  holds_bind ltac:(apply holds_handleErr, holds_initGeocodeCache). intros _.
  holds_bind ltac:(apply holds_handleErr, holds_syncFlowers). intros _.
  holds_bind ltac:(apply holds_handleErr, holds_syncRewards). intros _.
  apply holds_forRange. intros i hexGroup.
  destruct (_ || _); [apply holds_throw|].
  apply holds_handleErr, holds_syncHexes.
Qed.

End Invariant.

(** ** What [syncFlowers] prints *)

(** The prints of a run so far, in order. *)
Definition printed (st : State) : list Event :=
  List.filter isPrintf (snd <$> trace st).

Lemma printed_record (ev : Event) (st : State) :
  printed (record ev st) = printed st ++ (if isPrintf ev then [ev] else []).
Proof.
  unfold printed, record; cbn [trace]. rewrite fmap_app, List.filter_app.
  cbn. now destruct (isPrintf ev).
Qed.

Section Prints.

Context (E : Env) (p : list Event).

Definition printedIs (st : State) : Prop := printed st = p.

Lemma printedIs_quiet (ev : Event) (st : State) :
  isPrintf ev = false -> isOsmGet ev = false -> printedIs st -> printedIs (record ev st).
Proof.
  unfold printedIs. intros Hp _ <-. rewrite printed_record, Hp. apply app_nil_r.
Qed.

Lemma printedIs_tables h f r (st : State) :
  printedIs st -> printedIs (withTables h f r st).
Proof. exact (fun H => H). Qed.

Lemma printedIs_geocode_miss (st : State) (hex : string) (lat lng : float64) :
  printedIs st -> osmCache st !! hex = None ->
  printedIs (record (EvOsmGet hex lat lng) (record (EvTake "osm") st)).
Proof.
  unfold printedIs. intros <- _. rewrite !printed_record. cbn. now rewrite !app_nil_r.
Qed.

Lemma printedIs_geocode (st : State) (hex : string) (lat lng : float64)
    (g : ReverseGeocode.t) :
  printedIs st -> osmCache st !! hex = None ->
  printedIs (cached hex g (record (EvOsmGet hex lat lng) (record (EvTake "osm") st))).
Proof. intros H Hc. exact (printedIs_geocode_miss st hex lat lng H Hc). Qed.

(** The fetcher prints nothing. *)
Lemma pollenAPICallWithRetries_silent {T} `{Shape T} (url : string) :
  holds printedIs printedIs (pollenAPICallWithRetries E (T := T) url).
Proof.
  apply holds_pollenAPICallWithRetries; auto using printedIs_quiet.
Qed.

(** The per-flower loop of [syncFlowers] and the batch upsert print nothing. *)
Lemma syncFlowers_loop_silent (flowerItems : list FlowerListItem.t) :
  holds printedIs printedIs
    (let* flowers :=
       forRangeFill (fun (i : Z) f =>
         let '(beesSeen, err) := json_Marshal E (FlowerListItem.BeesSeen f) in
         let* _ := check err in
         let* geo := reverseGeocode E (FlowerListItem.H3Hex f) in
         ret (flowerOfItem f geo beesSeen))
         0 flowerItems in
     let* oc := gets upsertClause in
     CreateInBatches E oc flowers 200).
Proof.
  apply holds_bind.
  - apply holds_syncFlowers_loop;
      auto using printedIs_geocode_miss, printedIs_geocode.
  - intros flowers. apply holds_bind; [apply holds_gets | intros oc].
    apply holds_CreateInBatches;
      auto using printedIs_quiet, printedIs_tables, tableOfState_Flower.
Qed.

End Prints.

(** The line [syncFlowers] prints for a list of [n] flowers. *)
Definition foundFlowers (n : nat) : Event :=
  EvPrintf "Found %v flowers\n" [ArgInt (Z.of_nat n)].

(** After the fetch, [syncFlowers] prints the count once and nothing else,
    whether it then succeeds or not. *)
Lemma syncFlowers_after_fetch (E : Env) (flowerItems : list FlowerListItem.t)
    (st st1 : State) :
  pollenAPICallWithRetries E pollenAPIFlowers st = (Ok (flowerItems, None), st1) ->
  printed st1 = printed st ->
  printed (snd (syncFlowers E st))
  = printed st ++ [foundFlowers (length flowerItems)].
Proof.
  intros Hfetch Hp. unfold syncFlowers, getAllFlowers.
  unfold bind at 1. rewrite Hfetch.
  unfold bind at 1. cbn [check]. unfold ret at 1.
  unfold bind at 1. unfold emit at 1, modify at 1.
  set (st2 := record _ st1).
  assert (H2 : printedIs (printed st ++ [foundFlowers (length flowerItems)]) st2).
  { unfold printedIs, st2. rewrite printed_record, Hp. reflexivity. }
  pose proof (syncFlowers_loop_silent E _ flowerItems st2 H2) as Hrest.
  match goal with
  | |- printed (snd (?m st2)) = _ => destruct (m st2) as [[[]|e] st3]
  end; exact Hrest.
Qed.

(** The first request answered: the fetcher returns the answer at once. *)
Lemma pollenAPICallWithRetries_first (E : Env) {T} `{Shape T} (url : string)
    (t : T) (st : State) :
  respond E url (clock st + 1) = inr t ->
  pollenAPICallWithRetries E url st
  = (Ok (t, None), record (EvPollenGet url) (record (EvTake "pollen") st)).
Proof.
  intros Hr. unfold pollenAPICallWithRetries, pollenRetries.
  cbn [pollenAPICallWithRetries_loop]. unfold pollenAPICall.
  unfold bind, emit, modify, gets, ret. cbn [fst snd clock record duration].
  now rewrite Hr.
Qed.

(** Two flowers upstream. *)
Definition twoFlowers : Env :=
  envUp [ sampleFlowerItem "flower-1" "8c2a1072b59a1ff";
          sampleFlowerItem "flower-2" "8c2a1072b59a3ff" ] [] [].

(** C8 as stated fails: [syncFlowers] processes two flowers and upserts
    them, and prints one line, the total count. *)
Lemma syncFlowers_progress_counterexample :
  fst (syncFlowers twoFlowers emptyStore) = Ok tt /\
  syncWork (trace (snd (syncFlowers twoFlowers emptyStore)))
  = [ (1001, EvPollenGet pollenAPIFlowers);
      (1007, EvSQL (SqlUpsert tableNameFlower ["flower-1"; "flower-2"])) ] /\
  printed (snd (syncFlowers twoFlowers emptyStore)) = [foundFlowers 2] /\
  length (printed (snd (syncFlowers twoFlowers emptyStore))) <> (1 + 2)%nat.
Proof.
  split; [vm_compute; reflexivity|].
  split; [vm_compute; reflexivity|].
  split; [vm_compute; reflexivity|].
  vm_compute. discriminate.
Qed.

(** C8, amended: [syncFlowers] prints one line at most, the total count
    [Found n flowers], before its per-flower loop; the loop and the batch
    upsert print nothing.  When the flower list is fetched, that line is
    printed exactly once, whatever the number of flowers. *)
Theorem syncFlowers_prints_total_only (E : Env) (st : State) :
  (printed (snd (syncFlowers E st)) = printed st \/
   exists n, printed (snd (syncFlowers E st)) = printed st ++ [foundFlowers n]) /\
  (forall flowerItems,
     api_FlowerList E pollenAPIFlowers (clock st + 1) = inr flowerItems ->
     printed (snd (syncFlowers E st))
     = printed st ++ [foundFlowers (length flowerItems)]).
Proof.
  split.
  - pose proof (pollenAPICallWithRetries_silent E (printed st)
                  (T := list FlowerListItem.t) pollenAPIFlowers st eq_refl) as Hf.
    destruct (pollenAPICallWithRetries E (T := list FlowerListItem.t)
                pollenAPIFlowers st) as [[[flowerItems [e|]]|e] st1] eqn:Hfetch.
    + left. unfold syncFlowers, getAllFlowers, bind. now rewrite Hfetch.
    + right. exists (length flowerItems).
      now apply (syncFlowers_after_fetch E flowerItems st st1).
    + left. unfold syncFlowers, getAllFlowers, bind. now rewrite Hfetch.
  - intros flowerItems Hr.
    change (respond E pollenAPIFlowers (clock st + 1) = inr flowerItems) in Hr.
    apply (syncFlowers_after_fetch E flowerItems st _
             (pollenAPICallWithRetries_first E (T := list FlowerListItem.t)
                pollenAPIFlowers flowerItems st Hr)).
    rewrite !printed_record. cbn. now rewrite !app_nil_r.
Qed.

Lemma syncFlowers_prints_total_only_witness :
  printed (snd (syncFlowers twoFlowers emptyStore))
  = printed emptyStore ++ [foundFlowers 2].
Proof.
  apply (proj2 (syncFlowers_prints_total_only twoFlowers emptyStore)
           [ sampleFlowerItem "flower-1" "8c2a1072b59a1ff";
             sampleFlowerItem "flower-2" "8c2a1072b59a3ff" ]).
  reflexivity.
Defined.

(** ** The geocode cache *)

(** The number of reverse-geocoding requests made for a cell in a trace. *)
Definition lookups (hex : string) (tr : list (Time * Event)) : nat :=
  length (List.filter (fun te => match snd te with
                                 | EvOsmGet h _ _ => String.eqb h hex
                                 | _ => false
                                 end) tr).

Definition lookupOf (hex : string) (ev : Event) : nat :=
  match ev with
  | EvOsmGet h _ _ => if String.eqb h hex then 1 else 0
  | _ => 0
  end.

Lemma lookups_record (hex : string) (ev : Event) (st : State) :
  lookups hex (trace (record ev st))
  = (lookups hex (trace st) + lookupOf hex ev)%nat.
Proof.
  unfold lookups, record; cbn [trace]. rewrite List.filter_app, length_app.
  f_equal. destruct ev; cbn; try reflexivity. now destruct (String.eqb hex0 hex).
Qed.

(** A hit: the cached value is returned and the state is untouched, so no
    request is made. *)
Lemma reverseGeocode_hit (E : Env) (hex : string) (g : ReverseGeocode.t)
    (st : State) :
  osmCache st !! hex = Some g -> reverseGeocode E hex st = (Ok g, st).
Proof. intros Hc. unfold reverseGeocode, bind, gets. now rewrite Hc. Qed.

(** A successful call leaves the value it returns in the cache. *)
Lemma reverseGeocode_fills (E : Env) (hex : string) (g : ReverseGeocode.t)
    (st st' : State) :
  reverseGeocode E hex st = (Ok g, st') -> osmCache st' !! hex = Some g.
Proof.
  unfold reverseGeocode, bind, gets.
  destruct (osmCache st !! hex) as [g0|] eqn:Hc.
  - unfold ret. now intros [= <- <-].
  - destruct (hexToLatLng E hex) as [lat lng].
    unfold emit, modify, ret, throw. cbn [fst snd].
    destruct (api_OSM E lat lng _) as [err|place]; [discriminate|].
    intros [= <- <-]. cbn. apply lookup_insert_eq.
Qed.

(** *** The warm-up *)

Definition warm (c : gmap string ReverseGeocode.t)
    (records : list (string * ReverseGeocode.t)) : gmap string ReverseGeocode.t :=
  foldl (fun c record => <[fst record := snd record]> c) c records.

Lemma warm_loop (records : list (string * ReverseGeocode.t)) :
  forall i st,
    forRange (fun (_ : Z) (record : string * ReverseGeocode.t) =>
      modify (fun st => set_osmCache (<[fst record := snd record]> (osmCache st)) st))
      i records st
    = (Ok tt, set_osmCache (warm (osmCache st) records) st).
Proof.
  induction records as [|rec records IH]; intros i st.
  - now destruct st.
  - cbn [forRange]. unfold bind, modify at 1. rewrite IH. reflexivity.
Qed.

(** A successful warm-up loads the rows of the Hex table, then those of the
    Flower table. *)
Lemma initGeocodeCache_warm (E : Env) (st st' : State) :
  initGeocodeCache E st = (Ok tt, st') ->
  osmCache st' = warm (osmCache st) (geocodesOfHexes st ++ geocodesOfFlowers st).
Proof.
  unfold initGeocodeCache. cbn [forRange].
  unfold bind, dbStatement, bind, gets, emit, modify, throw, ret.
  destruct (db_error E (clock st)); [discriminate|].
  rewrite warm_loop.
  destruct (db_error E _); [discriminate|].
  rewrite warm_loop. intros [= <-]. unfold warm. rewrite foldl_app. reflexivity.
Qed.

(** Every warmed cell is in the cache, with the place of one of its rows. *)
Lemma warm_lookup (records : list (string * ReverseGeocode.t))
    (c : gmap string ReverseGeocode.t) (hex : string) (g : ReverseGeocode.t) :
  (hex, g) ∈ records ->
  exists g', warm c records !! hex = Some g' /\ (hex, g') ∈ records.
Proof.
  induction records as [|[k v] records IH] using rev_ind; intros Hin.
  - inversion Hin.
  - unfold warm. rewrite foldl_app. cbn [foldl fst snd].
    destruct (decide (k = hex)) as [->|Hne].
    + exists v. rewrite lookup_insert_eq. split; [reflexivity|].
      apply elem_of_app. right. now apply list_elem_of_singleton.
    + rewrite lookup_insert_ne by assumption.
      apply elem_of_app in Hin as [Hin|Hin].
      * destruct (IH Hin) as [g' [Hl Hg']]. exists g'. split; [exact Hl|].
        apply elem_of_app. now left.
      * apply list_elem_of_singleton in Hin. congruence.
Qed.

(** A cell without a row keeps what the cache held. *)
Lemma warm_other (records : list (string * ReverseGeocode.t))
    (c : gmap string ReverseGeocode.t) (hex : string) :
  hex ∉ fst <$> records -> warm c records !! hex = c !! hex.
Proof.
  revert c. induction records as [|[k v] records IH]; intros c Hnot; [reflexivity|].
  cbn [fmap list_fmap fst] in Hnot. apply not_elem_of_cons in Hnot as [Hne Hnot].
  unfold warm. cbn [foldl fst snd]. fold (warm (<[k:=v]> c) records).
  rewrite IH by assumption. now rewrite lookup_insert_ne.
Qed.

(** The last row of a cell wins: the warm-up assigns the entry of every row
    it loads, whatever the cache holds for the cell. *)
Lemma warm_last (c : gmap string ReverseGeocode.t)
    (pre post : list (string * ReverseGeocode.t)) (hex : string)
    (g : ReverseGeocode.t) :
  hex ∉ fst <$> post -> warm c (pre ++ (hex, g) :: post) !! hex = Some g.
Proof.
  intros Hpost. unfold warm. rewrite foldl_app. cbn [foldl fst snd].
  fold (warm (<[hex := g]> (warm c pre)) post).
  rewrite (warm_other post _ hex Hpost). apply lookup_insert_eq.
Qed.

(** The loop of [initGeocodeCache] over the two tables, and its body. *)
Definition initGeocodeCache_tables
  : list (string * string * (State -> list (string * ReverseGeocode.t))) :=
  [ (tableNameHex, "id", geocodesOfHexes);
    (tableNameFlower, "h3_hex", geocodesOfFlowers) ].

Definition initGeocodeCache_table (E : Env) (_ : Z)
    (table : string * string * (State -> list (string * ReverseGeocode.t)))
  : M unit :=
  let '(name, column, rows) := table in
  let* _ := dbStatement E (SqlSelect name
    (column +:+ " AS Hex, lat AS Lat, lng AS Lng, address AS address, suburb AS Suburb, city AS City, state AS State, town AS Town, county AS County")) in
  let* records := gets rows in
  forRange (fun _ record =>
    modify (fun st => set_osmCache (<[fst record := snd record]> (osmCache st)) st))
    0 records.

Lemma initGeocodeCache_unfold (E : Env) :
  initGeocodeCache E = forRange (initGeocodeCache_table E) 0 initGeocodeCache_tables.
Proof. reflexivity. Qed.

(** *** Entries stay *)

Lemma holds_snd (Inv : State -> Prop) {A} (m : M A) (st : State) :
  holds Inv Inv m -> Inv st -> Inv (snd (m st)).
Proof. intros Hm HI. specialize (Hm st HI). now destruct (m st) as [[a|e] st']. Qed.

Section Entry.

Context (E : Env) (hex : string) (g : ReverseGeocode.t).

Definition entryIs (st : State) : Prop := osmCache st !! hex = Some g.

Lemma entryIs_record (ev : Event) (st : State) : entryIs st -> entryIs (record ev st).
Proof. exact (fun H => H). Qed.

Lemma entryIs_tables h f r (st : State) : entryIs st -> entryIs (withTables h f r st).
Proof. exact (fun H => H). Qed.

Lemma entryIs_geocode_miss (st : State) (hex' : string) (lat lng : float64) :
  entryIs st -> osmCache st !! hex' = None ->
  entryIs (record (EvOsmGet hex' lat lng) (record (EvTake "osm") st)).
Proof. intros H _. exact H. Qed.

Lemma entryIs_geocode (st : State) (hex' : string) (lat lng : float64)
    (g' : ReverseGeocode.t) :
  entryIs st -> osmCache st !! hex' = None ->
  entryIs (cached hex' g' (record (EvOsmGet hex' lat lng) (record (EvTake "osm") st))).
Proof.
  unfold entryIs. intros H Hmiss. cbn.
  rewrite lookup_insert_ne; [exact H | congruence].
Qed.

Create HintDb entry.
#[local] Hint Resolve entryIs_record entryIs_tables entryIs_geocode_miss
  entryIs_geocode tableOfState_Hex tableOfState_Flower tableOfState_Reward : entry.

Lemma reverseGeocode_keeps_entry (hex' : string) :
  holds entryIs entryIs (reverseGeocode E hex').
Proof. apply holds_reverseGeocode; auto with entry. Qed.

Lemma syncFlowers_keeps_entry : holds entryIs entryIs (syncFlowers E).
Proof. apply holds_syncFlowers; auto with entry. Qed.

Lemma syncRewards_keeps_entry : holds entryIs entryIs (syncRewards E).
Proof. apply holds_syncRewards; auto with entry. Qed.

Lemma syncHexes_keeps_entry (hexLocations : string) :
  holds entryIs entryIs (syncHexes E hexLocations).
Proof. apply holds_syncHexes; auto with entry. Qed.

End Entry.

(** *** One request per cell *)

Section SingleLookup.

Context (E : Env) (hex : string).

(** No request was made for the cell, or one was and the cell is cached. *)
Definition lookedUpOnce (st : State) : Prop :=
  lookups hex (trace st) = 0%nat \/
  (lookups hex (trace st) = 1%nat /\ is_Some (osmCache st !! hex)).

Definition atMostOnce (st : State) : Prop := (lookups hex (trace st) <= 1)%nat.

Lemma lookedUpOnce_atMostOnce (st : State) : lookedUpOnce st -> atMostOnce st.
Proof. unfold lookedUpOnce, atMostOnce. lia. Qed.

Lemma lookedUpOnce_quiet (ev : Event) (st : State) :
  isPrintf ev = false -> isOsmGet ev = false ->
  lookedUpOnce st -> lookedUpOnce (record ev st).
Proof.
  unfold lookedUpOnce. intros _ Ho. rewrite lookups_record.
  destruct ev; try discriminate Ho; cbn [lookupOf osmCache record];
    rewrite Nat.add_0_r; auto.
Qed.

Lemma lookedUpOnce_print (ev : Event) (st : State) :
  isPrintf ev = true -> lookedUpOnce st -> lookedUpOnce (record ev st).
Proof.
  unfold lookedUpOnce. intros Hp. rewrite lookups_record.
  destruct ev; try discriminate Hp. cbn [lookupOf osmCache record].
  rewrite Nat.add_0_r; auto.
Qed.

Lemma atMostOnce_print (ev : Event) (st : State) :
  isPrintf ev = true -> atMostOnce st -> atMostOnce (record ev st).
Proof.
  unfold atMostOnce. intros Hp. rewrite lookups_record.
  destruct ev; try discriminate Hp. cbn [lookupOf]. lia.
Qed.

Lemma lookedUpOnce_tables h f r (st : State) :
  lookedUpOnce st -> lookedUpOnce (withTables h f r st).
Proof. exact (fun H => H). Qed.

Lemma atMostOnce_tables h f r (st : State) :
  atMostOnce st -> atMostOnce (withTables h f r st).
Proof. exact (fun H => H). Qed.

Lemma lookedUpOnce_cached (hex' : string) (g : ReverseGeocode.t) (st : State) :
  lookedUpOnce st -> lookedUpOnce (cached hex' g st).
Proof.
  unfold lookedUpOnce. cbn. intros [H0 | [H1 Hc]]; [now left | right].
  split; [exact H1|]. rewrite lookup_insert_is_Some. destruct (decide (hex' = hex)); auto.
Qed.

(** The request of a miss: the first one for its cell. *)
Lemma lookups_geocode_miss (st : State) (hex' : string) (lat lng : float64) :
  lookedUpOnce st -> osmCache st !! hex' = None ->
  lookups hex (trace (record (EvOsmGet hex' lat lng) (record (EvTake "osm") st)))
  = (lookups hex (trace st) + (if String.eqb hex' hex then 1 else 0))%nat /\
  (String.eqb hex' hex = true -> lookups hex (trace st) = 0%nat).
Proof.
  intros HI Hmiss. rewrite !lookups_record. cbn [lookupOf].
  split; [lia|]. intros Heq. apply String.eqb_eq in Heq. subst hex'.
  destruct HI as [H0 | [_ [g Hg]]]; [exact H0 | congruence].
Qed.

Lemma atMostOnce_geocode_miss (st : State) (hex' : string) (lat lng : float64) :
  lookedUpOnce st -> osmCache st !! hex' = None ->
  atMostOnce (record (EvOsmGet hex' lat lng) (record (EvTake "osm") st)).
Proof.
  intros HI Hmiss. unfold atMostOnce.
  destruct (lookups_geocode_miss st hex' lat lng HI Hmiss) as [-> H0].
  apply lookedUpOnce_atMostOnce in HI. unfold atMostOnce in HI.
  destruct (String.eqb hex' hex); [rewrite H0 by reflexivity|]; lia.
Qed.

Lemma lookedUpOnce_geocode (st : State) (hex' : string) (lat lng : float64)
    (g : ReverseGeocode.t) :
  lookedUpOnce st -> osmCache st !! hex' = None ->
  lookedUpOnce
    (cached hex' g (record (EvOsmGet hex' lat lng) (record (EvTake "osm") st))).
Proof.
  intros HI Hmiss. unfold lookedUpOnce.
  change (trace (cached hex' g ?s)) with (trace s).
  destruct (lookups_geocode_miss st hex' lat lng HI Hmiss) as [-> H0].
  cbn [cached set_osmCache osmCache record].
  destruct (String.eqb_spec hex' hex) as [->|Hne].
  - right. rewrite H0 by reflexivity. split; [reflexivity|].
    rewrite lookup_insert_eq. eauto.
  - rewrite Nat.add_0_r. destruct HI as [H | [H Hc]]; [now left | right].
    split; [exact H|]. now rewrite lookup_insert_ne.
Qed.

(** Through a whole run, at most one request is made for the cell. *)
Lemma main_single_lookup (args : list string) :
  holds lookedUpOnce atMostOnce (main E args).
Proof.
  apply holds_main;
    auto using lookedUpOnce_atMostOnce, lookedUpOnce_quiet, lookedUpOnce_tables,
      atMostOnce_tables, atMostOnce_geocode_miss, lookedUpOnce_geocode,
      lookedUpOnce_print, atMostOnce_print, lookedUpOnce_cached.
Qed.

End SingleLookup.

(** *** Entries are never removed *)

Section Present.

Context (E : Env) (hex : string).

Definition present (st : State) : Prop := is_Some (osmCache st !! hex).

Lemma present_cached (hex' : string) (g : ReverseGeocode.t) (st : State) :
  present st -> present (cached hex' g st).
Proof.
  unfold present. cbn. intros Hp. rewrite lookup_insert_is_Some.
  destruct (decide (hex' = hex)); auto.
Qed.

Lemma main_keeps_present (args : list string) : holds present present (main E args).
Proof.
  apply holds_main; auto using present_cached.
Qed.

End Present.

(** *** The warm-up overwrites *)

(** An earlier answer of the geocoder for the cell of [sampleGeocode]. *)
Definition olderGeocode : ReverseGeocode.t :=
  ReverseGeocode.mk 40.5%float (-74)%float
    "Kings County, New York, United States"
    EmptyString "New York" "New York" EmptyString "Kings County".

(** A store whose Hex table and Flower table both have a row for the cell
    8c2a1072b59a1ff, with different places. *)
Definition overlapStore : State :=
  initState 1000
    {[ "8c2a1072b59a1ff" := setUpdatedAt 800
         (hexOfItem (HexListItem.mk "8c2a1072b59a1ff" 1 1) olderGeocode zero) ]}
    {[ "flower-1" := setUpdatedAt 900
         (flowerOfItem (sampleFlowerItem "flower-1" "8c2a1072b59a1ff")
                       sampleGeocode "{}") ]}
    ∅.

(** The state of the warm-up once the rows of the Hex table are loaded. *)
Definition afterHexRows : State :=
  snd (forRange (initGeocodeCache_table flowerWorld) 0
         [(tableNameHex, "id", geocodesOfHexes)] overlapStore).

(** C6 as stated fails: within a run, the warm-up overwrites an entry.  On
    [overlapStore] the rows of the Hex table are loaded first and the cell
    is cached with the place of its Hex row; the warm-up goes on with the
    Flower table and replaces that entry by the place of the Flower row. *)
Lemma geocode_cache_overwritten_counterexample :
  osmCache afterHexRows !! "8c2a1072b59a1ff" = Some olderGeocode /\
  initGeocodeCache flowerWorld overlapStore
  = forRange (initGeocodeCache_table flowerWorld) 1
      [(tableNameFlower, "h3_hex", geocodesOfFlowers)] afterHexRows /\
  fst (initGeocodeCache flowerWorld overlapStore) = Ok tt /\
  osmCache (snd (initGeocodeCache flowerWorld overlapStore)) !! "8c2a1072b59a1ff"
  = Some sampleGeocode /\
  olderGeocode <> sampleGeocode.
Proof.
  split; [vm_compute; reflexivity|].
  split; [vm_compute; reflexivity|].
  split; [vm_compute; reflexivity|].
  split; [vm_compute; reflexivity|].
  discriminate.
Qed.

(** C6, amended: a cell already in the cache, whether the warm-up loaded it
    from the store or an earlier miss filled it, is resolved from the
    cache, the state (and so the trace of requests) untouched; in a whole
    run at most one reverse-geocoding request is made for any cell, and no
    entry is ever removed.  Once the warm-up is over no entry is replaced:
    [reverseGeocode] and the three sync routines keep every entry as it is.
    The warm-up itself assigns the entry of every row it loads, the rows of
    the Hex table first and those of the Flower table after: an entry is
    overwritten by a later row of the same cell, the last row of a cell
    wins, and a cell without a row keeps what the cache held. *)
Theorem geocode_cache_single_lookup (E : Env) :
  (forall st hex g,
     osmCache st !! hex = Some g -> reverseGeocode E hex st = (Ok g, st)) /\
  (forall st st' hex g,
     initGeocodeCache E st = (Ok tt, st') ->
     (hex, g) ∈ geocodesOfHexes st ++ geocodesOfFlowers st ->
     exists g', (hex, g') ∈ geocodesOfHexes st ++ geocodesOfFlowers st /\
                reverseGeocode E hex st' = (Ok g', st')) /\
  (forall st st' hex g,
     reverseGeocode E hex st = (Ok g, st') ->
     reverseGeocode E hex st' = (Ok g, st')) /\
  (forall st hex g,
     osmCache st !! hex = Some g ->
     (forall hex', osmCache (snd (reverseGeocode E hex' st)) !! hex = Some g) /\
     osmCache (snd (syncFlowers E st)) !! hex = Some g /\
     osmCache (snd (syncRewards E st)) !! hex = Some g /\
     (forall hexLocations,
        osmCache (snd (syncHexes E hexLocations st)) !! hex = Some g)) /\
  (forall t0 hexes flowers rewards args hex,
     (lookups hex (trace (snd (main E args (initState t0 hexes flowers rewards))))
      <= 1)%nat) /\
  (forall st st' pre hex g post,
     initGeocodeCache E st = (Ok tt, st') ->
     geocodesOfHexes st ++ geocodesOfFlowers st = pre ++ (hex, g) :: post ->
     hex ∉ fst <$> post ->
     osmCache st' !! hex = Some g) /\
  (forall st st' hex,
     initGeocodeCache E st = (Ok tt, st') ->
     hex ∉ fst <$> (geocodesOfHexes st ++ geocodesOfFlowers st) ->
     osmCache st' !! hex = osmCache st !! hex) /\
  (forall args st hex,
     is_Some (osmCache st !! hex) ->
     is_Some (osmCache (snd (main E args st)) !! hex)).
Proof.
  split; [intros st hex g; apply reverseGeocode_hit|].
  split.
  { intros st st' hex g Hwarm Hin.
    destruct (warm_lookup _ (osmCache st) hex g Hin) as [g' [Hl Hg']].
    exists g'. split; [exact Hg'|].
    apply reverseGeocode_hit. now rewrite (initGeocodeCache_warm E st st' Hwarm). }
  split.
  { intros st st' hex g Hr. apply reverseGeocode_hit.
    exact (reverseGeocode_fills E hex g st st' Hr). }
  split.
  { intros st hex g Hc. repeat split.
    - intros hex'.
      exact (holds_snd (entryIs hex g) _ st (reverseGeocode_keeps_entry E hex g hex') Hc).
    - exact (holds_snd (entryIs hex g) _ st (syncFlowers_keeps_entry E hex g) Hc).
    - exact (holds_snd (entryIs hex g) _ st (syncRewards_keeps_entry E hex g) Hc).
    - intros hexLocations.
      exact (holds_snd (entryIs hex g) _ st
               (syncHexes_keeps_entry E hex g hexLocations) Hc). }
  split.
  { intros t0 hexes flowers rewards args hex.
    assert (H0 : lookedUpOnce hex (initState t0 hexes flowers rewards)) by now left.
    pose proof (main_single_lookup E hex args _ H0) as Hm.
    destruct (main E args (initState t0 hexes flowers rewards)) as [[[]|e] st'].
    - now apply lookedUpOnce_atMostOnce.
    - exact Hm. }
  split.
  { intros st st' pre hex g post Hwarm Hrows Hpost.
    rewrite (initGeocodeCache_warm E st st' Hwarm), Hrows.
    now apply warm_last. }
  split.
  { intros st st' hex Hwarm Hnot.
    rewrite (initGeocodeCache_warm E st st' Hwarm). now apply warm_other. }
  intros args st hex Hp.
  exact (holds_snd (present hex) _ st (main_keeps_present E hex args) Hp).
Qed.

(** A store holding a flower in cell 8c2a1072b59a1ff: after the warm-up the
    cell is resolved from the cache. *)
Lemma geocode_cache_single_lookup_witness :
  reverseGeocode flowerWorld "8c2a1072b59a1ff"
    (snd (initGeocodeCache flowerWorld storeWithFlower))
  = (Ok sampleGeocode, snd (initGeocodeCache flowerWorld storeWithFlower)).
Proof.
  apply (proj1 (geocode_cache_single_lookup flowerWorld)).
  vm_compute. reflexivity.
Defined.

(** * Further properties of the program *)

(** ** The tokens [isValidHex] accepts, character by character *)

(** 15 bytes: hexadecimal digits of either case, the first one possibly
    replaced by a sign. *)
Definition isCellToken (tok : string) : bool :=
  (String.length tok =? 15)%nat && hexDigits (stripSign tok).

(** The loop of [ParseUint] succeeds on hexadecimal digits only. *)
Lemma parseUint_loop_ok_hexDigits (cutoff maxVal : Z) (s : string) :
  forall n v,
    parseUint_loop 16 cutoff maxVal n s = (v, None) -> hexDigits s = true.
Proof.
  induction s as [|c s IH]; intros n v; cbn [parseUint_loop hexDigits]; [reflexivity|].
  pose proof (digitval_hexDigit c) as Hc.
  destruct (digitval (byteval c)) as [d|]; [|discriminate].
  change (16 mod 256) with 16. rewrite Z.geb_leb.
  destruct (Z.leb_spec 16 d) as [Hge|Hlt]; [discriminate|].
  assert (Hd : (d <? 16) = true) by now apply Z.ltb_lt.
  rewrite Hd in Hc. rewrite <- Hc. cbn [andb].
  destruct (n >=? cutoff); [discriminate|].
  destruct (_ || _); [discriminate|]. apply IH.
Qed.

(** On a token of 15 bytes, [ParseInt(_, 16, 64)] succeeds exactly when the
    token, its sign apart, is made of hexadecimal digits. *)
Lemma strconv_ParseInt_token (tok : string) :
  String.length tok = 15%nat ->
  match snd (strconv_ParseInt tok 16 64) with
  | None => true
  | Some _ => false
  end = hexDigits (stripSign tok).
Proof.
  intros Hlen. destruct tok as [|c0 rest]; [discriminate|].
  cbn [String.length] in Hlen. injection Hlen as Hlen.
  unfold strconv_ParseInt, stripSign. rewrite strconv_ParseUint_16_64.
  change (2 ^ (64 - 1)) with (2 ^ 63).
  set (neg := Ascii.eqb c0 "-").
  set (s1 := if Ascii.eqb c0 "+" || neg then rest else String c0 rest).
  assert (Hs1 : (14 <= String.length s1 <= 15)%nat).
  { subst s1. destruct (_ || _); cbn [String.length]; lia. }
  assert (Hne : String.eqb s1 EmptyString = false).
  { destruct s1; [cbn in Hs1; lia | reflexivity]. }
  rewrite Hne.
  destruct (hexDigits s1) eqn:Hd.
  - destruct (parseUint_loop_hexDigits s1 0 Hd) as [v [Hv Hr]]; [lia | |].
    { change ((0 + 1) * 16 ^ Z.of_nat (String.length s1) <= 16 ^ 16).
      rewrite Z.mul_1_l. apply Z.pow_le_mono_r; lia. }
    rewrite Hv.
    assert (Hv60 : v < 2 ^ 60).
    { eapply Z.lt_le_trans; [apply Hr|]. rewrite Z.mul_1_l.
      change (2 ^ 60) with (16 ^ 15). apply Z.pow_le_mono_r; lia. }
    assert (H63 : 2 ^ 60 < 2 ^ 63) by (vm_compute; reflexivity).
    replace (v >=? 2 ^ 63) with false by (symmetry; rewrite Z.geb_leb; apply Z.leb_gt; lia).
    replace (v >? 2 ^ 63) with false by (symmetry; rewrite Z.gtb_ltb; apply Z.ltb_ge; lia).
    rewrite !andb_false_r. reflexivity.
  - destruct (parseUint_loop 16 (2 ^ 60) (2 ^ 64 - 1) 0 s1) as [un e] eqn:Hl.
    pose proof (parseUint_loop_result _ _ _ _ _ _ _ Hl) as [-> | [[-> ->] | [-> ->]]].
    + apply parseUint_loop_ok_hexDigits in Hl. congruence.
    + reflexivity.
    + destruct neg; reflexivity.
Qed.

Lemma isValidHex_loop_tokens (hexes : list string) :
  isValidHex_loop hexes = forallb isCellToken hexes.
Proof.
  induction hexes as [|hex hexes IH]; [reflexivity|].
  cbn [isValidHex_loop forallb]. unfold isCellToken at 1, len.
  destruct (Nat.eqb_spec (String.length hex) 15) as [Hl|Hl].
  - rewrite Hl. cbn [Z.of_nat Pos.of_succ_nat Pos.succ Z.eqb Pos.eqb negb andb].
    rewrite <- (strconv_ParseInt_token hex Hl).
    destruct (snd (strconv_ParseInt hex 16 64)); [reflexivity | exact IH].
  - replace (Z.of_nat (String.length hex) =? 15) with false
      by (symmetry; apply Z.eqb_neq; lia).
    reflexivity.
Qed.

(** X1: [isValidHex] accepts a string exactly when each of its
    comma-separated tokens has 15 bytes that are hexadecimal digits of
    either case, the first byte possibly being a sign instead. *)
Theorem isValidHex_tokens (s : string) :
  isValidHex s = forallb isCellToken (strings_Split s ",").
Proof. unfold isValidHex. apply isValidHex_loop_tokens. Qed.

(** ** The fetcher when an attempt succeeds *)

Lemma failedAttempts_succ (url : string) (k : nat) (st : State) :
  failedAttempts url (S k) st = failedAttempt url (failedAttempts url k st).
Proof.
  revert st. induction k as [|k IH]; intros st; [reflexivity|].
  change (failedAttempts url (S (S k)) st)
    with (failedAttempts url (S k) (failedAttempt url st)).
  rewrite IH. reflexivity.
Qed.

Lemma clock_failedAttempts (url : string) (k : nat) (st : State) :
  clock (failedAttempts url k st)
  = clock st + Z.of_nat k * (2 + pollenRetryWaitTime).
Proof.
  induction k as [|k IH]; [cbn; lia|].
  rewrite failedAttempts_succ. cbn [failedAttempt clock]. rewrite IH. lia.
Qed.

Lemma attempts_app (url : string) (tr1 tr2 : list (Time * Event)) :
  attempts url (tr1 ++ tr2) = (attempts url tr1 + attempts url tr2)%nat.
Proof. unfold attempts. now rewrite List.filter_app, length_app. Qed.

Lemma sleeps_app (tr1 tr2 : list (Time * Event)) :
  sleeps (tr1 ++ tr2) = (sleeps tr1 + sleeps tr2)%nat.
Proof. unfold sleeps. now rewrite List.filter_app, length_app. Qed.

Lemma counts_failedAttempts (url : string) (k : nat) (st : State) :
  attempts url (trace (failedAttempts url k st)) = (attempts url (trace st) + k)%nat /\
  sleeps (trace (failedAttempts url k st)) = (sleeps (trace st) + k)%nat.
Proof.
  induction k as [|k [IHa IHs]]; [cbn; lia|].
  rewrite failedAttempts_succ. cbn [failedAttempt trace].
  rewrite attempts_app, sleeps_app, IHa, IHs.
  unfold attempts at 2, sleeps at 2. cbn [List.filter snd].
  rewrite String.eqb_refl. cbn [length]. lia.
Qed.

Section FetcherSuccess.

Context (E : Env) {T : Type} `{Shape T}.

(** The loop, the first [k] requests failing and the next one answered,
    with iterations to spare: it returns the answer. *)
Lemma pollenAPICallWithRetries_loop_answer (url : string) (t : T)
    (t_ret : T) (err_ret : option error) (k : nat) :
  forall n st,
    (k < n)%nat ->
    (forall j, (j < k)%nat ->
       exists e, respond E url (clock (failedAttempts url j st) + 1) = inl e) ->
    respond E url (clock (failedAttempts url k st) + 1) = inr t ->
    pollenAPICallWithRetries_loop E url n t_ret err_ret st
    = (Ok (t, None),
       record (EvPollenGet url) (record (EvTake "pollen") (failedAttempts url k st))).
Proof.
  induction k as [|k IH]; intros n st Hk Hfail Hok.
  - destruct n as [|n]; [lia|]. cbn [pollenAPICallWithRetries_loop failedAttempts] in *.
    unfold pollenAPICall, bind, emit, modify, gets, ret.
    cbn [fst snd clock record duration]. now rewrite Hok.
  - destruct n as [|n]; [lia|].
    cbn [pollenAPICallWithRetries_loop].
    unfold bind at 1. unfold pollenAPICall.
    unfold bind, emit, modify, gets, ret. cbn [fst snd clock record duration].
    destruct (Hfail 0%nat ltac:(lia)) as [e He]. cbn [failedAttempts] in He.
    rewrite He.
    match goal with
    | |- pollenAPICallWithRetries_loop E url n t_ret err_ret ?s = _ =>
        replace s with (failedAttempt url st)
    end.
    + apply IH; [lia | | exact Hok].
      intros j Hj. apply (Hfail (S j)). lia.
    + unfold failedAttempt, record; cbn. f_equal; [lia|].
      rewrite <- !app_assoc. cbn.
      now replace (clock st + 1 + 1) with (clock st + 2) by lia.
Qed.

End FetcherSuccess.

(** X2: when the first [k] requests to a URL fail (k = 0, 1 or 2) and the
    next one is answered, [pollenAPICallWithRetries] returns that answer
    with a nil error after [k + 1] requests and [k] sleeps: one sleep after
    each failure, none after the success. *)
Theorem retries_return_first_answer (E : Env) {T} `{Shape T} (url : string)
    (st : State) (k : nat) (t : T) :
  (k < 3)%nat ->
  (forall j, (j < k)%nat ->
     exists e, respond E url
                 (clock st + Z.of_nat j * (2 + pollenRetryWaitTime) + 1) = inl e) ->
  respond E url (clock st + Z.of_nat k * (2 + pollenRetryWaitTime) + 1) = inr t ->
  fst (pollenAPICallWithRetries (T := T) E url st) = Ok (t, None) /\
  attempts url (trace (snd (pollenAPICallWithRetries (T := T) E url st)))
  = (attempts url (trace st) + k + 1)%nat /\
  sleeps (trace (snd (pollenAPICallWithRetries (T := T) E url st)))
  = (sleeps (trace st) + k)%nat.
Proof.
  intros Hk Hfail Hok. unfold pollenAPICallWithRetries.
  rewrite (pollenAPICallWithRetries_loop_answer E url t zero None k pollenRetries st Hk).
  - cbn [fst snd record trace]. rewrite <- !app_assoc.
    rewrite attempts_app, sleeps_app.
    destruct (counts_failedAttempts url k st) as [-> ->].
    unfold attempts at 2, sleeps at 2. cbn [List.filter snd app].
    rewrite String.eqb_refl. cbn [length]. repeat split; lia.
  - intros j Hj. rewrite clock_failedAttempts. now apply Hfail.
  - rewrite clock_failedAttempts. exact Hok.
Qed.

(** The flower list is refused once, then served. *)
Definition envFlaky : Env :=
  {| h3_CellToLatLng := h3_CellToLatLng (envUp [] [] []);
     api_HexList := fun _ _ => inr [];
     api_HexItem := fun _ _ => inr zero;
     api_FlowerList := fun _ t =>
       if t <? 2000 then inl connectionRefused
       else inr [sampleFlowerItem "flower-1" "8c2a1072b59a1ff"];
     api_DeviceRewards := fun _ _ => inr [];
     api_OSM := fun _ _ _ => inr samplePlace;
     json_Marshal := fun _ => ("{}", None);
     db_error := fun _ => None |}.

Lemma retries_return_first_answer_witness :
  fst (pollenAPICallWithRetries (T := list FlowerListItem.t)
         envFlaky pollenAPIFlowers emptyStore)
  = Ok ([sampleFlowerItem "flower-1" "8c2a1072b59a1ff"], None) /\
  attempts pollenAPIFlowers
    (trace (snd (pollenAPICallWithRetries (T := list FlowerListItem.t)
                   envFlaky pollenAPIFlowers emptyStore)))
  = (attempts pollenAPIFlowers (trace emptyStore) + 1 + 1)%nat /\
  sleeps
    (trace (snd (pollenAPICallWithRetries (T := list FlowerListItem.t)
                   envFlaky pollenAPIFlowers emptyStore)))
  = (sleeps (trace emptyStore) + 1)%nat.
Proof.
  apply (retries_return_first_answer envFlaky (T := list FlowerListItem.t)
           pollenAPIFlowers emptyStore 1).
  - lia.
  - intros j Hj. assert (j = 0%nat) as -> by lia.
    exists connectionRefused. reflexivity.
  - reflexivity.
Defined.

(** ** getRewards *)

Lemma flatten_rewards (byDate : DeviceRewards) (acc : list DeviceRewardItem.t) :
  foldl (fun rewards dailyRewards => rewards ++ snd dailyRewards) acc byDate
  = acc ++ concat (snd <$> byDate).
Proof.
  revert acc. induction byDate as [|d byDate IH]; intros acc; cbn.
  - now rewrite app_nil_r.
  - rewrite IH. now rewrite <- app_assoc.
Qed.

(** X3: when the device-rewards endpoint answers, [getRewards] returns the
    reward items of all the dates of the answer, date after date in the
    order the map is visited, with a nil error and after a single request. *)
Theorem getRewards_flattens (E : Env) (deviceName : string) (st : State)
    (rewardsByDate : DeviceRewards) :
  api_DeviceRewards E (pollenAPIRewards +:+ deviceName) (clock st + 1)
  = inr rewardsByDate ->
  getRewards E deviceName st
  = (Ok (concat (snd <$> rewardsByDate), None),
     record (EvPollenGet (pollenAPIRewards +:+ deviceName))
            (record (EvTake "pollen") st)).
Proof.
  intros Hr.
  change (respond E (pollenAPIRewards +:+ deviceName) (clock st + 1)
          = inr rewardsByDate) in Hr.
  unfold getRewards, bind.
  rewrite (pollenAPICallWithRetries_first E (T := DeviceRewards)
             (pollenAPIRewards +:+ deviceName) rewardsByDate st Hr).
  unfold ret. now rewrite flatten_rewards.
Qed.

(** Rewards on two dates. *)
Definition twoDates : DeviceRewards :=
  [ ("2022-09-10", [ sampleRewardItem "reward-1" (AnyString "[]");
                     sampleRewardItem "reward-2" AnyNil ]);
    ("2022-09-11", [ sampleRewardItem "reward-3" AnyNil ]) ].

Lemma getRewards_flattens_witness :
  getRewards (envUp [] twoDates []) "flower-1" emptyStore
  = (Ok (concat (snd <$> twoDates), None),
     record (EvPollenGet (pollenAPIRewards +:+ "flower-1"))
            (record (EvTake "pollen") emptyStore)).
Proof.
  apply (getRewards_flattens (envUp [] twoDates []) "flower-1" emptyStore twoDates).
  reflexivity.
Defined.

(** ** Errors of a run are printed before the panic *)

Definition errorLine (e : error) : Event := EvPrintf "Error: %v\n" [ArgErr e].

(** The error a run ends with is the validation error, or the last thing
    the run did was to print it. *)
Definition reported (e : error) (st : State) : Prop :=
  e = invalidArgument \/ snd <$> last (trace st) = Some (errorLine e).

Definition reports {A} (m : M A) : Prop :=
  forall st e st', m st = (Err e, st') -> reported e st'.

Lemma reports_bind {A B} (m : M A) (k : A -> M B) :
  reports m -> (forall a, reports (k a)) -> reports (bind m k).
Proof.
  intros Hm Hk st e st'. unfold bind.
  destruct (m st) as [[a|e0] st1] eqn:Hmst.
  - apply Hk.
  - intros [= <- <-]. now apply (Hm st).
Qed.

Lemma reports_forRange {A} (body : Z -> A -> M unit) (xs : list A) :
  (forall i x, reports (body i x)) -> forall i, reports (forRange body i xs).
Proof.
  intros Hb. induction xs as [|x xs IH]; intros i; cbn [forRange].
  - intros st e st'. discriminate.
  - apply reports_bind; [apply Hb | intros _; apply IH].
Qed.

Lemma reports_handleErr (m : M unit) : reports (handleErr m).
Proof.
  intros st e st'. unfold handleErr.
  destruct (m st) as [[[]|err] st1]; [discriminate|].
  unfold bind, emit, modify, throw. intros [= <- <-].
  right. unfold record; cbn [trace]. now rewrite last_snoc.
Qed.

(** X4: when [main] ends with an error, either the error is the validation
    error of a malformed hex group (which [main] panics with directly), or
    the last effect of the run is the line [Error: ...] printed for that
    very error by [handleErr]. *)
Theorem main_reports_errors (E : Env) (args : list string) (st st' : State)
    (e : error) :
  main E args st = (Err e, st') ->
  e = invalidArgument \/ snd <$> last (trace st') = Some (errorLine e).
Proof.
  revert st e st'. change (reports (main E args)). unfold main.
  apply reports_bind; [apply reports_handleErr | intros _].
  apply reports_bind; [apply reports_forRange; intros; apply reports_handleErr | intros _].
  apply reports_bind; [apply reports_forRange; intros; apply reports_handleErr | intros _].
  apply reports_bind; [apply reports_handleErr | intros _].
  apply reports_bind; [apply reports_handleErr | intros _].
  apply reports_bind; [apply reports_handleErr | intros _].
  apply reports_forRange. intros i hexGroup.
  destruct (_ || _); [|apply reports_handleErr].
  intros st e st' [= <- <-]. now left.
Qed.

(** The store refuses every statement. *)
Definition storeDown : error := DBError "connection refused".

Definition envStoreDown : Env :=
  {| h3_CellToLatLng := h3_CellToLatLng (envUp [] [] []);
     api_HexList := fun _ _ => inr [];
     api_HexItem := fun _ _ => inr zero;
     api_FlowerList := fun _ _ => inr [];
     api_DeviceRewards := fun _ _ => inr [];
     api_OSM := fun _ _ _ => inr samplePlace;
     json_Marshal := fun _ => ("{}", None);
     db_error := fun _ => Some storeDown |}.

Lemma main_reports_errors_witness :
  storeDown = invalidArgument \/
  snd <$> last (trace (snd (main envStoreDown [] emptyStore)))
  = Some (errorLine storeDown).
Proof.
  apply (main_reports_errors envStoreDown [] emptyStore
           (snd (main envStoreDown [] emptyStore)) storeDown).
  vm_compute. reflexivity.
Defined.

(** ** Laws of the three tables *)

Class ModelLaws (R : Type) `{Model R} := {
  table_record : forall (ev : Event) (st : State),
    table (R := R) (record ev st) = table st;
  table_cached : forall hex g (st : State),
    table (R := R) (cached hex g st) = table st;
  table_set_table : forall (t : gmap string R) (st : State),
    table (set_table t st) = t;
  set_table_set_table : forall (t t' : gmap string R) (st : State),
    set_table t (set_table t' st) = set_table t st;
  setUpdatedAt_twice : forall (t t' : Time) (x : R),
    setUpdatedAt t (setUpdatedAt t' x) = setUpdatedAt t x;
  primaryKey_setUpdatedAt : forall (t : Time) (x : R),
    primaryKey (setUpdatedAt t x) = primaryKey x
}.

#[export] Instance ModelLaws_Hex : ModelLaws Hex.t.
Proof. split; reflexivity. Qed.

#[export] Instance ModelLaws_Flower : ModelLaws Flower.t.
Proof. split; reflexivity. Qed.

#[export] Instance ModelLaws_Reward : ModelLaws Reward.t.
Proof. split; reflexivity. Qed.

(** ** Upserts under [upsertClause] *)

Section Upsert.

Context {R : Type} `{ModelLaws R}.

(** An upsert writes one key and leaves the others alone. *)
Lemma upsertRow_other (oc : OnConflict) (now : Time) (tbl : gmap string R)
    (r : R) (k : string) :
  k <> primaryKey r -> upsertRow oc now tbl r !! k = tbl !! k.
Proof.
  intros Hk. unfold upsertRow.
  destruct (tbl !! primaryKey r); now rewrite lookup_insert_ne.
Qed.

Lemma upsertRow_is_Some (oc : OnConflict) (now : Time) (tbl : gmap string R)
    (r : R) (k : string) :
  is_Some (tbl !! k) -> is_Some (upsertRow oc now tbl r !! k).
Proof.
  intros Hk. unfold upsertRow.
  destruct (tbl !! primaryKey r); rewrite lookup_insert_is_Some;
    destruct (decide (primaryKey r = k)); auto.
Qed.

(** What the program's clause stores: the columns of the new row, with the
    instant of the insert for a new key, the instant of the clause for a
    key already there. *)
Lemma upsertRow_stored (t0 now : Time) (tbl : gmap string R) (r : R) :
  getUpdatedAt r = Time_zero ->
  exists ts, (ts = now \/ ts = t0) /\
    upsertRow (upsertClause_init t0) now tbl r
    = <[primaryKey r := setUpdatedAt ts r]> tbl.
Proof.
  intros Hz. unfold upsertRow. destruct (tbl !! primaryKey r) as [old|].
  - exists t0. split; [now right|]. cbn. unfold applyAssignment. cbn.
    now rewrite setUpdatedAt_twice.
  - exists now. split; [now left|]. rewrite Hz. reflexivity.
Qed.

(** X5: under the program's clause, two upserts of rows with the same
    primary key leave one row for that key: it holds the columns of the
    second row, and as timestamp the instant at which the clause was
    initialised (neither upsert's instant); the other keys are those of the
    table before. *)
Theorem upsert_twice_last_write_wins (t0 now1 now2 : Time)
    (tbl : gmap string R) (r1 r2 : R) :
  primaryKey r1 = primaryKey r2 ->
  upsertRow (upsertClause_init t0) now2
    (upsertRow (upsertClause_init t0) now1 tbl r1) r2
  = <[primaryKey r2 := setUpdatedAt t0 r2]> tbl.
Proof.
  intros Hk.
  assert (H1 : exists x, upsertRow (upsertClause_init t0) now1 tbl r1
                         = <[primaryKey r2 := x]> tbl).
  { unfold upsertRow. rewrite Hk. destruct (tbl !! primaryKey r2); eauto. }
  destruct H1 as [x ->].
  unfold upsertRow. rewrite lookup_insert_eq. cbn. unfold applyAssignment. cbn.
  rewrite setUpdatedAt_twice. apply insert_insert_eq.
Qed.

End Upsert.

Lemma upsert_twice_last_write_wins_witness :
  upsertRow (upsertClause_init 1000) 1027
    (upsertRow (upsertClause_init 1000) 1020 ∅
       (hexOfItem (HexListItem.mk "8c2a1072b59a1ff" 1 1) sampleGeocode zero))
    (hexOfItem (HexListItem.mk "8c2a1072b59a1ff" 2 5) sampleGeocode zero)
  = <[ "8c2a1072b59a1ff" :=
         setUpdatedAt 1000
           (hexOfItem (HexListItem.mk "8c2a1072b59a1ff" 2 5) sampleGeocode zero) ]> ∅.
Proof.
  exact (upsert_twice_last_write_wins (R := Hex.t) 1000 1020 1027 ∅
           (hexOfItem (HexListItem.mk "8c2a1072b59a1ff" 1 1) sampleGeocode zero)
           (hexOfItem (HexListItem.mk "8c2a1072b59a1ff" 2 5) sampleGeocode zero)
           eq_refl).
Defined.

(** ** What a call of [reverseGeocode] changes *)

(** The three tables of two states are the same. *)
Definition sameTables (st st' : State) : Prop :=
  pollen_hexes st' = pollen_hexes st /\
  pollen_flowers st' = pollen_flowers st /\
  pollen_rewards st' = pollen_rewards st.

(** X6: [reverseGeocode] never writes to the store.  When it succeeds the
    cache is the old one with the returned place under the cell (on a miss,
    a place at the coordinates [hexToLatLng] gives for the cell); when it
    fails the cell was not cached and the cache is unchanged: a failed
    lookup caches nothing. *)
Theorem reverseGeocode_effects (E : Env) (hex : string) (st : State) :
  sameTables st (snd (reverseGeocode E hex st)) /\
  match fst (reverseGeocode E hex st) with
  | Ok g =>
      osmCache (snd (reverseGeocode E hex st)) = <[hex := g]> (osmCache st) /\
      (osmCache st !! hex = None ->
       (ReverseGeocode.Lat g, ReverseGeocode.Lng g) = hexToLatLng E hex)
  | Err _ =>
      osmCache st !! hex = None /\
      osmCache (snd (reverseGeocode E hex st)) = osmCache st
  end.
Proof.
  unfold reverseGeocode, bind, gets.
  destruct (osmCache st !! hex) as [g0|] eqn:Hc.
  - cbn. split; [repeat split|]. split; [|discriminate].
    symmetry. now apply insert_id.
  - destruct (hexToLatLng E hex) as [lat lng].
    unfold emit, modify, ret, throw. cbn [fst snd].
    destruct (api_OSM E lat lng _) as [err|place]; cbn.
    + repeat split.
    + repeat split.
Qed.

(** ** What the warm-up does *)

(** The query of the warm-up on a table. *)
Definition warmSelect (name column : string) : Event :=
  EvSQL (SqlSelect name
    (column +:+ " AS Hex, lat AS Lat, lng AS Lng, address AS address, suburb AS Suburb, city AS City, state AS State, town AS Town, county AS County")).

Lemma initGeocodeCache_state (E : Env) (st st' : State) :
  initGeocodeCache E st = (Ok tt, st') ->
  st' = set_osmCache
          (warm (osmCache st) (geocodesOfHexes st ++ geocodesOfFlowers st))
          (record (warmSelect tableNameFlower "h3_hex")
             (record (warmSelect tableNameHex "id") st)).
Proof.
  unfold initGeocodeCache. cbn [forRange].
  unfold bind, dbStatement, bind, gets, emit, modify, throw, ret.
  destruct (db_error E (clock st)); [discriminate|].
  rewrite warm_loop.
  destruct (db_error E _); [discriminate|].
  rewrite warm_loop. intros [= <-]. unfold warm. rewrite foldl_app. reflexivity.
Qed.

(** X7: a successful warm-up sends two SELECT statements, one per table,
    and nothing else (no HTTP request), and leaves the tables as they are.
    The rows of the Flower table are loaded after those of the Hex table:
    a cell with a flower row is cached with the place of one of its flower
    rows, and a cell with no row keeps what the cache held. *)
Theorem initGeocodeCache_effects (E : Env) (st st' : State) :
  initGeocodeCache E st = (Ok tt, st') ->
  trace st' = trace st ++ [ (clock st, warmSelect tableNameHex "id");
                            (clock st + 1, warmSelect tableNameFlower "h3_hex") ] /\
  sameTables st st' /\
  (forall hex g,
     (hex, g) ∈ geocodesOfFlowers st ->
     exists g', osmCache st' !! hex = Some g' /\ (hex, g') ∈ geocodesOfFlowers st) /\
  (forall hex,
     hex ∉ fst <$> (geocodesOfHexes st ++ geocodesOfFlowers st) ->
     osmCache st' !! hex = osmCache st !! hex).
Proof.
  intros Hw. rewrite (initGeocodeCache_state E st st' Hw).
  cbn [trace osmCache set_osmCache record].
  split; [now rewrite <- app_assoc|].
  split; [repeat split|].
  split.
  - intros hex g Hin. unfold warm. rewrite foldl_app.
    apply (warm_lookup (geocodesOfFlowers st) _ hex g Hin).
  - intros hex Hnot. now apply warm_other.
Qed.

Lemma initGeocodeCache_effects_witness :
  exists g', osmCache (snd (initGeocodeCache flowerWorld storeWithFlower))
               !! "8c2a1072b59a1ff" = Some g' /\
             ("8c2a1072b59a1ff", g') ∈ geocodesOfFlowers storeWithFlower.
Proof.
  refine (proj1 (proj2 (proj2
    (initGeocodeCache_effects flowerWorld storeWithFlower
       (snd (initGeocodeCache flowerWorld storeWithFlower)) _)))
    "8c2a1072b59a1ff" sampleGeocode _).
  - vm_compute. reflexivity.
  - vm_compute. left.
Defined.

(** ** A failed [syncFlowers] writes nothing *)

Lemma batches_nil {A} (fuel size : nat) : batches fuel size (@nil A) = [].
Proof. now destruct fuel. Qed.

(** Up to [size] rows make one batch. *)
Lemma batches_small {A} (size : nat) (l : list A) :
  (length l <= size)%nat ->
  batches (length l) size l = match l with [] => [] | _ :: _ => [l] end.
Proof.
  intros Hl. destruct l as [|x l]; [reflexivity|].
  cbn [length batches]. rewrite take_ge, drop_ge by exact Hl.
  now rewrite batches_nil.
Qed.

(** A failed [CreateInBatches] leaves the table as it was: a single batch
    is a single statement, several batches are in a transaction. *)
Lemma CreateInBatches_error (E : Env) {R} `{ModelLaws R} (oc : OnConflict)
    (rows : list R) (batchSize : nat) (st st' : State) (e : error) :
  CreateInBatches E oc rows batchSize st = (Err e, st') ->
  table (R := R) st' = table st.
Proof.
  unfold CreateInBatches. destruct (Nat.leb_spec (length rows) batchSize) as [Hle|Hgt].
  - rewrite (batches_small batchSize rows Hle). destruct rows as [|r rows].
    + discriminate.
    + cbn [forRange]. unfold bind, gets, dbStatement, bind, gets, emit, modify, throw, ret.
      destruct (db_error E (clock st)); [|discriminate].
      intros [= _ <-]. apply table_record.
  - unfold transaction.
    match goal with
    | |- (match ?m st with _ => _ end) = _ -> _ => destruct (m st) as [[[]|e'] st1]
    end; [discriminate|].
    intros [= _ <-]. apply table_set_table.
Qed.

Section ErrorKeeps.

Variable P : State -> Prop.

(** [P] still holds when the computation returns an error. *)
Definition errKeeps {A} (m : M A) : Prop :=
  forall st e st', P st -> m st = (Err e, st') -> P st'.

Lemma errKeeps_bind {A B} (m : M A) (k : A -> M B) :
  holds P P m -> (forall a, errKeeps (k a)) -> errKeeps (bind m k).
Proof.
  intros Hm Hk st e st' HP. unfold bind. specialize (Hm st HP).
  destruct (m st) as [[a|e0] st1].
  - now apply Hk.
  - now intros [= <- <-].
Qed.

End ErrorKeeps.

Lemma syncFlowers_errKeeps (E : Env) (tbl : gmap string Flower.t) :
  errKeeps (fun s => pollen_flowers s = tbl) (syncFlowers E).
Proof.
  unfold syncFlowers, getAllFlowers.
  apply errKeeps_bind.
  { apply holds_pollenAPICallWithRetries; auto. }
  intros [flowerItems err]. apply errKeeps_bind; [apply holds_check; auto|]. intros _.
  apply errKeeps_bind; [apply holds_emit_print; auto|]. intros _.
  apply errKeeps_bind.
  { apply holds_syncFlowers_loop; auto. }
  intros flowers. apply errKeeps_bind; [apply holds_gets|]. intros oc.
  intros s e s' HPs Herr. rewrite <- HPs.
  apply (CreateInBatches_error E (R := Flower.t) oc flowers 200 s s' e Herr).
Qed.

(** X8: [syncFlowers] is all-or-nothing on the Flower table: when it
    returns an error (a failed geocoding request, a failed marshalling, a
    statement the store refuses), the table holds exactly the rows it held
    before the call. *)
Theorem syncFlowers_error_writes_nothing (E : Env) (st st' : State) (e : error) :
  syncFlowers E st = (Err e, st') -> pollen_flowers st' = pollen_flowers st.
Proof.
  intros Hsync.
  exact (syncFlowers_errKeeps E (pollen_flowers st) st e st' eq_refl Hsync).
Qed.

(** Two flowers upstream, the geocoding upstream down. *)
Definition envGeoDown : Env :=
  {| h3_CellToLatLng := h3_CellToLatLng twoFlowers;
     api_HexList := api_HexList twoFlowers;
     api_HexItem := api_HexItem twoFlowers;
     api_FlowerList := api_FlowerList twoFlowers;
     api_DeviceRewards := api_DeviceRewards twoFlowers;
     api_OSM := fun _ _ _ => inl connectionRefused;
     json_Marshal := json_Marshal twoFlowers;
     db_error := db_error twoFlowers |}.

Lemma syncFlowers_error_writes_nothing_witness :
  pollen_flowers (snd (syncFlowers envGeoDown storeWithFlower))
  = pollen_flowers storeWithFlower.
Proof.
  apply (syncFlowers_error_writes_nothing envGeoDown storeWithFlower
           (snd (syncFlowers envGeoDown storeWithFlower)) connectionRefused).
  vm_compute. reflexivity.
Defined.

(** ** What a run can change

    [keeps m]: the state in which [m] ends, normally or with an error, is
    related by [Rel] to the state in which it started, [Rel] being a
    preorder kept by the effects [m] is made of. *)

Section Evolution.

Context (E : Env).
Variable Rel : State -> State -> Prop.

Hypothesis Rel_refl : forall st, Rel st st.
Hypothesis Rel_trans : forall st1 st2 st3, Rel st1 st2 -> Rel st2 st3 -> Rel st1 st3.

Definition keeps {A} (m : M A) : Prop := forall st, Rel st (snd (m st)).

Lemma keeps_ret {A} (a : A) : keeps (ret a).
Proof. intros st. apply Rel_refl. Qed.

Lemma keeps_throw {A} (e : error) : keeps (@throw A e).
Proof. intros st. apply Rel_refl. Qed.

Lemma keeps_gets {A} (f : State -> A) : keeps (gets f).
Proof. intros st. apply Rel_refl. Qed.

Lemma keeps_check (err : option error) : keeps (check err).
Proof. destruct err; [apply keeps_throw | apply keeps_ret]. Qed.

Lemma keeps_modify (f : State -> State) :
  (forall st, Rel st (f st)) -> keeps (modify f).
Proof. intros Hf st. apply Hf. Qed.

Lemma keeps_bind {A B} (m : M A) (k : A -> M B) :
  keeps m -> (forall a, keeps (k a)) -> keeps (bind m k).
Proof.
  intros Hm Hk st. unfold bind. specialize (Hm st).
  destruct (m st) as [[a|e] st1]; cbn [snd] in *; [|exact Hm].
  eapply Rel_trans; [exact Hm | apply Hk].
Qed.

Lemma keeps_forRange {A} (body : Z -> A -> M unit) (xs : list A) :
  (forall i x, keeps (body i x)) -> forall i, keeps (forRange body i xs).
Proof.
  intros Hb. induction xs as [|x xs IH]; intros i; cbn [forRange].
  - apply keeps_ret.
  - apply keeps_bind; [apply Hb | intros _; apply IH].
Qed.

Lemma keeps_forRangeFill {A B} (body : Z -> A -> M B) (xs : list A) :
  (forall i x, keeps (body i x)) -> forall i, keeps (forRangeFill body i xs).
Proof.
  intros Hb. induction xs as [|x xs IH]; intros i; cbn [forRangeFill].
  - apply keeps_ret.
  - apply keeps_bind; [apply Hb | intros y].
    apply keeps_bind; [apply IH | intros ys; apply keeps_ret].
Qed.

(** *** Effects recorded in the trace *)

Hypothesis Rel_record : forall ev st, Rel st (record ev st).

Lemma keeps_emit (ev : Event) : keeps (emit ev).
Proof. apply keeps_modify. intros st. apply Rel_record. Qed.

Lemma keeps_dbStatement (s : Stmt) : keeps (dbStatement E s).
Proof.
  unfold dbStatement. apply keeps_bind; [apply keeps_gets | intros now].
  apply keeps_bind; [apply keeps_emit | intros _].
  destruct (db_error E now); [apply keeps_throw | apply keeps_ret].
Qed.

Lemma keeps_handleErr (m : M unit) : keeps m -> keeps (handleErr m).
Proof.
  intros Hm st. unfold handleErr. specialize (Hm st).
  destruct (m st) as [[[]|e] st1]; cbn [snd] in *; [exact Hm|].
  unfold bind, emit, modify, throw. cbn [snd].
  eapply Rel_trans; [exact Hm | apply Rel_record].
Qed.

Lemma keeps_pollenAPICallWithRetries {T} `{Shape T} (url : string) :
  keeps (pollenAPICallWithRetries E (T := T) url).
Proof.
  unfold pollenAPICallWithRetries. generalize pollenRetries as n.
  induction n as [|n IH]; cbn [pollenAPICallWithRetries_loop].
  - apply keeps_ret.
  - apply keeps_bind.
    + unfold pollenAPICall. apply keeps_bind; [apply keeps_emit | intros _].
      apply keeps_bind; [apply keeps_gets | intros now].
      apply keeps_bind; [apply keeps_emit | intros _].
      destruct (respond E url now); apply keeps_ret.
    + intros [t [e|]]; [|apply keeps_ret].
      apply keeps_bind; [apply keeps_emit | intros _; exact IH].
Qed.

(** *** Writes to a table *)

(** The upserts of a statement, and the rollback of a transaction. *)
Definition upsertsKept (R : Type) `{Model R} : Prop :=
  forall oc now (batch : list R) st,
    Rel st (set_table (foldl (upsertRow oc now) (table st) batch) st).

Definition rollbackKept (R : Type) `{Model R} : Prop :=
  forall st st', Rel st st' -> Rel st (set_table (table (R := R) st) st').

Lemma keeps_Create {R} `{Model R} (oc : OnConflict) (r : R) :
  upsertsKept R -> keeps (Create E oc r).
Proof.
  intros Hu. unfold Create. apply keeps_bind; [apply keeps_gets | intros now].
  apply keeps_bind; [apply keeps_dbStatement | intros _].
  apply keeps_modify. intros st. exact (Hu oc now [r] st).
Qed.

Lemma keeps_CreateInBatches {R} `{Model R} (oc : OnConflict) (rows : list R)
    (batchSize : nat) :
  upsertsKept R -> rollbackKept R -> keeps (CreateInBatches E oc rows batchSize).
Proof.
  intros Hu Hr. unfold CreateInBatches.
  assert (Hrun : keeps
    (forRange (fun _ batch =>
       let* now := gets clock in
       let* _ := dbStatement E (SqlUpsert TableName (primaryKey <$> batch)) in
       modify (fun st => set_table (foldl (upsertRow oc now) (table st) batch) st))
       0 (batches (length rows) batchSize rows))).
  { apply keeps_forRange. intros i batch.
    apply keeps_bind; [apply keeps_gets | intros now].
    apply keeps_bind; [apply keeps_dbStatement | intros _].
    apply keeps_modify. intros st. apply Hu. }
  destruct (length rows <=? batchSize)%nat; [exact Hrun|].
  intros st. unfold transaction. specialize (Hrun st).
  match goal with
  | |- Rel st (snd (match ?m st with _ => _ end)) =>
      destruct (m st) as [[[]|e] st1]
  end; cbn [snd] in *; [exact Hrun | now apply Hr].
Qed.

Lemma keeps_syncRewards :
  upsertsKept Reward.t -> rollbackKept Reward.t -> keeps (syncRewards E).
Proof.
  intros Hu Hr. unfold syncRewards.
  apply keeps_bind; [apply keeps_dbStatement | intros _].
  apply keeps_bind; [apply keeps_gets | intros flowerNames].
  apply keeps_bind; [apply keeps_emit | intros _].
  apply keeps_forRange. intros i flowerName.
  apply keeps_bind.
  { destruct (i mod 100 =? 0); [apply keeps_emit | apply keeps_ret]. }
  intros _. apply keeps_bind.
  { unfold getRewards. apply keeps_bind; [apply keeps_pollenAPICallWithRetries|].
    intros [rewardsByDate err]. apply keeps_ret. }
  intros [rewardItems err]. apply keeps_bind; [apply keeps_check | intros _].
  apply keeps_bind; [apply keeps_gets | intros oc].
  now apply keeps_CreateInBatches.
Qed.

(** *** Writes to the cache *)

Hypothesis Rel_cached : forall hex g st, Rel st (cached hex g st).

Lemma keeps_reverseGeocode (hex : string) : keeps (reverseGeocode E hex).
Proof.
  unfold reverseGeocode. apply keeps_bind; [apply keeps_gets | intros cache].
  destruct (cache !! hex); [apply keeps_ret|].
  apply keeps_bind; [apply keeps_emit | intros _].
  destruct (hexToLatLng E hex) as [lat lng].
  apply keeps_bind; [apply keeps_gets | intros now].
  apply keeps_bind; [apply keeps_emit | intros _].
  destruct (api_OSM E lat lng now); [apply keeps_throw|].
  apply keeps_bind; [|intros _; apply keeps_ret].
  apply keeps_modify. intros st. apply Rel_cached.
Qed.

Lemma keeps_initGeocodeCache : keeps (initGeocodeCache E).
Proof.
  unfold initGeocodeCache. apply keeps_forRange. intros i [[name column] rows].
  apply keeps_bind; [apply keeps_dbStatement | intros _].
  apply keeps_bind; [apply keeps_gets | intros records].
  apply keeps_forRange. intros j rec.
  apply keeps_modify. intros st. apply Rel_cached.
Qed.

Lemma keeps_syncFlowers :
  upsertsKept Flower.t -> rollbackKept Flower.t -> keeps (syncFlowers E).
Proof.
  intros Hu Hr. unfold syncFlowers, getAllFlowers.
  apply keeps_bind; [apply keeps_pollenAPICallWithRetries|].
  intros [flowerItems err]. apply keeps_bind; [apply keeps_check | intros _].
  apply keeps_bind; [apply keeps_emit | intros _].
  apply keeps_bind.
  { apply keeps_forRangeFill. intros i f.
    destruct (json_Marshal E (FlowerListItem.BeesSeen f)) as [beesSeen err'].
    apply keeps_bind; [apply keeps_check | intros _].
    apply keeps_bind; [apply keeps_reverseGeocode | intros geo; apply keeps_ret]. }
  intros flowers. apply keeps_bind; [apply keeps_gets | intros oc].
  now apply keeps_CreateInBatches.
Qed.

Lemma keeps_syncHexes (hexLocations : string) :
  upsertsKept Hex.t -> keeps (syncHexes E hexLocations).
Proof.
  intros Hu. unfold syncHexes, getAllHexes.
  apply keeps_bind; [apply keeps_pollenAPICallWithRetries|].
  intros [hexes err]. apply keeps_bind; [apply keeps_check | intros _].
  apply keeps_bind; [apply keeps_emit | intros _].
  apply keeps_forRange. intros i hex.
  apply keeps_bind.
  { destruct (i mod 100 =? 0); [apply keeps_emit | apply keeps_ret]. }
  intros _. apply keeps_bind; [apply keeps_pollenAPICallWithRetries|].
  intros [details err']. apply keeps_bind; [apply keeps_check | intros _].
  apply keeps_bind; [apply keeps_reverseGeocode | intros geo].
  apply keeps_bind; [apply keeps_gets | intros oc].
  now apply keeps_Create.
Qed.

Lemma keeps_main (args : list string) :
  upsertsKept Hex.t -> upsertsKept Flower.t -> rollbackKept Flower.t ->
  upsertsKept Reward.t -> rollbackKept Reward.t ->
  keeps (main E args).
Proof.
  intros HuH HuF HrF HuR HrR. unfold main.
  apply keeps_bind; [apply keeps_handleErr, keeps_dbStatement | intros _].
  apply keeps_bind.
  { apply keeps_forRange. intros i model. apply keeps_handleErr, keeps_dbStatement. }
  intros _. apply keeps_bind.
  { apply keeps_forRange. intros i idx. apply keeps_handleErr, keeps_dbStatement. }
  intros _.
  apply keeps_bind; [apply keeps_handleErr, keeps_initGeocodeCache | intros _].
  apply keeps_bind; [now apply keeps_handleErr, keeps_syncFlowers | intros _].
  apply keeps_bind; [now apply keeps_handleErr, keeps_syncRewards | intros _].
  apply keeps_forRange. intros i hexGroup.
  destruct (_ || _); [apply keeps_throw|].
  now apply keeps_handleErr, keeps_syncHexes.
Qed.

End Evolution.

(** *** Each sync routine writes its own table *)

Definition unchanged {A} (f : State -> A) (st st' : State) : Prop := f st' = f st.

Ltac solve_unchanged :=
  unfold unchanged, upsertsKept, rollbackKept; intros;
  first [ reflexivity | assumption | congruence ].

Lemma syncFlowers_unchanged (E : Env) {A} (f : State -> A) :
  (forall ev st, f (record ev st) = f st) ->
  (forall hex g st, f (cached hex g st) = f st) ->
  (forall tbl st, f (set_pollen_flowers tbl st) = f st) ->
  forall st, f (snd (syncFlowers E st)) = f st.
Proof.
  intros Hrec Hcached Htbl.
  apply (keeps_syncFlowers E (unchanged f)); unfold unchanged, upsertsKept, rollbackKept;
    intros; cbn [set_table Model_Flower];
    rewrite ?Hrec, ?Hcached, ?Htbl; solve_unchanged.
Qed.

Lemma syncRewards_unchanged (E : Env) {A} (f : State -> A) :
  (forall ev st, f (record ev st) = f st) ->
  (forall tbl st, f (set_pollen_rewards tbl st) = f st) ->
  forall st, f (snd (syncRewards E st)) = f st.
Proof.
  intros Hrec Htbl.
  apply (keeps_syncRewards E (unchanged f)); unfold unchanged, upsertsKept, rollbackKept;
    intros; cbn [set_table Model_Reward];
    rewrite ?Hrec, ?Htbl; solve_unchanged.
Qed.

Lemma syncHexes_unchanged (E : Env) {A} (f : State -> A) (hexLocations : string) :
  (forall ev st, f (record ev st) = f st) ->
  (forall hex g st, f (cached hex g st) = f st) ->
  (forall tbl st, f (set_pollen_hexes tbl st) = f st) ->
  forall st, f (snd (syncHexes E hexLocations st)) = f st.
Proof.
  intros Hrec Hcached Htbl.
  apply (keeps_syncHexes E (unchanged f)); unfold unchanged, upsertsKept;
    intros; cbn [set_table Model_Hex];
    rewrite ?Hrec, ?Hcached, ?Htbl; solve_unchanged.
Qed.

(** X9: each sync routine writes to its own table only, whether it succeeds
    or fails: [syncFlowers] leaves the Hex and Reward tables as they are,
    [syncRewards] the Hex and Flower tables and also the geocode cache (it
    never geocodes), [syncHexes] the Flower and Reward tables; and none of
    them touches [upsertClause]. *)
Theorem sync_routines_write_their_table (E : Env) (st : State) :
  (pollen_hexes (snd (syncFlowers E st)) = pollen_hexes st /\
   pollen_rewards (snd (syncFlowers E st)) = pollen_rewards st /\
   upsertClause (snd (syncFlowers E st)) = upsertClause st) /\
  (pollen_hexes (snd (syncRewards E st)) = pollen_hexes st /\
   pollen_flowers (snd (syncRewards E st)) = pollen_flowers st /\
   osmCache (snd (syncRewards E st)) = osmCache st /\
   upsertClause (snd (syncRewards E st)) = upsertClause st) /\
  (forall hexLocations,
     pollen_flowers (snd (syncHexes E hexLocations st)) = pollen_flowers st /\
     pollen_rewards (snd (syncHexes E hexLocations st)) = pollen_rewards st /\
     upsertClause (snd (syncHexes E hexLocations st)) = upsertClause st).
Proof.
  split; [|split].
  - repeat split; apply syncFlowers_unchanged; reflexivity.
  - repeat split; apply syncRewards_unchanged; reflexivity.
  - intros hexLocations. repeat split; apply syncHexes_unchanged; reflexivity.
Qed.

(** *** A run deletes no row *)

Lemma foldl_upsertRow_is_Some {R} `{Model R} (oc : OnConflict) (now : Time)
    (batch : list R) (tbl : gmap string R) (k : string) :
  is_Some (tbl !! k) -> is_Some (foldl (upsertRow oc now) tbl batch !! k).
Proof.
  revert tbl. induction batch as [|r batch IH]; intros tbl Hk; [exact Hk|].
  cbn [foldl]. apply IH. now apply upsertRow_is_Some.
Qed.

(** The rows of [st] are still rows of [st'] (under the same keys), and the
    clause is the same. *)
Definition rowsKept (st st' : State) : Prop :=
  upsertClause st' = upsertClause st /\
  forall id,
    (is_Some (pollen_hexes st !! id) -> is_Some (pollen_hexes st' !! id)) /\
    (is_Some (pollen_flowers st !! id) -> is_Some (pollen_flowers st' !! id)) /\
    (is_Some (pollen_rewards st !! id) -> is_Some (pollen_rewards st' !! id)).

Lemma rowsKept_refl (st : State) : rowsKept st st.
Proof. split; [reflexivity | intros id; auto]. Qed.

Lemma rowsKept_trans (st1 st2 st3 : State) :
  rowsKept st1 st2 -> rowsKept st2 st3 -> rowsKept st1 st3.
Proof.
  intros [Hc1 H1] [Hc2 H2]. split; [congruence|]. intros id.
  destruct (H1 id) as [? [? ?]], (H2 id) as [? [? ?]]. auto.
Qed.

Lemma rowsKept_upserts {R} `{Model R} :
  (forall (tbl : gmap string R) st,
     (forall id, is_Some (table st !! id) -> is_Some (tbl !! id)) ->
     rowsKept st (set_table tbl st)) ->
  upsertsKept rowsKept R.
Proof.
  intros Hset oc now batch st. apply Hset. intros id.
  apply foldl_upsertRow_is_Some.
Qed.

(** X10: a run never deletes a row: every key present in the Hex, Flower or
    Reward table when [main] starts is present in that table when [main]
    ends, normally or with a panic; and [upsertClause] is never reassigned,
    so every conflicting upsert of the run writes the instant of its
    initialisation. *)
Theorem main_deletes_no_row (E : Env) (args : list string) (st : State) :
  upsertClause (snd (main E args st)) = upsertClause st /\
  forall id,
    (is_Some (pollen_hexes st !! id) ->
     is_Some (pollen_hexes (snd (main E args st)) !! id)) /\
    (is_Some (pollen_flowers st !! id) ->
     is_Some (pollen_flowers (snd (main E args st)) !! id)) /\
    (is_Some (pollen_rewards st !! id) ->
     is_Some (pollen_rewards (snd (main E args st)) !! id)).
Proof.
  change (rowsKept st (snd (main E args st))).
  apply (keeps_main E rowsKept rowsKept_refl rowsKept_trans).
  - intros ev st0. split; [reflexivity | intros id; cbn; auto].
  - intros hex g st0. split; [reflexivity | intros id; cbn; auto].
  - apply (rowsKept_upserts (R := Hex.t)). intros tbl st0 Hk.
    split; [reflexivity | intros id; cbn; repeat split; auto].
  - apply (rowsKept_upserts (R := Flower.t)). intros tbl st0 Hk.
    split; [reflexivity | intros id; cbn; repeat split; auto].
  - intros st0 st1 [Hc Hr]. split; [exact Hc|]. intros id.
    destruct (Hr id) as [? [? ?]]. cbn. repeat split; auto.
  - apply (rowsKept_upserts (R := Reward.t)). intros tbl st0 Hk.
    split; [reflexivity | intros id; cbn; repeat split; auto].
  - intros st0 st1 [Hc Hr]. split; [exact Hc|]. intros id.
    destruct (Hr id) as [? [? ?]]. cbn. repeat split; auto.
Qed.

(** ** A hex sync that goes well *)

(** The body of the loop of [syncHexes], [n] the number of hexes listed. *)
Definition syncHexes_body (E : Env) (n : nat) (i : Z) (hex : HexListItem.t) : M unit :=
  let* _ :=
    if i mod 100 =? 0
    then emit (EvPrintf "Hex progress: %v / %v\n" [ArgInt i; ArgInt (Z.of_nat n)])
    else ret tt in
  let* (details, err) := getHexDetails E (HexListItem.ID hex) in
  let* _ := check err in
  let* geo := reverseGeocode E (HexListItem.ID hex) in
  let* oc := gets upsertClause in
  Create E oc (hexOfItem hex geo details).

(** The cache only grows. *)
Definition cacheGrows (st st' : State) : Prop :=
  forall k g, osmCache st !! k = Some g -> osmCache st' !! k = Some g.

Section HexSync.

Context (E : Env) (t0 : Time).

(** Every upstream answers and the store accepts every statement. *)
Hypothesis details_answered : forall url t, exists d, api_HexItem E url t = inr d.
Hypothesis places_answered : forall lat lng t, exists p, api_OSM E lat lng t = inr p.
Hypothesis store_accepts : forall t, db_error E t = None.

Lemma reverseGeocode_answered (hex : string) (st : State) :
  exists geo st',
    reverseGeocode E hex st = (Ok geo, st') /\
    pollen_hexes st' = pollen_hexes st /\
    upsertClause st' = upsertClause st /\
    osmCache st' !! hex = Some geo /\
    cacheGrows st st' /\
    clock st <= clock st'.
Proof.
  unfold reverseGeocode, bind, gets.
  destruct (osmCache st !! hex) as [g|] eqn:Hc.
  - exists g, st. repeat split; auto; [intros k g' Hk; exact Hk | lia].
  - destruct (hexToLatLng E hex) as [lat lng].
    unfold emit, modify, ret, throw. cbn [fst snd].
    destruct (places_answered lat lng (clock (record (EvTake "osm") st))) as [p ->].
    eexists _, _. split; [reflexivity|]. split; [reflexivity|].
    split; [reflexivity|]. split; [apply lookup_insert_eq|]. split.
    + intros k g' Hk. cbn. rewrite lookup_insert_ne; [exact Hk | congruence].
    + cbn. lia.
Qed.

(** One iteration: the details are those the hex endpoint answers for the
    hex during the iteration, the place is the one the cache then holds for
    it, and the timestamp is the instant of the clause or one of the
    iteration. *)
Lemma syncHexes_body_answered (n : nat) (i : Z) (hex : HexListItem.t) (st : State) :
  upsertClause st = upsertClause_init t0 ->
  exists st' geo details ts t,
    syncHexes_body E n i hex st = (Ok tt, st') /\
    upsertClause st' = upsertClause_init t0 /\
    cacheGrows st st' /\
    clock st <= clock st' /\
    osmCache st' !! HexListItem.ID hex = Some geo /\
    clock st <= t <= clock st' /\
    api_HexItem E (pollenAPIHex +:+ HexListItem.ID hex) t = inr details /\
    (ts = t0 \/ clock st <= ts <= clock st') /\
    pollen_hexes st'
    = <[HexListItem.ID hex := setUpdatedAt ts (hexOfItem hex geo details)]>
        (pollen_hexes st).
Proof.
  intros Hclause. unfold syncHexes_body.
  set (st0 := snd ((if i mod 100 =? 0
                    then emit (EvPrintf "Hex progress: %v / %v\n"
                                 [ArgInt i; ArgInt (Z.of_nat n)])
                    else ret tt) st)).
  assert (H0 : (if i mod 100 =? 0
                then emit (EvPrintf "Hex progress: %v / %v\n"
                             [ArgInt i; ArgInt (Z.of_nat n)])
                else ret tt) st = (Ok tt, st0) /\
               pollen_hexes st0 = pollen_hexes st /\
               upsertClause st0 = upsertClause st /\
               osmCache st0 = osmCache st /\
               clock st <= clock st0).
  { subst st0. destruct (i mod 100 =? 0); cbn; repeat split; lia. }
  destruct H0 as [Hst0 [Hh0 [Hc0 [Ho0 Ht0]]]].
  unfold bind at 1. rewrite Hst0.
  destruct (details_answered (pollenAPIHex +:+ HexListItem.ID hex) (clock st0 + 1))
    as [details Hd].
  pose proof Hd as Hanswer.
  change (respond E (pollenAPIHex +:+ HexListItem.ID hex) (clock st0 + 1)
          = inr details) in Hd.
  unfold bind at 1. unfold getHexDetails.
  rewrite (pollenAPICallWithRetries_first E (T := HexItem.t)
             (pollenAPIHex +:+ HexListItem.ID hex) details st0 Hd).
  unfold bind at 1. cbn [check]. unfold ret at 1.
  set (st1 := record _ (record _ st0)).
  assert (Ht1 : clock st1 = clock st0 + 2) by (subst st1; cbn; lia).
  destruct (reverseGeocode_answered (HexListItem.ID hex) st1)
    as [geo [st2 [Hg [Hh2 [Hc2 [Hentry [Hgrow Ht2]]]]]]].
  unfold bind at 1. rewrite Hg.
  unfold bind at 1. unfold gets at 1.
  unfold Create, bind, gets, dbStatement, bind, gets, emit, modify, ret.
  rewrite store_accepts. cbn [fst snd].
  assert (Hoc : upsertClause st2 = upsertClause_init t0).
  { rewrite Hc2. subst st1. cbn [upsertClause record]. congruence. }
  rewrite Hoc.
  pose proof (upsertRow_stored (R := Hex.t) t0 (clock st2) (pollen_hexes st2)
                (hexOfItem hex geo details)) as Hstored.
  destruct (Hstored eq_refl) as [ts [Hts Hup]].
  eexists _, geo, details, ts, (clock st0 + 1). split; [reflexivity|].
  cbn [upsertClause pollen_hexes osmCache clock set_table Model_Hex
       set_pollen_hexes record table duration].
  split; [exact Hoc|].
  split.
  { intros k g Hk. apply Hgrow. subst st1. cbn [osmCache record]. now rewrite Ho0. }
  split; [lia|]. split; [exact Hentry|]. split; [lia|]. split; [exact Hanswer|].
  split; [destruct Hts as [-> | ->]; [right; lia | now left]|].
  cbn [primaryKey Model_Hex hexOfItem Hex.ID] in Hup.
  change (table (record (EvSQL (SqlUpsert TableName [primaryKey (hexOfItem hex geo details)])) st2))
    with (pollen_hexes st2).
  rewrite Hup, Hh2. subst st1. cbn [pollen_hexes record]. now rewrite Hh0.
Qed.

(** The loop over the listed hexes: it ends normally; rows under other
    keys are untouched; every listed hex has its row, built from the last
    listed item with its ID. *)
Lemma syncHexes_loop_answered (n : nat) (todo : list HexListItem.t) :
  forall i st,
    upsertClause st = upsertClause_init t0 ->
    exists st',
      forRange (syncHexes_body E n) i todo st = (Ok tt, st') /\
      upsertClause st' = upsertClause_init t0 /\
      cacheGrows st st' /\
      clock st <= clock st' /\
      (forall k, k ∉ HexListItem.ID <$> todo ->
                 pollen_hexes st' !! k = pollen_hexes st !! k) /\
      (forall hex, hex ∈ todo ->
         exists pre hex' post geo details ts t,
           todo = pre ++ hex' :: post /\
           HexListItem.ID hex' = HexListItem.ID hex /\
           (HexListItem.ID hex ∉ HexListItem.ID <$> post) /\
           osmCache st' !! HexListItem.ID hex = Some geo /\
           clock st <= t <= clock st' /\
           api_HexItem E (pollenAPIHex +:+ HexListItem.ID hex) t = inr details /\
           (ts = t0 \/ clock st <= ts <= clock st') /\
           pollen_hexes st' !! HexListItem.ID hex
           = Some (setUpdatedAt ts (hexOfItem hex' geo details))).
Proof.
  induction todo as [|hex0 todo IH]; intros i st Hclause.
  - exists st. split; [reflexivity|]. split; [exact Hclause|].
    split; [intros k g Hk; exact Hk|]. split; [lia|]. split; [reflexivity|].
    intros hex Hin. inversion Hin.
  - destruct (syncHexes_body_answered n i hex0 st Hclause)
      as [st1 [geo0 [d0 [ts0 [t1 [Hbody [Hc1 [Hgrow1 [Hclock1 [Hentry1
            [Ht1 [Hanswer1 [Hts0 Htbl1]]]]]]]]]]]]].
    destruct (IH (i + 1) st1 Hc1)
      as [st' [Hloop [Hc' [Hgrow [Hclock [Hother Hrows]]]]]].
    exists st'. cbn [forRange]. unfold bind. rewrite Hbody.
    split; [exact Hloop|]. split; [exact Hc'|].
    split; [intros k g Hk; apply Hgrow, Hgrow1, Hk|]. split; [lia|]. split.
    + intros k Hk. cbn [fmap list_fmap] in Hk.
      apply not_elem_of_cons in Hk as [Hne Hk].
      rewrite (Hother k Hk), Htbl1. now rewrite lookup_insert_ne.
    + intros hex Hin.
      destruct (decide (HexListItem.ID hex ∈ HexListItem.ID <$> todo)) as [Hdup|Hnew].
      * apply list_elem_of_fmap in Hdup as [hex1 [Hid Hin1]].
        destruct (Hrows hex1 Hin1)
          as [pre [hex' [post [geo [d [ts [t [Htodo [Hid' [Hlast [Hgeo [Ht
                [Hanswer [Hts Hrow]]]]]]]]]]]]]].
        rewrite <- Hid in Hid', Hlast, Hgeo, Hanswer, Hrow.
        exists (hex0 :: pre), hex', post, geo, d, ts, t.
        split; [now rewrite Htodo|]. split; [exact Hid'|]. split; [exact Hlast|].
        split; [exact Hgeo|]. split; [lia|]. split; [exact Hanswer|].
        split; [destruct Hts as [-> | Hts]; [now left | right; lia]|]. exact Hrow.
      * assert (Hid : HexListItem.ID hex = HexListItem.ID hex0).
        { apply elem_of_cons in Hin as [-> | Hin]; [reflexivity|].
          exfalso. apply Hnew. apply list_elem_of_fmap. eauto. }
        rewrite Hid in Hnew |- *.
        exists [], hex0, todo, geo0, d0, ts0, t1.
        split; [reflexivity|]. split; [reflexivity|]. split; [exact Hnew|].
        split; [now apply Hgrow|]. split; [lia|]. split; [exact Hanswer1|].
        split; [destruct Hts0 as [-> | Hts0]; [now left | right; lia]|].
        rewrite (Hother _ Hnew), Htbl1. apply lookup_insert_eq.
Qed.

End HexSync.

Lemma syncHexes_unfold (E : Env) (hexLocations : string) :
  syncHexes E hexLocations
  = (let* (hexes, err) := getAllHexes E hexLocations in
     let* _ := check err in
     let* _ := emit (EvPrintf "Found %v hexes\n" [ArgInt (Z.of_nat (length hexes))]) in
     forRange (syncHexes_body E (length hexes)) 0 hexes).
Proof. reflexivity. Qed.

(** X11: when the hex list of the area is served, every hex detail request
    and every geocoding request is answered and the store accepts every
    statement, [syncHexes] ends without error and every listed hex has a row
    under its ID.  That row is built from the last listed item with that
    ID, from the details the hex endpoint answered for that hex at an
    instant of the call, and from the place the cache holds for the hex
    when the call ends; its timestamp is the instant of [upsertClause] or
    an instant of the call.  The rows of the other hexes are untouched. *)
Theorem syncHexes_stores_listed_hexes (E : Env) (t0 : Time) (hexLocations : string)
    (hexes : list HexListItem.t) (st : State) :
  api_HexList E (pollenAPIHexes +:+ hexLocations) (clock st + 1) = inr hexes ->
  (forall url t, exists d, api_HexItem E url t = inr d) ->
  (forall lat lng t, exists p, api_OSM E lat lng t = inr p) ->
  (forall t, db_error E t = None) ->
  upsertClause st = upsertClause_init t0 ->
  fst (syncHexes E hexLocations st) = Ok tt /\
  (forall hex, hex ∈ hexes ->
     exists pre hex' post geo details ts t,
       hexes = pre ++ hex' :: post /\
       HexListItem.ID hex' = HexListItem.ID hex /\
       (HexListItem.ID hex ∉ HexListItem.ID <$> post) /\
       osmCache (snd (syncHexes E hexLocations st)) !! HexListItem.ID hex = Some geo /\
       clock st <= t <= clock (snd (syncHexes E hexLocations st)) /\
       api_HexItem E (pollenAPIHex +:+ HexListItem.ID hex) t = inr details /\
       (ts = t0 \/ clock st <= ts <= clock (snd (syncHexes E hexLocations st))) /\
       pollen_hexes (snd (syncHexes E hexLocations st)) !! HexListItem.ID hex
       = Some (setUpdatedAt ts (hexOfItem hex' geo details))) /\
  (forall k, k ∉ HexListItem.ID <$> hexes ->
     pollen_hexes (snd (syncHexes E hexLocations st)) !! k = pollen_hexes st !! k).
Proof.
  intros Hlist Hitem Hosm Hdb Hclause.
  change (respond E (pollenAPIHexes +:+ hexLocations) (clock st + 1) = inr hexes)
    in Hlist.
  set (st1 := record (EvPrintf "Found %v hexes\n" [ArgInt (Z.of_nat (length hexes))])
                (record (EvPollenGet (pollenAPIHexes +:+ hexLocations))
                   (record (EvTake "pollen") st))).
  assert (Hclock1 : clock st <= clock st1) by (subst st1; cbn; lia).
  destruct (syncHexes_loop_answered E t0 Hitem Hosm Hdb (length hexes) hexes 0 st1)
    as [st' [Hloop [_ [_ [Hclock [Hother Hrows]]]]]].
  { subst st1. exact Hclause. }
  assert (Hrun : syncHexes E hexLocations st = (Ok tt, st')).
  { rewrite syncHexes_unfold. unfold bind at 1. unfold getAllHexes.
    rewrite (pollenAPICallWithRetries_first E (T := list HexListItem.t)
               (pollenAPIHexes +:+ hexLocations) hexes st Hlist).
    unfold bind at 1. cbn [check]. unfold ret at 1.
    unfold bind at 1. unfold emit at 1, modify at 1.
    fold st1. exact Hloop. }
  rewrite Hrun. cbn [fst snd]. split; [reflexivity|]. split.
  - intros hex Hin.
    destruct (Hrows hex Hin)
      as [pre [hex' [post [geo [d [ts [t [Hhexes [Hid [Hlast [Hgeo [Ht
            [Hanswer [Hts Hrow]]]]]]]]]]]]]].
    exists pre, hex', post, geo, d, ts, t.
    split; [exact Hhexes|]. split; [exact Hid|]. split; [exact Hlast|].
    split; [exact Hgeo|]. split; [lia|]. split; [exact Hanswer|].
    split; [destruct Hts as [-> | Hts]; [now left | right; lia]|]. exact Hrow.
  - intros k Hk. rewrite (Hother k Hk). reflexivity.
Qed.

Lemma syncHexes_stores_listed_hexes_witness :
  fst (syncHexes hexWorld "852a1393fffffff" emptyStore) = Ok tt /\
  is_Some (pollen_hexes (snd (syncHexes hexWorld "852a1393fffffff" emptyStore))
             !! "8c2a1072b59a1ff").
Proof.
  destruct (syncHexes_stores_listed_hexes hexWorld 1000 "852a1393fffffff"
              [HexListItem.mk "8c2a1072b59a1ff" 1 1] emptyStore)
    as [Hok [Hrows _]].
  - reflexivity.
  - intros url t. eexists. reflexivity.
  - intros lat lng t. eexists. reflexivity.
  - reflexivity.
  - reflexivity.
  - split; [exact Hok|].
    destruct (Hrows (HexListItem.mk "8c2a1072b59a1ff" 1 1))
      as [pre [hex' [post [geo [d [ts [t [_ [_ [_ [_ [_ [_ [_ Hrow]]]]]]]]]]]]]];
      [now left|].
    exact (ex_intro _ _ Hrow).
Defined.

(** ** A flower sync that goes well *)

Section Upserted.

Context {R : Type} `{ModelLaws R}.

(** [tbl'] is [tbl] after the upsert of [rows]: the other keys are
    untouched, and the key of every row holds one of the rows with that key,
    the timestamp aside. *)
Definition upserted (rows : list R) (tbl tbl' : gmap string R) : Prop :=
  (forall k, k ∉ primaryKey <$> rows -> tbl' !! k = tbl !! k) /\
  (forall r, r ∈ rows ->
     exists r' ts, r' ∈ rows /\ primaryKey r' = primaryKey r /\
       tbl' !! primaryKey r = Some (setUpdatedAt ts r')).

Lemma upserted_nil (tbl : gmap string R) : upserted [] tbl tbl.
Proof. split; [reflexivity|]. intros r Hr. inversion Hr. Qed.

Lemma upserted_app (l1 l2 : list R) (tbl tbl1 tbl' : gmap string R) :
  upserted l1 tbl tbl1 -> upserted l2 tbl1 tbl' -> upserted (l1 ++ l2) tbl tbl'.
Proof.
  intros [Ho1 Hr1] [Ho2 Hr2]. split.
  - intros k Hk. rewrite fmap_app, elem_of_app in Hk.
    rewrite Ho2, Ho1; [reflexivity| |]; intros Hin; apply Hk; auto.
  - intros r Hr.
    destruct (decide (primaryKey r ∈ primaryKey <$> l2)) as [Hin2|Hnot2].
    + apply list_elem_of_fmap in Hin2 as [r2 [Hid Hin2]].
      destruct (Hr2 r2 Hin2) as [r' [ts [Hin' [Hid' Hrow]]]].
      exists r', ts. split; [apply elem_of_app; now right|].
      split; [congruence|]. now rewrite Hid.
    + assert (Hin1 : r ∈ l1).
      { apply elem_of_app in Hr as [Hin1|Hin2]; [assumption|].
        exfalso. apply Hnot2. apply list_elem_of_fmap. eauto. }
      destruct (Hr1 r Hin1) as [r' [ts [Hin' [Hid' Hrow]]]].
      exists r', ts. split; [apply elem_of_app; now left|].
      split; [assumption|]. now rewrite Ho2.
Qed.

Lemma upserted_one (t0 now : Time) (tbl : gmap string R) (r : R) :
  getUpdatedAt r = Time_zero ->
  upserted [r] tbl (upsertRow (upsertClause_init t0) now tbl r).
Proof.
  intros Hz. destruct (upsertRow_stored t0 now tbl r Hz) as [ts [_ ->]]. split.
  - intros k Hk. cbn in Hk. apply not_elem_of_cons in Hk as [Hne _].
    now rewrite lookup_insert_ne.
  - intros r' Hr'. apply list_elem_of_singleton in Hr' as ->.
    exists r, ts. split; [now left|]. split; [reflexivity|]. apply lookup_insert_eq.
Qed.

(** The rows of one statement. *)
Lemma upserted_foldl (t0 now : Time) (rows : list R) :
  Forall (fun r => getUpdatedAt r = Time_zero) rows ->
  forall tbl, upserted rows tbl (foldl (upsertRow (upsertClause_init t0) now) tbl rows).
Proof.
  induction 1 as [|r rows Hz Hrows IH]; intros tbl; cbn [foldl].
  - apply upserted_nil.
  - apply (upserted_app [r] rows tbl (upsertRow (upsertClause_init t0) now tbl r));
      [apply upserted_one; exact Hz | apply IH].
Qed.

End Upserted.

(** The batches of [CreateInBatches] are the rows, in order. *)
Lemma concat_batches {A} (size : nat) :
  (0 < size)%nat ->
  forall fuel (l : list A), (length l <= fuel)%nat -> concat (batches fuel size l) = l.
Proof.
  intros Hs. induction fuel as [|fuel IH]; intros l Hl.
  - destruct l; [reflexivity | cbn in Hl; lia].
  - destruct l as [|x l]; [reflexivity|]. cbn [batches concat].
    rewrite IH; [apply take_drop|]. rewrite length_drop. cbn [length] in *. lia.
Qed.

Section Accepted.

Context (E : Env) {R : Type} `{ModelLaws R} (t0 : Time).

Hypothesis store_accepts : forall t, db_error E t = None.

Lemma batchLoop_accepted (bs : list (list R)) :
  Forall (fun r => getUpdatedAt r = Time_zero) (concat bs) ->
  forall i st, exists st',
    forRange (fun _ batch =>
      let* now := gets clock in
      let* _ := dbStatement E (SqlUpsert TableName (primaryKey <$> batch)) in
      modify (fun st => set_table
                (foldl (upsertRow (upsertClause_init t0) now) (table st) batch) st))
      i bs st = (Ok tt, st') /\
    upserted (concat bs) (table st) (table st').
Proof.
  induction bs as [|b bs IH]; intros Hz i st; cbn [forRange concat].
  - exists st. split; [reflexivity | apply upserted_nil].
  - cbn [concat] in Hz. apply Forall_app in Hz as [Hb Hbs].
    unfold bind at 1. unfold bind at 1. unfold gets at 1.
    unfold bind at 1. unfold dbStatement, bind, gets, emit, modify, ret.
    rewrite store_accepts.
    match goal with
    | |- exists st', forRange _ _ _ ?s = _ /\ _ =>
        destruct (IH Hbs (i + 1) s) as [st' [Hloop Hup]]
    end.
    exists st'. split; [exact Hloop|].
    rewrite table_set_table, table_record in Hup.
    exact (upserted_app _ _ _ _ _ (upserted_foldl t0 (clock st) b Hb (table st)) Hup).
Qed.

(** [CreateInBatches] on an accepting store: no error, and the rows are
    upserted. *)
Lemma CreateInBatches_accepted (rows : list R) (batchSize : nat) (st : State) :
  (0 < batchSize)%nat ->
  Forall (fun r => getUpdatedAt r = Time_zero) rows ->
  exists st',
    CreateInBatches E (upsertClause_init t0) rows batchSize st = (Ok tt, st') /\
    upserted rows (table st) (table st').
Proof.
  intros Hs Hz. unfold CreateInBatches.
  destruct (batchLoop_accepted (batches (length rows) batchSize rows)) with (i := 0) (st := st)
    as [st' [Hrun Hup]].
  { rewrite concat_batches; auto. }
  rewrite concat_batches in Hup by auto.
  exists st'. destruct (length rows <=? batchSize)%nat; [|unfold transaction];
    rewrite Hrun; auto.
Qed.

End Accepted.

(** The body of the loop of [syncFlowers]. *)
Definition syncFlowers_body (E : Env) (i : Z) (f : FlowerListItem.t) : M Flower.t :=
  let '(beesSeen, err) := json_Marshal E (FlowerListItem.BeesSeen f) in
  let* _ := check err in
  let* geo := reverseGeocode E (FlowerListItem.H3Hex f) in
  ret (flowerOfItem f geo beesSeen).

Lemma syncFlowers_unfold (E : Env) :
  syncFlowers E
  = (let* (flowerItems, err) := getAllFlowers E in
     let* _ := check err in
     let* _ := emit (EvPrintf "Found %v flowers\n" [ArgInt (Z.of_nat (length flowerItems))]) in
     let* flowers := forRangeFill (syncFlowers_body E) 0 flowerItems in
     let* oc := gets upsertClause in
     CreateInBatches E oc flowers 200).
Proof. reflexivity. Qed.

(** The row built from a flower item and the cache entry of its cell. *)
Definition flowerRow (E : Env) (cache : gmap string ReverseGeocode.t)
    (f : FlowerListItem.t) (row : Flower.t) : Prop :=
  exists geo, cache !! FlowerListItem.H3Hex f = Some geo /\
    row = flowerOfItem f geo (fst (json_Marshal E (FlowerListItem.BeesSeen f))).

Lemma Forall2_elem_of_r {A B} (P : A -> B -> Prop) (l : list A) (k : list B) :
  Forall2 P l k -> forall y, y ∈ k -> exists x, x ∈ l /\ P x y.
Proof.
  induction 1 as [|x y l k HP _ IH]; intros y' Hy.
  - inversion Hy.
  - apply elem_of_cons in Hy as [-> | Hy].
    + exists x. split; [now left | exact HP].
    + destruct (IH y' Hy) as [x' [Hx' HP']]. exists x'. split; [now right | exact HP'].
Qed.

Lemma Forall2_elem_of_l {A B} (P : A -> B -> Prop) (l : list A) (k : list B) :
  Forall2 P l k -> forall x, x ∈ l -> exists y, y ∈ k /\ P x y.
Proof.
  induction 1 as [|x y l k HP _ IH]; intros x' Hx.
  - inversion Hx.
  - apply elem_of_cons in Hx as [-> | Hx].
    + exists y. split; [now left | exact HP].
    + destruct (IH x' Hx) as [y' [Hy' HP']]. exists y'. split; [now right | exact HP'].
Qed.

Section FlowerSync.

Context (E : Env) (t0 : Time).

(** Every geocoding request is answered, the marshalling of the bee counts
    succeeds, and the store accepts every statement. *)
Hypothesis places_answered : forall lat lng t, exists p, api_OSM E lat lng t = inr p.
Hypothesis marshalled : forall m, snd (json_Marshal E m) = None.
Hypothesis store_accepts : forall t, db_error E t = None.

Lemma reverseGeocode_cached (hex : string) (st : State) :
  exists geo st',
    reverseGeocode E hex st = (Ok geo, st') /\
    osmCache st' !! hex = Some geo /\
    cacheGrows st st' /\
    pollen_flowers st' = pollen_flowers st /\
    upsertClause st' = upsertClause st.
Proof.
  unfold reverseGeocode, bind, gets.
  destruct (osmCache st !! hex) as [g|] eqn:Hc.
  - exists g, st. repeat split; auto. intros k g' Hk. exact Hk.
  - destruct (hexToLatLng E hex) as [lat lng].
    unfold emit, modify, ret, throw. cbn [fst snd].
    destruct (places_answered lat lng (clock (record (EvTake "osm") st))) as [p ->].
    eexists _, _. split; [reflexivity|]. split; [apply lookup_insert_eq|].
    split; [|split; reflexivity].
    intros k g' Hk. cbn. rewrite lookup_insert_ne; [exact Hk | congruence].
Qed.

Lemma syncFlowers_loop_answered (items : list FlowerListItem.t) :
  forall i st,
    exists flowers st',
      forRangeFill (syncFlowers_body E) i items st = (Ok flowers, st') /\
      cacheGrows st st' /\
      pollen_flowers st' = pollen_flowers st /\
      upsertClause st' = upsertClause st /\
      Forall2 (flowerRow E (osmCache st')) items flowers.
Proof.
  induction items as [|f items IH]; intros i st.
  - exists [], st. split; [reflexivity|]. split; [intros k g Hk; exact Hk|].
    repeat split. constructor.
  - cbn [forRangeFill]. unfold bind at 1. unfold syncFlowers_body at 1.
    pose proof (marshalled (FlowerListItem.BeesSeen f)) as Hm.
    destruct (json_Marshal E (FlowerListItem.BeesSeen f)) as [bees err] eqn:Hj.
    cbn [snd] in Hm. subst err. cbn [check]. unfold bind at 1. unfold ret at 1.
    destruct (reverseGeocode_cached (FlowerListItem.H3Hex f) st)
      as [geo [st1 [Hg [Hentry [Hgrow1 [Hf1 Hc1]]]]]].
    unfold bind at 1. rewrite Hg. unfold ret at 1.
    destruct (IH (i + 1) st1) as [flowers [st' [Hloop [Hgrow [Hf' [Hc' Hrows]]]]]].
    unfold bind at 1. rewrite Hloop. unfold ret.
    exists (flowerOfItem f geo bees :: flowers), st'. split; [reflexivity|].
    split; [intros k g Hk; apply Hgrow, Hgrow1, Hk|].
    split; [congruence|]. split; [congruence|].
    constructor; [|exact Hrows].
    exists geo. split; [apply Hgrow, Hentry|]. now rewrite Hj.
Qed.

End FlowerSync.

(** X12: when the flower list is served, every geocoding request is
    answered, the bee counts are marshalled and the store accepts every
    statement, [syncFlowers] ends without error and every listed flower has
    a row under its ID: the row built from a listed item with that ID and
    from the place the cache holds for the cell of that item, the timestamp
    aside; the rows of the other flowers are untouched. *)
Theorem syncFlowers_stores_listed_flowers (E : Env) (t0 : Time)
    (items : list FlowerListItem.t) (st : State) :
  api_FlowerList E pollenAPIFlowers (clock st + 1) = inr items ->
  (forall lat lng t, exists p, api_OSM E lat lng t = inr p) ->
  (forall m, snd (json_Marshal E m) = None) ->
  (forall t, db_error E t = None) ->
  upsertClause st = upsertClause_init t0 ->
  fst (syncFlowers E st) = Ok tt /\
  (forall f, f ∈ items ->
     exists f' geo ts,
       f' ∈ items /\ FlowerListItem.ID f' = FlowerListItem.ID f /\
       osmCache (snd (syncFlowers E st)) !! FlowerListItem.H3Hex f' = Some geo /\
       pollen_flowers (snd (syncFlowers E st)) !! FlowerListItem.ID f
       = Some (setUpdatedAt ts
                 (flowerOfItem f' geo
                    (fst (json_Marshal E (FlowerListItem.BeesSeen f')))))) /\
  (forall k, k ∉ FlowerListItem.ID <$> items ->
     pollen_flowers (snd (syncFlowers E st)) !! k = pollen_flowers st !! k).
Proof.
  intros Hlist Hosm Hmarshal Hdb Hclause.
  change (respond E pollenAPIFlowers (clock st + 1) = inr items) in Hlist.
  set (st1 := record (EvPrintf "Found %v flowers\n" [ArgInt (Z.of_nat (length items))])
                (record (EvPollenGet pollenAPIFlowers)
                   (record (EvTake "pollen") st))).
  destruct (syncFlowers_loop_answered E Hosm Hmarshal items 0 st1)
    as [flowers [st2 [Hloop [_ [Hf2 [Hc2 Hrows]]]]]].
  assert (Hz : Forall (fun r : Flower.t => getUpdatedAt r = Time_zero) flowers).
  { apply Forall_forall. intros row Hrow.
    destruct (Forall2_elem_of_r _ _ _ Hrows row Hrow) as [f [_ [geo [_ ->]]]].
    reflexivity. }
  destruct (CreateInBatches_accepted E (R := Flower.t) t0 Hdb flowers 200 st2)
    as [st3 [Hcreate [Hother Hstored]]]; [lia | exact Hz |].
  assert (Hcache : osmCache st3 = osmCache st2).
  { pose proof (keeps_CreateInBatches E (fun s s' => osmCache s' = osmCache s)
                  (fun _ => eq_refl) (fun _ _ _ H1 H2 => eq_trans H2 H1)
                  (fun _ _ => eq_refl) (R := Flower.t) (upsertClause_init t0) flowers 200) as Hk.
    specialize (Hk (fun _ _ _ _ => eq_refl) (fun _ _ Hr => Hr) st2).
    rewrite Hcreate in Hk. exact Hk. }
  assert (Hrun : syncFlowers E st = (Ok tt, st3)).
  { rewrite syncFlowers_unfold. unfold bind at 1. unfold getAllFlowers.
    rewrite (pollenAPICallWithRetries_first E (T := list FlowerListItem.t)
               pollenAPIFlowers items st Hlist).
    unfold bind at 1. cbn [check]. unfold ret at 1.
    unfold bind at 1. unfold emit at 1, modify at 1. fold st1.
    unfold bind at 1. rewrite Hloop.
    unfold bind at 1. unfold gets at 1. rewrite Hc2.
    replace (upsertClause st1) with (upsertClause_init t0) by (symmetry; exact Hclause).
    exact Hcreate. }
  rewrite Hrun. cbn [fst snd]. split; [reflexivity|]. split.
  - intros f Hf.
    destruct (Forall2_elem_of_l _ _ _ Hrows f Hf) as [row [Hrow [geo [_ Hbuilt]]]].
    destruct (Hstored row Hrow) as [row' [ts [Hrow' [Hid Hlookup]]]].
    destruct (Forall2_elem_of_r _ _ _ Hrows row' Hrow') as [f' [Hf' [geo' [Hgeo' Hbuilt']]]].
    exists f', geo', ts. split; [exact Hf'|].
    subst row row'. cbn [primaryKey Model_Flower flowerOfItem Flower.ID] in Hid, Hlookup.
    split; [exact Hid|]. split; [now rewrite Hcache|]. exact Hlookup.
  - intros k Hk.
    change (table (R := Flower.t) st3 !! k = pollen_flowers st !! k).
    rewrite Hother.
    + change (pollen_flowers st2 !! k = pollen_flowers st !! k). now rewrite Hf2.
    + intros Hin. apply Hk. apply list_elem_of_fmap in Hin as [row [-> Hrow]].
      destruct (Forall2_elem_of_r _ _ _ Hrows row Hrow) as [f [Hf [geo [_ ->]]]].
      apply list_elem_of_fmap. exists f. split; [reflexivity | exact Hf].
Qed.

Lemma syncFlowers_stores_listed_flowers_witness :
  fst (syncFlowers twoFlowers emptyStore) = Ok tt /\
  is_Some (pollen_flowers (snd (syncFlowers twoFlowers emptyStore)) !! "flower-2").
Proof.
  destruct (syncFlowers_stores_listed_flowers twoFlowers 1000
              [ sampleFlowerItem "flower-1" "8c2a1072b59a1ff";
                sampleFlowerItem "flower-2" "8c2a1072b59a3ff" ] emptyStore)
    as [Hok [Hrows _]].
  - reflexivity.
  - intros lat lng t. eexists. reflexivity.
  - intros m. reflexivity.
  - reflexivity.
  - reflexivity.
  - split; [exact Hok|].
    destruct (Hrows (sampleFlowerItem "flower-2" "8c2a1072b59a3ff"))
      as [f' [geo [ts [_ [_ [_ Hrow]]]]]]; [right; now left|].
    exact (ex_intro _ _ Hrow).
Defined.

(** ** Runs that end normally *)

Section Ends.

Context (E : Env).

(** [m] returns normally from every state, with a result in [P]. *)
Definition ends {A} (P : A -> Prop) (m : M A) : Prop :=
  forall st, exists a st', m st = (Ok a, st') /\ P a.

Definition whatever {A} : A -> Prop := fun _ => True.

Definition noError {A} : A * option error -> Prop := fun p => snd p = None.

Lemma ends_ret {A} (P : A -> Prop) (a : A) : P a -> ends P (ret a).
Proof. intros HP st. now exists a, st. Qed.

Lemma ends_gets {A} (f : State -> A) : ends whatever (gets f).
Proof. intros st. now exists (f st), st. Qed.

Lemma ends_modify (f : State -> State) : ends whatever (modify f).
Proof. intros st. now exists tt, (f st). Qed.

Lemma ends_emit (ev : Event) : ends whatever (emit ev).
Proof. apply ends_modify. Qed.

Lemma ends_bind {A B} (P : A -> Prop) (Q : B -> Prop) (m : M A) (k : A -> M B) :
  ends P m -> (forall a, P a -> ends Q (k a)) -> ends Q (bind m k).
Proof.
  intros Hm Hk st. unfold bind. destruct (Hm st) as [a [st1 [-> HP]]].
  exact (Hk a HP st1).
Qed.

Lemma ends_weaken {A} (P : A -> Prop) (m : M A) : ends P m -> ends whatever m.
Proof. intros Hm st. destruct (Hm st) as [a [st' [-> _]]]. now exists a, st'. Qed.

Lemma ends_forRange {A} (body : Z -> A -> M unit) (xs : list A) :
  (forall i x, x ∈ xs -> ends whatever (body i x)) ->
  forall i, ends whatever (forRange body i xs).
Proof.
  induction xs as [|x xs IH]; intros Hb i; cbn [forRange].
  - now apply ends_ret.
  - apply (ends_bind whatever); [apply Hb; now left|]. intros _ _.
    apply IH. intros j y Hy. apply Hb. now right.
Qed.

Lemma ends_forRangeFill {A B} (body : Z -> A -> M B) (xs : list A) :
  (forall i x, ends whatever (body i x)) ->
  forall i, ends whatever (forRangeFill body i xs).
Proof.
  intros Hb. induction xs as [|x xs IH]; intros i; cbn [forRangeFill].
  - now apply ends_ret.
  - apply (ends_bind whatever); [apply Hb|]. intros y _.
    apply (ends_bind whatever); [apply IH|]. intros ys _. now apply ends_ret.
Qed.

Lemma ends_handleErr (m : M unit) : ends whatever m -> ends whatever (handleErr m).
Proof.
  intros Hm st. unfold handleErr. destruct (Hm st) as [[] [st' [-> _]]].
  now exists tt, st'.
Qed.

(** The fetcher returns, and never with an error: a served attempt
    returns the answer, and after the last failed attempt the named results
    are returned as they were declared. *)
Lemma ends_pollenAPICallWithRetries {T} `{Shape T} (url : string) :
  ends noError (pollenAPICallWithRetries E (T := T) url).
Proof.
  unfold pollenAPICallWithRetries. generalize pollenRetries as n.
  induction n as [|n IH]; cbn [pollenAPICallWithRetries_loop].
  - now apply ends_ret.
  - intros st. unfold bind at 1. unfold pollenAPICall.
    unfold bind, emit, modify, gets, ret.
    destruct (respond E url _) as [err|t].
    + apply IH.
    + now eexists _, _.
Qed.

Lemma ends_getRewards (deviceName : string) : ends noError (getRewards E deviceName).
Proof.
  unfold getRewards.
  apply (ends_bind noError); [apply ends_pollenAPICallWithRetries|].
  intros [rewardsByDate err] Herr. now apply ends_ret.
Qed.

(** *** On a store that accepts every statement *)

Hypothesis store_accepts : forall t, db_error E t = None.

Lemma ends_dbStatement (s : Stmt) : ends whatever (dbStatement E s).
Proof.
  intros st. unfold dbStatement, bind, gets, emit, modify, ret.
  rewrite store_accepts. now eexists _, _.
Qed.

Lemma ends_Create {R} `{Model R} (oc : OnConflict) (r : R) :
  ends whatever (Create E oc r).
Proof.
  unfold Create. apply (ends_bind whatever); [apply ends_gets|]. intros now _.
  apply (ends_bind whatever); [apply ends_dbStatement|]. intros _ _.
  apply ends_modify.
Qed.

Lemma ends_CreateInBatches {R} `{Model R} (oc : OnConflict) (rows : list R)
    (batchSize : nat) :
  ends whatever (CreateInBatches E oc rows batchSize).
Proof.
  unfold CreateInBatches.
  assert (Hrun : ends whatever
    (forRange (fun _ batch =>
       let* now := gets clock in
       let* _ := dbStatement E (SqlUpsert TableName (primaryKey <$> batch)) in
       modify (fun st => set_table (foldl (upsertRow oc now) (table st) batch) st))
       0 (batches (length rows) batchSize rows))).
  { apply ends_forRange. intros i batch _.
    apply (ends_bind whatever); [apply ends_gets|]. intros now _.
    apply (ends_bind whatever); [apply ends_dbStatement|]. intros _ _.
    apply ends_modify. }
  destruct (length rows <=? batchSize)%nat; [exact Hrun|].
  intros st. unfold transaction. destruct (Hrun st) as [[] [st' [-> _]]].
  now exists tt, st'.
Qed.

Lemma ends_initGeocodeCache : ends whatever (initGeocodeCache E).
Proof.
  unfold initGeocodeCache. apply ends_forRange. intros i [[name column] rows] _.
  apply (ends_bind whatever); [apply ends_dbStatement|]. intros _ _.
  apply (ends_bind whatever); [apply ends_gets|]. intros records _.
  apply ends_forRange. intros j record _. apply ends_modify.
Qed.

(** The reward sync does not depend on any answer of the Pollen API. *)
Lemma ends_syncRewards : ends whatever (syncRewards E).
Proof.
  unfold syncRewards.
  apply (ends_bind whatever); [apply ends_dbStatement|]. intros _ _.
  apply (ends_bind whatever); [apply ends_gets|]. intros flowerNames _.
  apply (ends_bind whatever); [apply ends_emit|]. intros _ _.
  apply ends_forRange. intros i flowerName _.
  apply (ends_bind whatever).
  { destruct (i mod 100 =? 0); [apply ends_emit | now apply ends_ret]. }
  intros _ _.
  apply (ends_bind noError); [apply ends_getRewards|].
  intros [rewardItems err] Herr. unfold noError in Herr. cbn in Herr. subst err.
  apply (ends_bind whatever); [now apply ends_ret|]. intros _ _.
  apply (ends_bind whatever); [apply ends_gets|]. intros oc _.
  apply ends_CreateInBatches.
Qed.

(** *** With a geocoder that answers *)

Hypothesis places_answered : forall lat lng t, exists p, api_OSM E lat lng t = inr p.

Lemma ends_reverseGeocode (hex : string) : ends whatever (reverseGeocode E hex).
Proof.
  intros st. destruct (reverseGeocode_answered E places_answered hex st)
    as [geo [st' [-> _]]].
  now exists geo, st'.
Qed.

Lemma ends_syncHexes (hexLocations : string) : ends whatever (syncHexes E hexLocations).
Proof.
  unfold syncHexes, getAllHexes.
  apply (ends_bind noError); [apply ends_pollenAPICallWithRetries|].
  intros [hexes err] Herr. unfold noError in Herr. cbn in Herr. subst err.
  apply (ends_bind whatever); [now apply ends_ret|]. intros _ _.
  apply (ends_bind whatever); [apply ends_emit|]. intros _ _.
  apply ends_forRange. intros i hex _.
  apply (ends_bind whatever).
  { destruct (i mod 100 =? 0); [apply ends_emit | now apply ends_ret]. }
  intros _ _. unfold getHexDetails.
  apply (ends_bind noError); [apply ends_pollenAPICallWithRetries|].
  intros [details err] Herr. unfold noError in Herr. cbn in Herr. subst err.
  apply (ends_bind whatever); [now apply ends_ret|]. intros _ _.
  apply (ends_bind whatever); [apply ends_reverseGeocode|]. intros geo _.
  apply (ends_bind whatever); [apply ends_gets|]. intros oc _.
  apply ends_Create.
Qed.

(** *** With bee counts that can be marshalled *)

Hypothesis marshalled : forall m, snd (json_Marshal E m) = None.

Lemma ends_syncFlowers : ends whatever (syncFlowers E).
Proof.
  unfold syncFlowers, getAllFlowers.
  apply (ends_bind noError); [apply ends_pollenAPICallWithRetries|].
  intros [flowerItems err] Herr. unfold noError in Herr. cbn in Herr. subst err.
  apply (ends_bind whatever); [now apply ends_ret|]. intros _ _.
  apply (ends_bind whatever); [apply ends_emit|]. intros _ _.
  apply (ends_bind whatever).
  { apply ends_forRangeFill. intros i f.
    pose proof (marshalled (FlowerListItem.BeesSeen f)) as Hm.
    destruct (json_Marshal E (FlowerListItem.BeesSeen f)) as [bees err].
    cbn in Hm. subst err.
    apply (ends_bind whatever); [now apply ends_ret|]. intros _ _.
    apply (ends_bind whatever); [apply ends_reverseGeocode|]. intros geo _.
    now apply ends_ret. }
  intros flowers _.
  apply (ends_bind whatever); [apply ends_gets|]. intros oc _.
  apply ends_CreateInBatches.
Qed.

Lemma ends_main (args : list string) :
  Forall (fun hexGroup => hexGroup <> EmptyString /\ isValidHex hexGroup = true) args ->
  ends whatever (main E args).
Proof.
  intros Hargs. unfold main.
  apply (ends_bind whatever); [apply ends_handleErr, ends_dbStatement|]. intros _ _.
  apply (ends_bind whatever).
  { apply ends_forRange. intros i model _. apply ends_handleErr, ends_dbStatement. }
  intros _ _.
  apply (ends_bind whatever).
  { apply ends_forRange. intros i idx _. apply ends_handleErr, ends_dbStatement. }
  intros _ _.
  apply (ends_bind whatever); [apply ends_handleErr, ends_initGeocodeCache|]. intros _ _.
  apply (ends_bind whatever); [apply ends_handleErr, ends_syncFlowers|]. intros _ _.
  apply (ends_bind whatever); [apply ends_handleErr, ends_syncRewards|]. intros _ _.
  apply ends_forRange. intros i hexGroup Hin.
  rewrite Forall_forall in Hargs. destruct (Hargs hexGroup Hin) as [Hne Hvalid].
  apply String.eqb_neq in Hne. rewrite Hne, Hvalid. cbn [orb negb].
  apply ends_handleErr, ends_syncHexes.
Qed.

End Ends.

(** X13: no answer of the Pollen API, and no outage of it, ends a run with
    an error.  When the store accepts every statement, the geocoder answers
    every request, the bee counts can be marshalled and every argument is a
    valid hex group, [main] ends normally, whatever the Pollen API answers
    or fails to answer: the error checks that follow the fetches never
    fire. *)
Theorem main_survives_pollen_outage (E : Env) (args : list string) (st : State) :
  (forall t, db_error E t = None) ->
  (forall lat lng t, exists p, api_OSM E lat lng t = inr p) ->
  (forall m, snd (json_Marshal E m) = None) ->
  Forall (fun hexGroup => hexGroup <> EmptyString /\ isValidHex hexGroup = true) args ->
  fst (main E args st) = Ok tt.
Proof.
  intros Hdb Hosm Hmarshal Hargs.
  destruct (ends_main E Hdb Hosm Hmarshal args Hargs st) as [[] [st' [-> _]]].
  reflexivity.
Qed.

(** The Pollen API down, the geocoder and the store up. *)
Definition envPollenDown : Env :=
  {| h3_CellToLatLng := h3_CellToLatLng twoFlowers;
     api_HexList := fun _ _ => inl connectionRefused;
     api_HexItem := fun _ _ => inl connectionRefused;
     api_FlowerList := fun _ _ => inl connectionRefused;
     api_DeviceRewards := fun _ _ => inl connectionRefused;
     api_OSM := api_OSM twoFlowers;
     json_Marshal := json_Marshal twoFlowers;
     db_error := db_error twoFlowers |}.

Lemma main_survives_pollen_outage_witness :
  fst (main envPollenDown ["852a1393fffffff"] emptyStore) = Ok tt.
Proof.
  apply (main_survives_pollen_outage envPollenDown ["852a1393fffffff"] emptyStore).
  - reflexivity.
  - intros lat lng t. eexists. reflexivity.
  - intros m. reflexivity.
  - constructor; [split; [discriminate | vm_compute; reflexivity] | constructor].
Defined.

(** ** The progress lines of the reward sync *)

(** The lines of a loop that prints [line i] when [i] is a multiple of 100,
    for the [k] indices from [i] on. *)
Fixpoint progressFrom (line : Z -> Event) (i : Z) (k : nat) : list Event :=
  match k with
  | O => []
  | S k' => (if i mod 100 =? 0 then [line i] else []) ++ progressFrom line (i + 1) k'
  end.

Lemma progressFrom_snoc (line : Z -> Event) (k : nat) :
  forall i,
    progressFrom line i (S k)
    = progressFrom line i k
      ++ (if (i + Z.of_nat k) mod 100 =? 0 then [line (i + Z.of_nat k)] else []).
Proof.
  induction k as [|k IH]; intros i.
  - cbn [progressFrom]. rewrite Z.add_0_r. now rewrite app_nil_r.
  - change (progressFrom line i (S (S k)))
      with ((if i mod 100 =? 0 then [line i] else [])
            ++ progressFrom line (i + 1) (S k)).
    rewrite IH. cbn [progressFrom]. rewrite <- app_assoc.
    replace (i + 1 + Z.of_nat k) with (i + Z.of_nat (S k)) by lia.
    reflexivity.
Qed.

(** The hundreds begun below [S k]. *)
Lemma hundreds_multiple (k : nat) :
  Z.of_nat k mod 100 = 0 ->
  ((S k + 99) / 100)%nat = S ((k + 99) / 100) /\
  Z.of_nat (100 * ((k + 99) / 100)) = Z.of_nat k.
Proof. intros Hm. split; zify; Z.div_mod_to_equations; lia. Qed.

Lemma hundreds_other (k : nat) :
  Z.of_nat k mod 100 <> 0 -> ((S k + 99) / 100)%nat = ((k + 99) / 100)%nat.
Proof. intros Hm. zify. Z.div_mod_to_equations. lia. Qed.

(** One line for each hundred begun. *)
Lemma progressFrom_hundreds (line : Z -> Event) (k : nat) :
  progressFrom line 0 k
  = (fun j => line (Z.of_nat (100 * j))) <$> seq 0 ((k + 99) / 100).
Proof.
  induction k as [|k IH]; [reflexivity|].
  rewrite progressFrom_snoc, IH. rewrite Z.add_0_l.
  destruct (Z.eqb_spec (Z.of_nat k mod 100) 0) as [Hm|Hm].
  - destruct (hundreds_multiple k Hm) as [-> Hk].
    rewrite seq_S, fmap_app. cbn [fmap list_fmap Nat.add].
    rewrite Hk. reflexivity.
  - rewrite (hundreds_other k Hm). apply app_nil_r.
Qed.

Definition foundCandidates (n : nat) : Event :=
  EvPrintf "Found %v reward candidates\n" [ArgInt (Z.of_nat n)].

Definition rewardProgress (n : nat) (i : Z) : Event :=
  EvPrintf "Reward progress: %d/%d\n" [ArgInt i; ArgInt (Z.of_nat n)].

(** The body of the loop of [syncRewards] after its progress line. *)
Definition syncRewards_fetch (E : Env) (flowerName : string) : M unit :=
  let* (rewardItems, err) := getRewards E flowerName in
  let* _ := check err in
  let rewards := rewardOfItem <$> rewardItems in
  let* oc := gets upsertClause in
  CreateInBatches E oc rewards 200.

Definition syncRewards_body (E : Env) (n : nat) (i : Z) (flowerName : string) : M unit :=
  let* _ :=
    if i mod 100 =? 0
    then emit (rewardProgress n i)
    else ret tt in
  syncRewards_fetch E flowerName.

Lemma syncRewards_unfold (E : Env) :
  syncRewards E
  = (let* _ := dbStatement E (SqlSelect tableNameFlower "id") in
     let* flowerNames := gets (fun st => fst <$> map_to_list (pollen_flowers st)) in
     let* _ := emit (foundCandidates (length flowerNames)) in
     forRange (syncRewards_body E (length flowerNames)) 0 flowerNames).
Proof. reflexivity. Qed.

Section RewardProgress.

Context (E : Env).

Hypothesis store_accepts : forall t, db_error E t = None.

Lemma syncRewards_fetch_silent (flowerName : string) (st : State) :
  exists st',
    syncRewards_fetch E flowerName st = (Ok tt, st') /\ printed st' = printed st.
Proof.
  assert (Hends : ends whatever (syncRewards_fetch E flowerName)).
  { unfold syncRewards_fetch.
    apply (ends_bind noError); [apply ends_getRewards|].
    intros [rewardItems err] Herr. unfold noError in Herr. cbn in Herr. subst err.
    apply (ends_bind whatever); [now apply ends_ret|]. intros _ _.
    apply (ends_bind whatever); [apply ends_gets|]. intros oc _.
    now apply ends_CreateInBatches. }
  assert (Hsilent : holds (printedIs (printed st)) (printedIs (printed st))
                      (syncRewards_fetch E flowerName)).
  { unfold syncRewards_fetch.
    apply holds_bind; [apply holds_getRewards; auto using printedIs_quiet|].
    intros [rewardItems err]. apply holds_bind; [apply holds_check; auto|]. intros _.
    apply holds_bind; [apply holds_gets|]. intros oc.
    apply holds_CreateInBatches;
      auto using printedIs_quiet, printedIs_tables, tableOfState_Reward. }
  specialize (Hsilent st eq_refl).
  destruct (Hends st) as [[] [st' [Hrun _]]]. rewrite Hrun in Hsilent.
  now exists st'.
Qed.

Lemma syncRewards_loop_progress (n : nat) (flowerNames : list string) :
  forall i st,
    exists st',
      forRange (syncRewards_body E n) i flowerNames st = (Ok tt, st') /\
      printed st'
      = printed st ++ progressFrom (rewardProgress n) i (length flowerNames).
Proof.
  induction flowerNames as [|x xs IH]; intros i st.
  - exists st. split; [reflexivity|]. cbn. now rewrite app_nil_r.
  - cbn [forRange length progressFrom]. unfold bind at 1.
    unfold syncRewards_body at 1. unfold bind at 1.
    set (st0 := snd ((if i mod 100 =? 0 then emit (rewardProgress n i) else ret tt) st)).
    assert (H0 : (if i mod 100 =? 0 then emit (rewardProgress n i) else ret tt) st
                 = (Ok tt, st0) /\
                 printed st0
                 = printed st ++ (if i mod 100 =? 0 then [rewardProgress n i] else [])).
    { subst st0. destruct (i mod 100 =? 0).
      - split; [reflexivity|]. cbn [snd emit modify]. apply printed_record.
      - split; [reflexivity|]. cbn [snd ret]. now rewrite app_nil_r. }
    destruct H0 as [Hst0 Hp0]. rewrite Hst0.
    destruct (syncRewards_fetch_silent x st0) as [st1 [Hfetch Hp1]].
    rewrite Hfetch.
    destruct (IH (i + 1) st1) as [st' [Hloop Hp']].
    exists st'. split; [exact Hloop|].
    rewrite Hp', Hp1, Hp0. now rewrite app_assoc.
Qed.

End RewardProgress.

(** X14: on a store that accepts every statement, [syncRewards] prints the
    number [n] of rows of the Flower table, then one progress line for each
    hundred of flowers begun (the indices 0, 100, 200, ... below [n]), and
    nothing else, whatever the Pollen API answers. *)
Theorem syncRewards_progress_lines (E : Env) (st : State) :
  (forall t, db_error E t = None) ->
  let n := length (map_to_list (pollen_flowers st)) in
  printed (snd (syncRewards E st))
  = printed st ++ foundCandidates n
      :: ((fun j => rewardProgress n (Z.of_nat (100 * j))) <$> seq 0 ((n + 99) / 100)).
Proof.
  intros Hdb n. rewrite syncRewards_unfold.
  unfold bind at 1. unfold dbStatement, bind, gets, emit, modify, ret.
  rewrite Hdb. cbn [pollen_flowers record].
  rewrite length_fmap. fold n.
  match goal with
  | |- printed (snd (forRange _ _ _ ?s)) = _ =>
      destruct (syncRewards_loop_progress E Hdb n
                  (fst <$> map_to_list (pollen_flowers st)) 0 s)
        as [st' [Hloop Hp]]
  end.
  rewrite Hloop. cbn [snd]. rewrite Hp, !printed_record. cbn [isPrintf foundCandidates].
  rewrite app_nil_r, length_fmap. fold n. rewrite progressFrom_hundreds.
  rewrite <- app_assoc. reflexivity.
Qed.

Lemma syncRewards_progress_lines_witness :
  printed (snd (syncRewards rewardWorld storeWithFlower))
  = [foundCandidates 1; rewardProgress 1 0].
Proof.
  apply (syncRewards_progress_lines rewardWorld storeWithFlower).
  reflexivity.
Defined.

(** ** The rate limiters *)

(** The limiter of which a request has to take a slot. *)
Definition limiterOf (ev : Event) : option string :=
  match ev with
  | EvPollenGet _ => Some "pollen"
  | EvOsmGet _ _ _ => Some "osm"
  | _ => None
  end.

(** Every request of [evs] comes right after the take of a slot of its
    limiter. *)
Definition limitedTrace (evs : list Event) : Prop :=
  forall pre ev post name,
    evs = pre ++ ev :: post -> limiterOf ev = Some name ->
    last pre = Some (EvTake name).

Definition limited (st : State) : Prop := limitedTrace (snd <$> trace st).

Lemma limitedTrace_snoc (evs : list Event) (ev : Event) :
  limitedTrace evs ->
  (forall name, limiterOf ev = Some name -> last evs = Some (EvTake name)) ->
  limitedTrace (evs ++ [ev]).
Proof.
  intros Hevs Hev pre ev' post name Heq Hlim.
  destruct post as [|x post _] using rev_ind.
  - apply app_inj_tail in Heq as [<- <-]. now apply Hev.
  - rewrite app_comm_cons, app_assoc in Heq. apply app_inj_tail in Heq as [Heq _].
    exact (Hevs pre ev' post name Heq Hlim).
Qed.

Lemma limited_record (ev : Event) (st : State) :
  limiterOf ev = None -> limited st -> limited (record ev st).
Proof.
  intros Hn Hst. unfold limited, record; cbn [trace]. rewrite fmap_app.
  apply limitedTrace_snoc; [exact Hst|]. intros name Hl. cbn in Hl. congruence.
Qed.

Lemma limited_request (name : string) (ev : Event) (st : State) :
  limiterOf ev = Some name -> limited st ->
  limited (record ev (record (EvTake name) st)).
Proof.
  intros Hl Hst. unfold limited, record; cbn [trace]. rewrite !fmap_app.
  cbn [fmap list_fmap snd]. apply limitedTrace_snoc.
  - apply limitedTrace_snoc; [exact Hst|]. intros n Hn. discriminate.
  - intros n Hn. rewrite last_snoc. congruence.
Qed.

Lemma limited_tables h f r (st : State) : limited st -> limited (withTables h f r st).
Proof. exact (fun H => H). Qed.

Lemma limited_cached (hex : string) (g : ReverseGeocode.t) (st : State) :
  limited st -> limited (cached hex g st).
Proof. exact (fun H => H). Qed.

Section Limiter.

Context (E : Env).

Abbreviation lim := (holds limited limited).

Ltac lim_bind tac := apply holds_bind; [tac|].
Ltac lim_done :=
  first [ apply holds_ret | apply holds_gets
        | apply holds_throw; exact (fun _ H => H)
        | apply holds_check; exact (fun _ H => H) ].

Lemma lim_emit (ev : Event) : limiterOf ev = None -> lim (emit ev).
Proof. intros Hn. apply holds_modify. intros st. now apply limited_record. Qed.

Lemma lim_dbStatement (s : Stmt) : lim (dbStatement E s).
Proof.
  unfold dbStatement. lim_bind lim_done. intros now.
  lim_bind ltac:(now apply lim_emit). intros _.
  destruct (db_error E now); lim_done.
Qed.

Lemma lim_handleErr (m : M unit) : lim m -> lim (handleErr m).
Proof.
  apply holds_handleErr. intros ev st Hp. apply limited_record.
  now destruct ev.
Qed.

Lemma lim_Create {R} `{Model R} (oc : OnConflict) (r : R) :
  tableOfState R -> lim (Create E oc r).
Proof.
  intros HT. unfold Create. lim_bind lim_done. intros now.
  lim_bind ltac:(apply lim_dbStatement). intros _.
  now apply (holds_set_table limited limited limited_tables
               (fun st => upsertRow oc now (table st) r)).
Qed.

Lemma lim_CreateInBatches {R} `{Model R} (oc : OnConflict) (rows : list R)
    (batchSize : nat) :
  tableOfState R -> lim (CreateInBatches E oc rows batchSize).
Proof.
  intros HT. unfold CreateInBatches.
  assert (Hrun : lim
    (forRange (fun _ batch =>
       let* now := gets clock in
       let* _ := dbStatement E (SqlUpsert TableName (primaryKey <$> batch)) in
       modify (fun st => set_table (foldl (upsertRow oc now) (table st) batch) st))
       0 (batches (length rows) batchSize rows))).
  { apply holds_forRange. intros i batch.
    lim_bind lim_done. intros now.
    lim_bind ltac:(apply lim_dbStatement). intros _.
    now apply (holds_set_table limited limited limited_tables
                 (fun st => foldl (upsertRow oc now) (table st) batch)). }
  destruct (length rows <=? batchSize)%nat; [exact Hrun|].
  now apply (holds_transaction limited limited limited_tables).
Qed.

(** An attempt takes a slot of the Pollen limiter, then sends its request. *)
Lemma lim_pollenAPICall {T} `{Shape T} (url : string) :
  lim (pollenAPICall E (T := T) url).
Proof.
  intros st Hst. unfold pollenAPICall, bind, emit, modify, gets, ret.
  destruct (respond E url _); now apply (limited_request "pollen").
Qed.

Lemma lim_pollenAPICallWithRetries {T} `{Shape T} (url : string) :
  lim (pollenAPICallWithRetries E (T := T) url).
Proof.
  unfold pollenAPICallWithRetries. generalize pollenRetries as n.
  induction n as [|n IH]; cbn [pollenAPICallWithRetries_loop].
  - apply holds_ret.
  - lim_bind ltac:(apply lim_pollenAPICall). intros [t [e|]]; [|apply holds_ret].
    lim_bind ltac:(now apply lim_emit). intros _. exact IH.
Qed.

Lemma lim_getRewards (deviceName : string) : lim (getRewards E deviceName).
Proof.
  unfold getRewards. lim_bind ltac:(apply lim_pollenAPICallWithRetries).
  intros [rewardsByDate err]. apply holds_ret.
Qed.

(** A miss takes a slot of the OSM limiter, then sends its request; a hit
    sends nothing. *)
Lemma lim_reverseGeocode (hex : string) : lim (reverseGeocode E hex).
Proof.
  intros st Hst. unfold reverseGeocode, bind, gets.
  destruct (osmCache st !! hex) as [g|]; [exact Hst|].
  destruct (hexToLatLng E hex) as [lat lng].
  unfold emit, modify, ret, throw. cbn [fst snd].
  destruct (api_OSM E lat lng _) as [err|place].
  - now apply (limited_request "osm").
  - apply limited_cached. now apply (limited_request "osm").
Qed.

Lemma lim_initGeocodeCache : lim (initGeocodeCache E).
Proof.
  unfold initGeocodeCache. apply holds_forRange. intros i [[name column] rows].
  lim_bind ltac:(apply lim_dbStatement). intros _.
  lim_bind lim_done. intros records.
  apply holds_forRange. intros j rec.
  apply holds_modify. intros st. apply limited_cached.
Qed.

Lemma lim_syncFlowers : lim (syncFlowers E).
Proof.
  unfold syncFlowers, getAllFlowers.
  lim_bind ltac:(apply lim_pollenAPICallWithRetries). intros [flowerItems err].
  lim_bind lim_done. intros _.
  lim_bind ltac:(now apply lim_emit). intros _.
  apply holds_bind.
  { apply holds_forRangeFill. intros i f.
    destruct (json_Marshal E (FlowerListItem.BeesSeen f)) as [beesSeen err'].
    lim_bind lim_done. intros _.
    lim_bind ltac:(apply lim_reverseGeocode). intros geo. apply holds_ret. }
  intros flowers. lim_bind lim_done. intros oc.
  apply lim_CreateInBatches, tableOfState_Flower.
Qed.

Lemma lim_syncRewards : lim (syncRewards E).
Proof.
  unfold syncRewards.
  lim_bind ltac:(apply lim_dbStatement). intros _.
  lim_bind lim_done. intros flowerNames.
  lim_bind ltac:(now apply lim_emit). intros _.
  apply holds_forRange. intros i flowerName.
  apply holds_bind.
  { destruct (i mod 100 =? 0); [now apply lim_emit | apply holds_ret]. }
  intros _.
  lim_bind ltac:(apply lim_getRewards). intros [rewardItems err].
  lim_bind lim_done. intros _.
  lim_bind lim_done. intros oc.
  apply lim_CreateInBatches, tableOfState_Reward.
Qed.

Lemma lim_syncHexes (hexLocations : string) : lim (syncHexes E hexLocations).
Proof.
  unfold syncHexes, getAllHexes.
  lim_bind ltac:(apply lim_pollenAPICallWithRetries). intros [hexes err].
  lim_bind lim_done. intros _.
  lim_bind ltac:(now apply lim_emit). intros _.
  apply holds_forRange. intros i hex.
  apply holds_bind.
  { destruct (i mod 100 =? 0); [now apply lim_emit | apply holds_ret]. }
  intros _.
  lim_bind ltac:(apply lim_pollenAPICallWithRetries). intros [details err'].
  lim_bind lim_done. intros _.
  lim_bind ltac:(apply lim_reverseGeocode). intros geo.
  lim_bind lim_done. intros oc.
  apply lim_Create, tableOfState_Hex.
Qed.

Lemma lim_main (args : list string) : lim (main E args).
Proof.
  unfold main.
  lim_bind ltac:(apply lim_handleErr, lim_dbStatement). intros _.
  apply holds_bind.
  { apply holds_forRange. intros i model. apply lim_handleErr, lim_dbStatement. }
  intros _. apply holds_bind.
  { apply holds_forRange. intros i idx. apply lim_handleErr, lim_dbStatement. }
  intros _.
  lim_bind ltac:(apply lim_handleErr, lim_initGeocodeCache). intros _.
  lim_bind ltac:(apply lim_handleErr, lim_syncFlowers). intros _.
  lim_bind ltac:(apply lim_handleErr, lim_syncRewards). intros _.
  apply holds_forRange. intros i hexGroup.
  destruct (_ || _); [lim_done|].
  apply lim_handleErr, lim_syncHexes.
Qed.

End Limiter.

(** X15: no request leaves without a slot of its limiter.  In the trace of
    a run of [main] from the start of the program, whatever the upstreams
    and the store do and however the run ends, every request to the Pollen
    API comes right after a take of the Pollen limiter and every geocoding
    request right after a take of the OSM limiter. *)
Theorem main_requests_are_limited (E : Env) (args : list string) (t0 : Time)
    (hexes : gmap string Hex.t) (flowers : gmap string Flower.t)
    (rewards : gmap string Reward.t) :
  forall pre ev post name,
    snd <$> trace (snd (main E args (initState t0 hexes flowers rewards)))
    = pre ++ ev :: post ->
    limiterOf ev = Some name ->
    last pre = Some (EvTake name).
Proof.
  assert (Hinit : limited (initState t0 hexes flowers rewards)).
  { intros pre ev post name Heq. destruct pre; discriminate. }
  pose proof (lim_main E args _ Hinit) as Hrun.
  destruct (main E args (initState t0 hexes flowers rewards)) as [[[]|e] st'];
    exact Hrun.
Qed.

Lemma main_requests_are_limited_witness :
  last (take 8 (snd <$> trace (snd (main twoFlowers [] emptyStore))))
  = Some (EvTake "pollen").
Proof.
  apply (main_requests_are_limited twoFlowers [] 1000 ∅ ∅ ∅
           (take 8 (snd <$> trace (snd (main twoFlowers [] emptyStore))))
           (EvPollenGet pollenAPIFlowers)
           (drop 9 (snd <$> trace (snd (main twoFlowers [] emptyStore))))).
  - vm_compute. reflexivity.
  - reflexivity.
Defined.
